(** * nhx.js: a Newick / NHX parser, embedded and verified

    The development follows [src/nhx.js] of the repository.  The exported function [parse]
    runs four local functions in sequence:

      appendBoundaries -> tokenize -> deleteParentAttr -> translateNode

    Modelling choices.
    - A JavaScript string is a [string]; every [ascii] stands for one code
      unit of the source string, so the inputs covered are the strings
      whose code units lie below 256.
    - The tokenizer mutates objects that are shared through [current],
      [prevNode] and the [parent] links, so it is modelled over an explicit
      object store ([heap]) in which a reference is an index.
    - A thrown [TypeError] is an explicit outcome ([result]).
    - The objects that [parse] returns carry dynamic properties; they are
      lists of own properties ([obj]) read with [get_prop] and written
      with [set_prop].  An assignment to the key [__proto__] reaches the
      accessor that every node inherits and writes no own property.  The
      list keeps the properties in the order of their creation; that
      JavaScript enumerates keys that are array indices first is not
      modelled.
    - A Number is kept as the decimal numeral it was read from ([jsnum]);
      the rounding of that numeral to a double is not modelled. *)

From Stdlib Require Import String Ascii List ZArith Lia Bool Permutation.
Import ListNotations.
Open Scope string_scope.
Open Scope Z_scope.

(** ** Outcomes *)

(** [Stuck] is an outcome of the model only: a reference that denotes no
    object of the store.  [tokenize_never_stuck] shows that no input
    produces it. *)
Inductive result (A : Type) : Type :=
| OK (a : A)
| TypeError
| Stuck.
Arguments OK {A} a.
Arguments TypeError {A}.
Arguments Stuck {A}.

Definition bind {A B : Type} (r : result A) (k : A -> result B) : result B :=
  match r with
  | OK a => k a
  | TypeError => TypeError
  | Stuck => Stuck
  end.

Notation "'do' x <- r ; k" := (bind r (fun x => k))
  (at level 10, x name, r at level 100, k at level 200).

(** ** String primitives of the JavaScript runtime used by the source *)

Module JsString.

Definition len (s : string) : Z := Z.of_nat (String.length s).

(** [s.substr(start, length)]: a negative [start] counts from the end. *)
Definition substr (s : string) (start length : Z) : string :=
  let size := len s in
  let from := if start <? 0 then Z.max (size + start) 0 else Z.min start size in
  let n := Z.min (Z.max length 0) (size - from) in
  String.substring (Z.to_nat from) (Z.to_nat n) s.

(** [s.indexOf(sep)], [-1] when [sep] does not occur. *)
Fixpoint indexOf (sep s : string) : Z :=
  if String.prefix sep s then 0
  else match s with
       | EmptyString => -1
       | String _ s' =>
           let r := indexOf sep s' in
           if r =? -1 then -1 else r + 1
       end.

(** [s.split(sep)] for a non-empty [sep] (the three call sites pass
    [":"], ["="] and ["[&&NHX:"]).  [split_from sep skip s] returns the
    piece under construction and the pieces after it; [skip] counts the
    code units of a matched separator still to be passed over. *)
Fixpoint split_from (sep : string) (skip : nat) (s : string)
  : string * list string :=
  match s with
  | EmptyString => (EmptyString, [])
  | String c s' =>
      match skip with
      | S k => split_from sep k s'
      | O =>
          if String.prefix sep s
          then let '(p, ps) := split_from sep (Nat.pred (String.length sep)) s' in
               (EmptyString, p :: ps)
          else let '(p, ps) := split_from sep O s' in
               (String c p, ps)
      end
  end.

Definition split (sep s : string) : list string :=
  let '(p, ps) := split_from sep O s in p :: ps.

(** [s.replace(/c/g, by)] for a one-character pattern [c]. *)
Fixpoint replace_all (c : ascii) (by_ : string) (s : string) : string :=
  match s with
  | EmptyString => EmptyString
  | String a s' =>
      if Ascii.eqb a c then by_ ++ replace_all c by_ s'
      else String a (replace_all c by_ s')
  end.

(** [s.replace(/c$/, by)]: only a [c] that is the last code unit of the
    string matches (the pattern has no [m] flag). *)
Fixpoint replace_at_end (c : ascii) (by_ : string) (s : string) : string :=
  match s with
  | EmptyString => EmptyString
  | String a EmptyString => if Ascii.eqb a c then by_ else s
  | String a s' => String a (replace_at_end c by_ s')
  end.

End JsString.

(** ** The input normalizer (source lines 265-269) *)

Definition appendBoundaries (text : string) : string :=
  let text := JsString.replace_all ")" ",)" text in
  let text := JsString.replace_at_end ";" "," text in
  text.

(** ** Numbers *)

(** [Dec neg m e] is the Number written [m * 10^e] with sign [neg]: the
    value a decimal numeral denotes.  [num_zero] is the literal [0]. *)
Inductive jsnum : Type :=
| NaN
| Inf (neg : bool)
| Dec (neg : bool) (m : N) (e : Z).

Definition num_zero : jsnum := Dec false 0 0.

(** The global [parseFloat]: leading white space is skipped, the longest
    prefix that is a decimal literal is read, and [NaN] is returned when
    there is none. *)
Module ParseFloat.

Definition is_ws (c : ascii) : bool :=
  let n := nat_of_ascii c in
  ((9 <=? n) && (n <=? 13) || (n =? 32) || (n =? 160))%nat.

Definition is_digit (c : ascii) : bool :=
  let n := nat_of_ascii c in ((48 <=? n) && (n <=? 57))%nat.

Definition digit_val (c : ascii) : N := N.of_nat (nat_of_ascii c - 48).

Fixpoint skip_ws (s : string) : string :=
  match s with
  | String c s' => if is_ws c then skip_ws s' else s
  | EmptyString => EmptyString
  end.

(** Reads a run of digits: the accumulated value, the number of digits
    read and the rest of the string. *)
Fixpoint read_digits (acc : N) (count : nat) (s : string) : N * nat * string :=
  match s with
  | String c s' =>
      if is_digit c then read_digits (10 * acc + digit_val c)%N (S count) s'
      else (acc, count, s)
  | EmptyString => (acc, count, s)
  end.

Definition strip_sign (s : string) : bool * string :=
  match s with
  | String c r =>
      if Ascii.eqb c "+" then (false, r)
      else if Ascii.eqb c "-" then (true, r)
      else (false, s)
  | EmptyString => (false, s)
  end.

(** The exponent part, [0] when it is absent or has no digit. *)
Definition exponent (s : string) : Z :=
  match s with
  | String c r =>
      if Ascii.eqb c "e" || Ascii.eqb c "E" then
        let '(neg, r') := strip_sign r in
        let '(v, n, _) := read_digits 0 0 r' in
        match n with
        | O => 0
        | S _ => if neg then - Z.of_N v else Z.of_N v
        end
      else 0
  | EmptyString => 0
  end.

Definition parseFloat (s : string) : jsnum :=
  let '(neg, u) := strip_sign (skip_ws s) in
  if String.prefix "Infinity" u then Inf neg
  else
    let '(m1, n1, r1) := read_digits 0 0 u in
    let '(m2, n2, r2) :=
      match r1 with
      | String c r => if Ascii.eqb c "." then read_digits m1 0 r else (m1, O, r1)
      | EmptyString => (m1, O, r1)
      end in
    match (n1 + n2)%nat with
    | O => NaN
    | S _ => Dec neg m2 (exponent r2 - Z.of_nat n2)
    end.


End ParseFloat.

(** ** Objects returned to the caller *)

#[local] Set Warnings "-register-all".

(** [VRef] is a reference into the tokenizer's store; only a [parent]
    link holds one. *)
Inductive value : Type :=
| VUndef
| VStr (s : string)
| VNum (n : jsnum)
| VRef (r : nat)
| VArr (l : list (list (string * value))).

Definition obj : Type := list (string * value).

(** The own property [k] of the object, [None] when it has none. *)
Fixpoint get_prop (k : string) (o : obj) : option value :=
  match o with
  | [] => None
  | (k', v) :: o' => if String.eqb k' k then Some v else get_prop k o'
  end.

(** Writing the own property [k]: an existing property keeps its place,
    a new one is added last. *)
Fixpoint set_own (k : string) (v : value) (o : obj) : obj :=
  match o with
  | [] => [(k, v)]
  | (k', v') :: o' =>
      if String.eqb k' k then (k, v) :: o' else (k', v') :: set_own k v o'
  end.

(** [node[k] = v] on an object that inherits from [Object.prototype], as
    every node does (all are created by object literals).  The key
    [__proto__] names the accessor of the prototype, so the assignment
    calls its setter and writes no own property: the setter ignores a
    value that is no object (the source assigns strings, numbers and
    [undefined] only) and would otherwise replace the prototype.  Every
    other key the source can assign is a writable data property or
    absent, and the assignment writes the own property. *)
Definition set_prop (k : string) (v : value) (o : obj) : obj :=
  if String.eqb k "__proto__" then o else set_own k v o.

(** [a[i]] on an array of strings. *)
Definition arr_get (a : list string) (i : nat) : value :=
  match nth_error a i with
  | Some s => VStr s
  | None => VUndef
  end.

(** ** The tokenizer's object store *)

(** One object created by [tokenize]: [{branchset: []}] with its later
    [parent] and [text] properties, or a leaf [{text: text}].  [None] is
    an absent property. *)
Record cell : Type := mkCell {
  c_branchset : option (list nat);
  c_parent : option nat;
  c_text : option string
}.

Definition heap : Type := list cell.

Definition alloc (h : heap) (c : cell) : heap * nat := ((h ++ [c])%list, List.length h).

Fixpoint update (h : heap) (r : nat) (f : cell -> cell) : heap :=
  match h, r with
  | [], _ => []
  | c :: h', O => f c :: h'
  | c :: h', S r' => c :: update h' r' f
  end.

(** [target.branchset.push(x)]; [target] may be [undefined]. *)
Definition push_branchset (h : heap) (target : option nat) (x : nat) : result heap :=
  match target with
  | None => TypeError
  | Some p =>
      match nth_error h p with
      | None => Stuck
      | Some c =>
          match c_branchset c with
          | None => TypeError
          | Some ids =>
              OK (update h p (fun c => mkCell (Some (ids ++ [x])%list) (c_parent c) (c_text c)))
          end
      end
  end.

(** [target.text = text]; [target] may be [null]. *)
Definition assign_text (h : heap) (target : option nat) (text : string) : result heap :=
  match target with
  | None => TypeError
  | Some p =>
      match nth_error h p with
      | None => Stuck
      | Some _ => OK (update h p (fun c => mkCell (c_branchset c) (c_parent c) (Some text)))
      end
  end.

(** [target.parent]; [target] may be [undefined]. *)
Definition read_parent (h : heap) (target : option nat) : result (option nat) :=
  match target with
  | None => TypeError
  | Some p =>
      match nth_error h p with
      | None => Stuck
      | Some c => OK (c_parent c)
      end
  end.

(** ** tokenize (source lines 99-150) *)

(** The local variables of [tokenize]; [None] is [undefined] for
    [current] and [null] for [prevNode]. *)
Record tstate : Type := mkState {
  store : heap;
  current : option nat;
  textBegin : Z;
  inNhxAttr : bool;
  prevNode : option nat
}.

(** The synthetic root [{branchset: []}] is object [0]. *)
Definition root : nat := O.

Definition init_state : tstate :=
  mkState [mkCell (Some []) None None] (Some root) 0 false None.

(** One iteration of the [for] loop: [char] is [str[i]]. *)
Definition step (str : string) (i : Z) (char : ascii) (st : tstate) : result tstate :=
  if Ascii.eqb char "(" then
    let parent := current st in
    let '(h, cur) := alloc (store st) (mkCell (Some []) None None) in
    do h <- push_branchset h parent cur;
    let h := update h cur (fun c => mkCell (c_branchset c) parent (c_text c)) in
    OK (mkState h (Some cur) (i + 1) (inNhxAttr st) (prevNode st))
  else if Ascii.eqb char ")" then
    do p <- read_parent (store st) (current st);
    OK (mkState (store st) p (i + 1) (inNhxAttr st) (current st))
  else if Ascii.eqb char "," then
    if inNhxAttr st then OK st
    else
      let text := JsString.substr str (textBegin st) (i - textBegin st) in
      let isCharBeforeTextCloseBracket :=
        String.eqb (JsString.substr str (textBegin st - 1) 1) ")" in
      do h <-
        (if isCharBeforeTextCloseBracket
         then assign_text (store st) (prevNode st) text
         else let '(h, leaf) := alloc (store st) (mkCell None None (Some text)) in
              push_branchset h (current st) leaf);
      OK (mkState h (current st) (i + 1) (inNhxAttr st) (prevNode st))
  else if Ascii.eqb char "[" then
    OK (mkState (store st) (current st) (textBegin st) true (prevNode st))
  else if Ascii.eqb char "]" then
    OK (mkState (store st) (current st) (textBegin st) false (prevNode st))
  else OK st.

(** The loop from index [i] on; [rest] is the part of [str] from [i]. *)
Fixpoint loop (str : string) (i : Z) (rest : string) (st : tstate) : result tstate :=
  match rest with
  | EmptyString => OK st
  | String char rest' =>
      do st' <- step str i char st;
      loop str (i + 1) rest' st'
  end.

Definition scan (str : string) : result tstate := loop str 0 str init_state.

(** The nodes as [tokenize] hands them on: the object graph below a
    reference, read along the [branchset] arrays. *)
Inductive rawnode : Type :=
| RawNode (branchset : option (list rawnode)) (parent : option nat) (text : option string).

Fixpoint reify_list (f : nat -> option rawnode) (ids : list nat) : option (list rawnode) :=
  match ids with
  | [] => Some []
  | r :: ids' =>
      match f r, reify_list f ids' with
      | Some n, Some ns => Some (n :: ns)
      | _, _ => None
      end
  end.

Fixpoint reify (fuel : nat) (h : heap) (r : nat) : option rawnode :=
  match fuel with
  | O => None
  | S fuel' =>
      match nth_error h r with
      | None => None
      | Some c =>
          match c_branchset c with
          | None => Some (RawNode None (c_parent c) (c_text c))
          | Some ids =>
              match reify_list (reify fuel' h) ids with
              | Some ns => Some (RawNode (Some ns) (c_parent c) (c_text c))
              | None => None
              end
          end
      end
  end.

(** [current.branchset[0]] in the final state: [OK None] is [undefined]. *)
Definition first_entry (st : tstate) : result (option rawnode) :=
  match current st with
  | None => TypeError
  | Some cur =>
      match nth_error (store st) cur with
      | None => Stuck
      | Some c =>
          match c_branchset c with
          | None => TypeError
          | Some [] => OK None
          | Some (r :: _) =>
              match reify (List.length (store st)) (store st) r with
              | Some n => OK (Some n)
              | None => Stuck
              end
          end
      end
  end.

Definition tokenize (str : string) : result (option rawnode) :=
  do st <- scan str;
  first_entry st.

(** ** deleteParentAttr (source lines 159-165) *)

(** On a node that has a [branchset] the function visits the children
    and deletes [parent]; any other node is returned as it is. *)
Fixpoint deleteParentAttr (node : rawnode) : rawnode :=
  match node with
  | RawNode (Some children) _ text =>
      RawNode (Some (map deleteParentAttr children)) None text
  | RawNode None parent text => RawNode None parent text
  end.

(** ** setNameAndLength (source lines 186-200) *)

(** In the first branch the colon occurs, so [parts[1]] exists
    ([split_has_second]); [parseFloat(undefined)] would be NaN. *)

Definition setNameAndLength (node : obj) (str : string) : obj :=
  if negb (JsString.indexOf ":" str =? -1) then
    let parts := JsString.split ":" str in
    let node := set_prop "name" (arr_get parts 0) node in
    set_prop "length"
      (VNum match nth_error parts 1 with
            | Some p => ParseFloat.parseFloat p
            | None => NaN
            end) node
  else if negb (JsString.len str =? 0) then
    let node := set_prop "name" (VStr str) node in
    set_prop "length" (VNum num_zero) node
  else
    let node := set_prop "name" (VStr "") node in
    set_prop "length" (VNum num_zero) node.

(** ** setNhxAttrs (source lines 211-217) *)

(** The callback of the loop: [kv = kv.split('='); node[kv[0]] = kv[1]].
    The source's [foreach] over the pairs is the [fold_left] below. *)
Definition setAttr (node : obj) (kv : string) : obj :=
  let kv := JsString.split "=" kv in
  let key := match nth_error kv 0 with
             | Some k => k
             | None => "undefined"
             end in
  set_prop key (arr_get kv 1) node.

Definition setNhxAttrs (node : obj) (text : string) : obj :=
  if JsString.len text =? 0 then node
  else fold_left setAttr (JsString.split ":" text) node.

(** ** translateNode (source lines 228-246) *)

Definition nhx_marker : string := "[&&NHX:".

(** The properties a raw node has when [translateNode] reaches its
    [text]: the translated [branchset] and a [parent] that was not
    deleted, in the order of their creation. *)
Definition base_props (children : option (list obj)) (parent : option nat) : obj :=
  (match children with
   | Some l => [("branchset", VArr l)]
   | None => []
   end ++
   match parent with
   | Some p => [("parent", VRef p)]
   | None => []
   end)%list.

(** [translateText node text] is the body of the second [if] of
    [translateNode], after [delete node.text].  Where the marker occurs
    [parts] has two elements at least ([split_has_second]). *)
Definition translateText (node : obj) (text : string) : obj :=
  let text := JsString.replace_at_end "]" "" text in
  if negb (JsString.indexOf nhx_marker text =? -1) then
    let parts := JsString.split nhx_marker text in
    let node := setNameAndLength node (nth 0 parts "") in
    setNhxAttrs node (nth 1 parts "")
  else setNameAndLength node text.

(** The source's [foreach] over the children is the [map] below: each
    child is translated once, before the text of its parent. *)
Fixpoint translateNode (node : rawnode) : obj :=
  match node with
  | RawNode branchset parent text =>
      let children :=
        match branchset with
        | Some l => Some (map translateNode l)
        | None => None
        end in
      match text with
      | Some t => translateText (base_props children parent) t
      | None => base_props children parent
      end
  end.

(** ** parse (source lines 97-322) *)

(** [deleteParentAttr(undefined)] throws at [node.hasOwnProperty]. *)
Definition parse (str : string) : result obj :=
  let tmp := appendBoundaries str in
  do tmp <- tokenize tmp;
  match tmp with
  | None => TypeError
  | Some node => OK (translateNode (deleteParentAttr node))
  end.

(** ** Specification-side definitions *)

(** The normalizer as the specification words it: one pass in which a
    closing parenthesis gets a comma before it, a semicolon that is the
    last character becomes a comma, and any other character is kept. *)
Fixpoint normalizer_spec (s : string) : string :=
  match s with
  | EmptyString => EmptyString
  | String c s' =>
      (if Ascii.eqb c ")" then ",)"
       else if Ascii.eqb c ";" && String.eqb s' "" then ","
       else String c "") ++ normalizer_spec s'
  end.

(** [has_char c s]: the character [c] occurs in [s]. *)
Fixpoint has_char (c : ascii) (s : string) : bool :=
  match s with
  | EmptyString => false
  | String a s' => Ascii.eqb a c || has_char c s'
  end.

Fixpoint count_char (c : ascii) (s : string) : nat :=
  match s with
  | EmptyString => O
  | String a s' => ((if Ascii.eqb a c then 1 else 0) + count_char c s')%nat
  end.

(** The part of [s] before the first [c] (all of [s] when there is none). *)
Fixpoint before_char (c : ascii) (s : string) : string :=
  match s with
  | EmptyString => EmptyString
  | String a s' => if Ascii.eqb a c then EmptyString else String a (before_char c s')
  end.

(** The key of a tag pair: what stands before its first [=]. *)
Definition key_of (pair : string) : string := before_char "=" pair.











(** The text of a node that carries an NHX comment: label, marker, tag
    pairs joined by colons, closing bracket. *)
Definition nhx_text (label : string) (pairs : list string) : string :=
  label ++ nhx_marker ++ String.concat ":" pairs ++ "]".

(** ** Well-formed stores *)

Definition branchset_of (h : heap) (r : nat) : option (list nat) :=
  match nth_error h r with
  | Some c => c_branchset c
  | None => None
  end.

Definition parent_of (h : heap) (r : nat) : option nat :=
  match nth_error h r with
  | Some c => c_parent c
  | None => None
  end.

(** Children are younger than their parent and denote objects; a
    [parent] link denotes an object that has a [branchset]. *)
Record heap_wf (h : heap) : Prop := mkHeapWf {
  wf_children : forall r ids,
    branchset_of h r = Some ids ->
    Forall (fun k => (r < k < List.length h)%nat) ids;
  wf_parent : forall r p,
    parent_of h r = Some p -> branchset_of h p <> None
}.

Record state_wf (st : tstate) : Prop := mkStateWf {
  swf_heap : heap_wf (store st);
  swf_current : forall r, current st = Some r -> branchset_of (store st) r <> None;
  swf_prevNode : forall r, prevNode st = Some r -> (r < List.length (store st))%nat
}.

(** [ends_with c s]: the last character of [s] is [c]. *)
Fixpoint ends_with (c : ascii) (s : string) : bool :=
  match s with
  | EmptyString => false
  | String a EmptyString => Ascii.eqb a c
  | String _ s' => ends_with c s'
  end.

(** The last character, as [substr(-1, 1)] returns it. *)
Fixpoint last_str (s : string) : string :=
  match s with
  | EmptyString => EmptyString
  | String a EmptyString => s
  | String _ s' => last_str s'
  end.

(** An input that holds no parenthesis and no comma and does not end
    with the terminator: the tokenizer meets no entry boundary in it. *)
Definition no_boundary (s : string) : Prop :=
  has_char "(" s = false /\ has_char ")" s = false /\
  has_char "," s = false /\ ends_with ";" s = false.

(** ** Balanced inputs *)

(** The nesting depth after a character; [None] when a closing
    parenthesis has no open one to close. *)
Definition depth_step (d : nat) (c : ascii) : option nat :=
  if Ascii.eqb c "(" then Some (S d)
  else if Ascii.eqb c ")" then
    match d with
    | O => None
    | S d' => Some d'
    end
  else Some d.

Fixpoint paren_depth (d : nat) (s : string) : option nat :=
  match s with
  | EmptyString => Some d
  | String c s' =>
      match depth_step d c with
      | Some d' => paren_depth d' s'
      | None => None
      end
  end.

(** Every parenthesis of [s] is matched within [s]; as in the
    tokenizer, a parenthesis inside a comment counts like any other. *)
Definition balanced (s : string) : Prop := paren_depth 0 s = Some O.

Definition comment_step (b : bool) (c : ascii) : bool :=
  if Ascii.eqb c "[" then true
  else if Ascii.eqb c "]" then false
  else b.

(** Whether a comment is open after [s], when [b] tells it before. *)
Fixpoint in_comment (b : bool) (s : string) : bool :=
  match s with
  | EmptyString => b
  | String c s' => in_comment (comment_step b c) s'
  end.

(** [cell_ext c c']: the object kept its parent and its children and
    may have got more children. *)
Definition cell_ext (c c' : cell) : Prop :=
  (forall p, c_parent c = Some p -> c_parent c' = Some p) /\
  (forall ids, c_branchset c = Some ids ->
     exists more, c_branchset c' = Some (ids ++ more)%list).

Definition heap_ext (h h' : heap) : Prop :=
  forall r c, nth_error h r = Some c ->
    exists c', nth_error h' r = Some c' /\ cell_ext c c'.

(** [chain L h d c]: the node [c] lies [d] levels below the synthetic
    root, along nodes not older than [L], each of them an entry of its
    parent. *)
Fixpoint chain (L : nat) (h : heap) (d : nat) (c : nat) : Prop :=
  match d with
  | O => c = root
  | S d' =>
      (L <= c)%nat /\
      exists p ids,
        parent_of h c = Some p /\ branchset_of h p = Some ids /\
        In c ids /\ chain L h d' p
  end.

(** The invariant of the scan from a state at the synthetic root whose
    store was [h1], of size [L], and whose root held the entries [ids1]:
    the objects of [h1] other than the root are not touched any more. *)
Record scan_inv (L : nat) (ids1 : list nat) (h1 : heap) (str : string)
       (i : Z) (d : nat) (st : tstate) : Prop := mkScanInv {
  inv_wf : state_wf st;
  inv_len : (L <= List.length (store st))%nat;
  inv_frame : forall r, (0 < r < L)%nat -> nth_error (store st) r = nth_error h1 r;
  inv_root : exists extra, branchset_of (store st) root = Some (ids1 ++ extra)%list;
  inv_cur : exists c, current st = Some c /\ chain L (store st) d c;
  inv_tb : 0 <= textBegin st <= i;
  inv_prev :
    1 <= textBegin st ->
    String.get (Z.to_nat (textBegin st - 1)) str = Some ")"%char ->
    exists q c ids,
      prevNode st = Some q /\ (L <= q)%nat /\ current st = Some c /\
      branchset_of (store st) c = Some ids /\ In q ids
}.

(** ** Definitions for the further properties *)

(** A leaf as the tokenizer creates it: [{text: text}]. *)
Definition leaf (text : string) : rawnode := RawNode None None (Some text).

(** A label of one node: it holds no parenthesis and no comma, and a
    comment it opens is closed in it. *)
Definition label_ok (l : string) : Prop :=
  has_char "(" l = false /\ has_char ")" l = false /\
  has_char "," l = false /\ in_comment false l = false.

(** No reference into the tokenizer's store occurs in the value. *)
Fixpoint ref_free (v : value) : bool :=
  match v with
  | VRef _ => false
  | VArr l => forallb (fun o => forallb (fun kv => ref_free (snd kv)) o) l
  | _ => true
  end.

Definition obj_ref_free (o : obj) : bool := forallb (fun kv => ref_free (snd kv)) o.

(** No node of the tree has a [parent] property. *)
Fixpoint parent_free (n : rawnode) : bool :=
  match n with
  | RawNode branchset parent _ =>
      match parent with
      | Some _ => false
      | None =>
          match branchset with
          | Some l => forallb parent_free l
          | None => true
          end
      end
  end.

(** The leaves of the tree, which is how the tokenizer creates them,
    carry no [parent]. *)
Fixpoint leaves_orphan (n : rawnode) : bool :=
  match n with
  | RawNode None parent _ =>
      match parent with
      | Some _ => false
      | None => true
      end
  | RawNode (Some l) _ _ => forallb leaves_orphan l
  end.

(** All entries of all branchsets of the store. *)
Definition all_entries (h : heap) : list nat :=
  flat_map (fun c => match c_branchset c with
                     | Some ids => ids
                     | None => []
                     end) h.

(** [pdepth h d c]: [d] parent links lead from the object [c] to an
    object without parent. *)
Fixpoint pdepth (h : heap) (d : nat) (c : nat) : Prop :=
  match d with
  | O => (c < List.length h)%nat /\ parent_of h c = None
  | S d' => exists p, parent_of h c = Some p /\ pdepth h d' p
  end.

(** The text of the entries of one group, each followed by its comma. *)
Fixpoint entries_text (labels : list string) : string :=
  match labels with
  | [] => EmptyString
  | l :: ls => l ++ "," ++ entries_text ls
  end.

(** The store while the entries of the first group are scanned: the
    synthetic root, the group and the leaves read so far. *)
Definition flat_heap (text : option string) (done : list string) : heap :=
  mkCell (Some [1%nat]) None None
  :: mkCell (Some (seq 2 (List.length done))) (Some root) text
  :: map (fun l => mkCell None None (Some l)) done.

(** The shape of the store: an object is an entry at most once, the
    synthetic root is no entry, and an object that has a parent link has
    a branchset and is an entry of its parent. *)
Record store_tree (h : heap) : Prop := mkStoreTree {
  st_nodup : NoDup (all_entries h);
  st_range : Forall (fun x => (0 < x < List.length h)%nat) (all_entries h);
  st_parent : forall r p,
    parent_of h r = Some p ->
    branchset_of h r <> None /\
    exists ids, branchset_of h p = Some ids /\ In r ids
}.

(** ** Newick trees *)

(** A tree as the Newick text describes it: a leaf with its label, or a
    group of entries with its label. *)
Inductive tree : Type :=
| Leaf (label : string)
| Group (entries : list tree) (label : string).

(** The Newick text of a tree, without the terminator. *)
Fixpoint newick (t : tree) : string :=
  match t with
  | Leaf l => l
  | Group ts l => "(" ++ String.concat "," (map newick ts) ++ ")" ++ l
  end.

(** The text the tokenizer scans: each entry is followed by its comma. *)
Fixpoint normalized (t : tree) : string :=
  match t with
  | Leaf l => l
  | Group ts l => "(" ++ entries_text (map normalized ts) ++ ")" ++ l
  end.

(** The node of a tree before its text is translated. *)
Fixpoint raw_of (t : tree) : rawnode :=
  match t with
  | Leaf l => leaf l
  | Group ts l => RawNode (Some (map raw_of ts)) None (Some l)
  end.

(** The object of a tree: the children in the order of the text, then
    the properties read from the label. *)
Fixpoint object_of (t : tree) : obj :=
  match t with
  | Leaf l => translateText [] l
  | Group ts l => translateText [("branchset", VArr (map object_of ts))] l
  end.

(** Every label is the label of one node, and no group is empty. *)
Inductive tree_ok : tree -> Prop :=
| ok_leaf (l : string) : label_ok l -> tree_ok (Leaf l)
| ok_group (ts : list tree) (l : string) :
    ts <> [] -> Forall tree_ok ts -> label_ok l -> tree_ok (Group ts l).

(** [repr h lo t r]: the object [r] of the store and the objects below
    it, none of them older than [lo], are the nodes of [t]. *)
Inductive repr (h : heap) (lo : nat) : tree -> nat -> Prop :=
| repr_leaf (l : string) (r : nat) :
    (lo <= r)%nat ->
    nth_error h r = Some (mkCell None None (Some l)) ->
    repr h lo (Leaf l) r
| repr_group (ts : list tree) (l : string) (r : nat) (ids : list nat) (p : nat) :
    (lo <= r)%nat ->
    nth_error h r = Some (mkCell (Some ids) (Some p) (Some l)) ->
    Forall2 (repr h lo) ts ids ->
    repr h lo (Group ts l) r.

(** The scan of entries [ts] of the object [cur], from a state that has
    just passed an entry boundary: the nodes of the entries are appended
    to the branchset of [cur], and no older object changes. *)
Definition entries_scanned (body : string) (ts : list tree) : Prop :=
  forall (str pre post : string) (h : heap) (cur : nat) (c : cell)
         (ids : list nat) (pv : option nat),
    str = pre ++ body ++ post ->
    String.eqb (JsString.substr str (JsString.len pre - 1) 1) ")" = false ->
    nth_error h cur = Some c -> c_branchset c = Some ids ->
    exists (h' : heap) (rs : list nat) (pv' : option nat),
      loop str (JsString.len pre) body (mkState h (Some cur) (JsString.len pre) false pv)
      = OK (mkState h' (Some cur) (JsString.len pre + JsString.len body) false pv') /\
      Forall2 (repr h' (List.length h)) ts rs /\
      nth_error h' cur = Some (mkCell (Some (ids ++ rs)%list) (c_parent c) (c_text c)) /\
      (forall k, (k < List.length h)%nat -> k <> cur -> nth_error h' k = nth_error h k) /\
      (List.length h <= List.length h')%nat.

(** * Properties *)

(** ** Strings *)

Section StringFacts.

Lemma replace_at_end_cons (c a : ascii) (b s : string) :
  s <> "" ->
  JsString.replace_at_end c b (String a s)
  = String a (JsString.replace_at_end c b s).
Proof. destruct s; [now intros H; elim H | reflexivity]. Qed.

Lemma append_nil_r (s : string) : s ++ "" = s.
Proof. induction s as [|a s IH]; simpl; [reflexivity | now rewrite IH]. Qed.

Lemma append_assoc (a b c : string) : (a ++ b) ++ c = a ++ (b ++ c).
Proof. induction a as [|x a IH]; simpl; [reflexivity | now rewrite IH]. Qed.

Lemma length_append (a b : string) :
  String.length (a ++ b) = (String.length a + String.length b)%nat.
Proof. induction a as [|x a IH]; simpl; [reflexivity | now rewrite IH]. Qed.

Lemma has_char_append (c : ascii) (a b : string) :
  has_char c (a ++ b) = has_char c a || has_char c b.
Proof.
  induction a as [|x a IH]; simpl; [reflexivity|].
  now rewrite IH, orb_assoc.
Qed.

Lemma has_char_count (c : ascii) (s : string) :
  has_char c s = true -> (1 <= count_char c s)%nat.
Proof.
  induction s as [|a s IH]; simpl; [discriminate|].
  destruct (Ascii.eqb a c); simpl; intros H; [lia | specialize (IH H); lia].
Qed.

Lemma prefix_append (p s : string) : String.prefix p (p ++ s) = true.
Proof.
  induction p as [|a p IH]; simpl; [now destruct s|].
  destruct (ascii_dec a a) as [_|n]; [exact IH | now elim n].
Qed.

Lemma prefix_head_neq (c a : ascii) (p s : string) :
  Ascii.eqb a c = false -> String.prefix (String c p) (String a s) = false.
Proof.
  intros H; simpl.
  destruct (ascii_dec c a) as [e|_]; [|reflexivity].
  subst; now rewrite Ascii.eqb_refl in H.
Qed.

Lemma split_from_skip (sep p b : string) :
  JsString.split_from sep (String.length p) (p ++ b) = JsString.split_from sep O b.
Proof. induction p as [|a p IH]; simpl; [reflexivity | exact IH]. Qed.

Lemma split_from_plain (c : ascii) (sep' a : string) :
  has_char c a = false ->
  JsString.split_from (String c sep') O a = (a, []).
Proof.
  induction a as [|x a IH]; [reflexivity|].
  intros H. simpl in H. apply orb_false_iff in H as [Hx Ha].
  cbn [JsString.split_from]. rewrite (prefix_head_neq _ _ _ _ Hx).
  now rewrite (IH Ha).
Qed.

Lemma split_from_app (c : ascii) (sep' a b : string) :
  has_char c a = false ->
  JsString.split_from (String c sep') O (a ++ String c sep' ++ b)
  = (a, JsString.split (String c sep') b).
Proof.
  induction a as [|x a IH]; intros H.
  - change ("" ++ String c sep' ++ b) with (String c (sep' ++ b)).
    cbn [JsString.split_from].
    change (String c (sep' ++ b)) with (String c sep' ++ b).
    rewrite prefix_append.
    cbn [String.length Nat.pred]. rewrite split_from_skip.
    unfold JsString.split.
    now destruct (JsString.split_from (String c sep') O b).
  - simpl in H. apply orb_false_iff in H as [Hx Ha].
    change (String x a ++ String c sep' ++ b)
      with (String x (a ++ String c sep' ++ b)).
    cbn [JsString.split_from]. rewrite (prefix_head_neq _ _ _ _ Hx).
    now rewrite (IH Ha).
Qed.

Lemma split_plain (c : ascii) (sep' a : string) :
  has_char c a = false -> JsString.split (String c sep') a = [a].
Proof. intros H. unfold JsString.split. now rewrite split_from_plain. Qed.

Lemma split_app (c : ascii) (sep' a b : string) :
  has_char c a = false ->
  JsString.split (String c sep') (a ++ String c sep' ++ b)
  = a :: JsString.split (String c sep') b.
Proof.
  intros H. unfold JsString.split at 1. now rewrite split_from_app.
Qed.

Lemma split_concat (c : ascii) (l : list string) :
  l <> [] -> Forall (fun p => has_char c p = false) l ->
  JsString.split (String c "") (String.concat (String c "") l) = l.
Proof.
  induction l as [|x l IH]; [now intros H; elim H|].
  intros _ H. inversion H as [|? ? Hx Hl]; subst.
  destruct l as [|y l'].
  - simpl. now apply split_plain.
  - change (String.concat (String c "") (x :: y :: l'))
      with (x ++ String c "" ++ String.concat (String c "") (y :: l')).
    rewrite split_app by exact Hx.
    rewrite IH; [reflexivity | discriminate | exact Hl].
Qed.

Lemma split_head (c : ascii) (s : string) :
  exists tl, JsString.split (String c "") s = before_char c s :: tl.
Proof.
  unfold JsString.split.
  induction s as [|a s IH]; [now exists []|].
  cbn [JsString.split_from before_char].
  destruct (Ascii.eqb a c) eqn:E.
  - apply Ascii.eqb_eq in E. subst a.
    change (String c s) with (String c "" ++ s) at 1.
    rewrite prefix_append. cbn [String.length Nat.pred].
    destruct (JsString.split_from (String c "") O s) as [q qs].
    now exists (q :: qs).
  - rewrite (prefix_head_neq _ _ _ _ E).
    destruct IH as [tl IH].
    destruct (JsString.split_from (String c "") O s) as [q qs].
    inversion IH; subst. now exists tl.
Qed.

Lemma split_first_is_before_char (c : ascii) (s : string) :
  nth_error (JsString.split (String c "") s) 0 = Some (before_char c s).
Proof. destruct (split_head c s) as [tl E]. now rewrite E. Qed.

Lemma before_char_absent (c : ascii) (s : string) :
  has_char c s = false -> before_char c s = s.
Proof.
  induction s as [|a s IH]; [reflexivity|].
  simpl. intros H. apply orb_false_iff in H as [Ha Hs].
  now rewrite Ha, IH.
Qed.

Lemma has_char_concat (c d : ascii) (l : list string) :
  Ascii.eqb d c = false ->
  Forall (fun p => has_char c p = false) l ->
  has_char c (String.concat (String d "") l) = false.
Proof.
  intros Hd. induction l as [|x l IH]; intros H; [reflexivity|].
  inversion H as [|? ? Hx Hl]; subst.
  destruct l as [|y l']; [exact Hx|].
  change (String.concat (String d "") (x :: y :: l'))
    with (x ++ String d "" ++ String.concat (String d "") (y :: l')).
  rewrite !has_char_append, Hx, (IH Hl). simpl. now rewrite Hd.
Qed.

Lemma length_concat_mid (sep x : string) (l1 l2 : list string) :
  (String.length x <= String.length (String.concat sep (l1 ++ x :: l2)))%nat.
Proof.
  induction l1 as [|y l1 IH].
  - destruct l2 as [|z l2]; simpl; [lia|].
    rewrite length_append. lia.
  - change ((y :: l1) ++ x :: l2)%list with (y :: (l1 ++ x :: l2))%list.
    destruct (l1 ++ x :: l2)%list as [|z l] eqn:E.
    + now destruct l1.
    + change (String.concat sep (y :: z :: l))
        with (y ++ sep ++ String.concat sep (z :: l)).
      rewrite !length_append. lia.
Qed.

Lemma indexOf_lower (sep s : string) : -1 <= JsString.indexOf sep s.
Proof.
  induction s as [|a s IH]; cbn [JsString.indexOf].
  - destruct (String.prefix sep ""); lia.
  - destruct (String.prefix sep (String a s)); [lia|].
    destruct (JsString.indexOf sep s =? -1); lia.
Qed.

Lemma indexOf_found (sep a b : string) :
  (JsString.indexOf sep (a ++ sep ++ b) =? -1) = false.
Proof.
  induction a as [|x a IH].
  - change ("" ++ sep ++ b) with (sep ++ b).
    destruct (sep ++ b) eqn:E.
    + destruct sep; [reflexivity | discriminate].
    + cbn [JsString.indexOf]. rewrite <- E, prefix_append. reflexivity.
  - change (String x a ++ sep ++ b) with (String x (a ++ sep ++ b)).
    cbn [JsString.indexOf].
    destruct (String.prefix sep (String x (a ++ sep ++ b))); [reflexivity|].
    rewrite IH. apply Z.eqb_neq.
    pose proof (indexOf_lower sep (a ++ sep ++ b)).
    apply Z.eqb_neq in IH. lia.
Qed.


Lemma replace_at_end_last (c : ascii) (b s : string) :
  JsString.replace_at_end c b (s ++ String c "") = s ++ b.
Proof.
  induction s as [|a s IH].
  - simpl. now rewrite Ascii.eqb_refl.
  - change (String a s ++ String c "") with (String a (s ++ String c "")).
    rewrite replace_at_end_cons; [now rewrite IH|].
    now destruct s.
Qed.

Lemma split_has_second (c : ascii) (sep' s : string) :
  (JsString.indexOf (String c sep') s =? -1) = false ->
  exists p0 p1 ps, JsString.split (String c sep') s = p0 :: p1 :: ps.
Proof.
  unfold JsString.split. induction s as [|a s IH]; [discriminate|].
  cbn [JsString.indexOf JsString.split_from].
  destruct (String.prefix (String c sep') (String a s)).
  - intros _.
    destruct (JsString.split_from (String c sep') (Nat.pred _) s) as [q qs].
    now exists "", q, qs.
  - destruct (JsString.indexOf (String c sep') s =? -1) eqn:E; [discriminate|].
    intros _. destruct (IH eq_refl) as (p0 & p1 & ps & H).
    destruct (JsString.split_from (String c sep') O s) as [q qs].
    inversion H; subst. now exists (String a p0), p1, ps.
Qed.

End StringFacts.

(** ** The input normalizer *)

Section Normalizer.

Import JsString.

Lemma replace_all_empty (c : ascii) (x : ascii) (b s : string) :
  replace_all c (String x b) s = "" -> s = "".
Proof.
  destruct s as [|a s]; simpl; [reflexivity|].
  destruct (Ascii.eqb a c); discriminate.
Qed.

Lemma length_replace_all (c x y : ascii) (s : string) :
  String.length (replace_all c (String x (String y "")) s)
  = (String.length s + count_char c s)%nat.
Proof.
  induction s as [|a s IH]; simpl; [reflexivity|].
  destruct (Ascii.eqb a c); simpl; rewrite IH; lia.
Qed.

Lemma length_replace_at_end (c x : ascii) (s : string) :
  String.length (replace_at_end c (String x "") s) = String.length s.
Proof.
  induction s as [|a s IH]; [reflexivity|].
  destruct s as [|a' s']; [simpl; now destruct (Ascii.eqb a c)|].
  rewrite replace_at_end_cons by discriminate.
  change (S (String.length (replace_at_end c (String x "") (String a' s')))
          = S (String.length (String a' s'))).
  now rewrite IH.
Qed.

Lemma count_replace_all (c x : ascii) (s : string) :
  Ascii.eqb x c = false ->
  count_char c (replace_all c (String x (String c "")) s) = count_char c s.
Proof.
  intros Hx. induction s as [|a s IH]; simpl; [reflexivity|].
  destruct (Ascii.eqb a c) eqn:E; simpl.
  - rewrite Hx, Ascii.eqb_refl, IH. reflexivity.
  - rewrite E, IH. reflexivity.
Qed.

Lemma count_replace_at_end (c d x : ascii) (s : string) :
  Ascii.eqb d c = false -> Ascii.eqb x c = false ->
  count_char c (replace_at_end d (String x "") s) = count_char c s.
Proof.
  intros Hd Hx. induction s as [|a s IH]; [reflexivity|].
  destruct s as [|a' s'].
  - simpl. destruct (Ascii.eqb a d) eqn:E; simpl.
    + apply Ascii.eqb_eq in E; subst a. now rewrite Hx, Hd.
    + reflexivity.
  - rewrite replace_at_end_cons by discriminate.
    remember (String a' s') as t.
    simpl. now rewrite IH.
Qed.

Lemma length_appendBoundaries (s : string) :
  String.length (appendBoundaries s) = (String.length s + count_char ")" s)%nat.
Proof.
  unfold appendBoundaries.
  now rewrite length_replace_at_end, length_replace_all.
Qed.

Lemma count_appendBoundaries (s : string) :
  count_char ")" (appendBoundaries s) = count_char ")" s.
Proof.
  unfold appendBoundaries.
  rewrite count_replace_at_end by reflexivity.
  now apply count_replace_all.
Qed.

End Normalizer.

(** ** Property lists *)

Section Props.

Lemma get_own_same (k : string) (v : value) (o : obj) :
  get_prop k (set_own k v o) = Some v.
Proof.
  induction o as [|[k' v'] o IH]; simpl.
  - now rewrite String.eqb_refl.
  - destruct (String.eqb k' k) eqn:E; simpl.
    + now rewrite String.eqb_refl.
    + now rewrite E.
Qed.

Lemma get_own_other (k k' : string) (v : value) (o : obj) :
  k' <> k -> get_prop k (set_own k' v o) = get_prop k o.
Proof.
  intros Hk. apply String.eqb_neq in Hk.
  induction o as [|[k0 v0] o IH]; simpl.
  - now rewrite Hk.
  - destruct (String.eqb k0 k') eqn:E; simpl.
    + apply String.eqb_eq in E. subst k0. now rewrite Hk.
    + now rewrite IH.
Qed.

Lemma set_prop_own (k : string) (v : value) (o : obj) :
  k <> "__proto__" -> set_prop k v o = set_own k v o.
Proof.
  intros H. unfold set_prop. apply String.eqb_neq in H. now rewrite H.
Qed.

Lemma set_prop_proto (v : value) (o : obj) : set_prop "__proto__" v o = o.
Proof. reflexivity. Qed.

Lemma get_set_same (k : string) (v : value) (o : obj) :
  k <> "__proto__" -> get_prop k (set_prop k v o) = Some v.
Proof. intros H. rewrite set_prop_own by exact H. apply get_own_same. Qed.

Lemma get_set_other (k k' : string) (v : value) (o : obj) :
  k' <> k -> get_prop k (set_prop k' v o) = get_prop k o.
Proof.
  intros Hk. unfold set_prop.
  destruct (String.eqb k' "__proto__"); [reflexivity | now apply get_own_other].
Qed.

End Props.

(** ** Tags *)

Section Tags.

Lemma setAttr_key (node : obj) (pair : string) :
  exists v, setAttr node pair = set_prop (key_of pair) v node.
Proof.
  unfold setAttr, key_of.
  destruct (split_head "=" pair) as [tl E]. rewrite E. simpl.
  now eexists.
Qed.

Lemma setAttr_no_equals (node : obj) (pair : string) :
  has_char "=" pair = false -> setAttr node pair = set_prop pair VUndef node.
Proof.
  intros H. unfold setAttr. now rewrite split_plain.
Qed.

Lemma setAttr_pair (node : obj) (k v : string) :
  has_char "=" k = false -> has_char "=" v = false ->
  setAttr node (k ++ "=" ++ v) = set_prop k (VStr v) node.
Proof.
  intros Hk Hv. unfold setAttr.
  rewrite split_app by exact Hk. now rewrite split_plain.
Qed.

Lemma setAttr_pair_more (node : obj) (k v w : string) :
  has_char "=" k = false -> has_char "=" v = false ->
  setAttr node (k ++ "=" ++ v ++ "=" ++ w) = set_prop k (VStr v) node.
Proof.
  intros Hk Hv. unfold setAttr.
  rewrite split_app by exact Hk. now rewrite split_app.
Qed.

(** The stored value is the text between the first and the second
    equals sign of the pair. *)
Lemma setAttr_value (node : obj) (k v : string) :
  has_char "=" k = false ->
  setAttr node (k ++ "=" ++ v) = set_prop k (VStr (before_char "=" v)) node.
Proof.
  intros Hk. unfold setAttr.
  rewrite split_app by exact Hk.
  destruct (split_head "=" v) as [tl E]. now rewrite E.
Qed.

(** A pair whose key is [__proto__] leaves the node as it is. *)
Lemma setAttr_proto (node : obj) (pair : string) :
  key_of pair = "__proto__" -> setAttr node pair = node.
Proof.
  intros H. destruct (setAttr_key node pair) as [v E].
  now rewrite E, H, set_prop_proto.
Qed.

Lemma get_setAttr_other (node : obj) (pair k : string) :
  key_of pair <> k -> get_prop k (setAttr node pair) = get_prop k node.
Proof.
  intros H. destruct (setAttr_key node pair) as [v E]. rewrite E.
  now apply get_set_other.
Qed.

Lemma get_fold_setAttr_other (k : string) (l : list string) (node : obj) :
  Forall (fun p => key_of p <> k) l ->
  get_prop k (fold_left setAttr l node) = get_prop k node.
Proof.
  revert node. induction l as [|p l IH]; intros node H; [reflexivity|].
  inversion H; subst. simpl. rewrite IH by assumption.
  now apply get_setAttr_other.
Qed.

(** A stored tag value is never a Number that was not there before. *)
Lemma setAttr_stores_no_number (node : obj) (pair k : string) (n : jsnum) :
  get_prop k (setAttr node pair) = Some (VNum n) ->
  get_prop k node = Some (VNum n).
Proof.
  unfold setAttr.
  set (key := match nth_error (JsString.split "=" pair) 0 with
              | Some k0 => k0 | None => "undefined" end).
  destruct (String.eqb key k) eqn:E.
  - apply String.eqb_eq in E. rewrite E.
    destruct (String.eqb k "__proto__") eqn:P.
    + apply String.eqb_eq in P. rewrite P. now rewrite set_prop_proto.
    + apply String.eqb_neq in P. rewrite get_set_same by exact P.
      unfold arr_get. destruct (nth_error _ 1); discriminate.
  - apply String.eqb_neq in E. now rewrite get_set_other.
Qed.

Lemma setNhxAttrs_pairs (node : obj) (l : list string) :
  Forall (fun p => has_char ":" p = false) l ->
  String.concat ":" l <> "" ->
  setNhxAttrs node (String.concat ":" l) = fold_left setAttr l node.
Proof.
  intros Hl Hne. unfold setNhxAttrs.
  destruct (String.concat ":" l) eqn:E; [now elim Hne|].
  rewrite <- E. unfold JsString.len.
  replace (Z.of_nat (String.length (String.concat ":" l)) =? 0) with false
    by (rewrite E; reflexivity).
  rewrite split_concat; [reflexivity | | exact Hl].
  intros ->. discriminate.
Qed.

Lemma translateText_nhx (node : obj) (label : string) (pairs : list string) :
  has_char "[" label = false ->
  Forall (fun p => has_char ":" p = false /\ has_char "[" p = false) pairs ->
  String.concat ":" pairs <> "" ->
  translateText node (nhx_text label pairs)
  = fold_left setAttr pairs (setNameAndLength node label).
Proof.
  intros Hl Hp Hne. unfold translateText, nhx_text.
  assert (Hc : Forall (fun p => has_char ":" p = false) pairs)
    by (eapply Forall_impl; [|exact Hp]; now intros ? [? _]).
  assert (Hb : has_char "[" (String.concat ":" pairs) = false).
  { apply has_char_concat; [reflexivity|].
    eapply Forall_impl; [|exact Hp]. now intros ? [_ ?]. }
  replace (label ++ nhx_marker ++ String.concat ":" pairs ++ "]")
    with ((label ++ nhx_marker ++ String.concat ":" pairs) ++ "]")
    by now rewrite !append_assoc.
  rewrite replace_at_end_last, append_nil_r.
  rewrite indexOf_found. cbn [negb].
  unfold nhx_marker.
  rewrite split_app by exact Hl.
  rewrite split_plain by exact Hb.
  cbn [nth]. now apply setNhxAttrs_pairs.
Qed.

Lemma translateText_tag_value
      (node : obj) (label : string) (before after : list string) (k v : string) :
  has_char "[" label = false ->
  Forall (fun p => has_char ":" p = false /\ has_char "[" p = false)
         (before ++ (k ++ "=" ++ v) :: after) ->
  k <> "__proto__" -> has_char "=" k = false ->
  Forall (fun p => key_of p <> k) after ->
  get_prop k (translateText node (nhx_text label (before ++ (k ++ "=" ++ v) :: after)))
  = Some (VStr (before_char "=" v)).
Proof.
  intros Hl Hp Hn Hk Ha.
  rewrite translateText_nhx; [| exact Hl | exact Hp |].
  - rewrite fold_left_app. cbn [fold_left].
    rewrite get_fold_setAttr_other by exact Ha.
    rewrite setAttr_value by assumption.
    now apply get_set_same.
  - intros E.
    pose proof (length_concat_mid ":" (k ++ "=" ++ v) before after) as L.
    rewrite E, length_append in L. simpl in L. lia.
Qed.

End Tags.

(** ** Branch lengths *)

Section Lengths.

Import ParseFloat.















Lemma setNameAndLength_colon (node : obj) (name rest : string) :
  has_char ":" name = false ->
  setNameAndLength node (name ++ ":" ++ rest)
  = set_prop "length" (VNum (parseFloat (before_char ":" rest)))
      (set_prop "name" (VStr name) node).
Proof.
  intros Hn. unfold setNameAndLength.
  rewrite indexOf_found. cbn [negb].
  rewrite split_app by exact Hn.
  destruct (split_head ":" rest) as [tl E]. rewrite E.
  reflexivity.
Qed.










End Lengths.

(** ** The object store *)

Section Store.

Lemma length_update (h : heap) (r : nat) (f : cell -> cell) :
  List.length (update h r f) = List.length h.
Proof.
  revert r. induction h as [|c h IH]; intros [|r]; simpl; auto.
Qed.

Lemma nth_error_update_same (h : heap) (r : nat) (f : cell -> cell) :
  nth_error (update h r f) r = option_map f (nth_error h r).
Proof.
  revert r. induction h as [|c h IH]; intros [|r]; simpl; auto.
Qed.

Lemma nth_error_update_other (h : heap) (r r' : nat) (f : cell -> cell) :
  r <> r' -> nth_error (update h r f) r' = nth_error h r'.
Proof.
  revert r r'. induction h as [|c h IH]; intros [|r] [|r'] H; simpl;
    try reflexivity.
  - now elim H.
  - apply IH. intros E. apply H. now f_equal.
Qed.

Lemma nth_error_alloc_old (h : heap) (c : cell) (r : nat) :
  (r < List.length h)%nat -> nth_error (h ++ [c]) r = nth_error h r.
Proof. intros H. now apply nth_error_app1. Qed.

Lemma nth_error_alloc_new (h : heap) (c : cell) :
  nth_error (h ++ [c]) (List.length h) = Some c.
Proof. rewrite nth_error_app2, Nat.sub_diag by lia. reflexivity. Qed.

Lemma branchset_of_valid (h : heap) (r : nat) :
  branchset_of h r <> None -> (r < List.length h)%nat.
Proof.
  unfold branchset_of. intros H. apply nth_error_Some.
  destruct (nth_error h r); [discriminate | now elim H].
Qed.

(** An update that keeps the shape of the store well formed. *)
Lemma update_wf (h : heap) (r : nat) (f : cell -> cell) :
  heap_wf h ->
  (forall c, nth_error h r = Some c ->
     (c_branchset c <> None -> c_branchset (f c) <> None) /\
     (forall ids, c_branchset (f c) = Some ids ->
        Forall (fun k => (r < k < List.length h)%nat) ids) /\
     (forall p, c_parent (f c) = Some p -> branchset_of h p <> None)) ->
  heap_wf (update h r f) /\
  (forall x, branchset_of h x <> None -> branchset_of (update h r f) x <> None).
Proof.
  intros [Hch Hpa] Hf.
  assert (Keep : forall x, branchset_of h x <> None ->
                           branchset_of (update h r f) x <> None).
  { intros x Hx. unfold branchset_of in *.
    destruct (Nat.eq_dec r x) as [->|Hne].
    - rewrite nth_error_update_same.
      destruct (nth_error h x) as [c|] eqn:E; [|now elim Hx].
      simpl. now apply (Hf c eq_refl).
    - now rewrite nth_error_update_other. }
  split; [|exact Keep].
  split.
  - intros x ids Hx. rewrite length_update.
    unfold branchset_of in Hx.
    destruct (Nat.eq_dec r x) as [->|Hne].
    + rewrite nth_error_update_same in Hx.
      destruct (nth_error h x) as [c|] eqn:E; [|discriminate].
      simpl in Hx. now apply (Hf c eq_refl).
    + rewrite nth_error_update_other in Hx by exact Hne.
      now apply Hch.
  - intros x p Hx. apply Keep.
    unfold parent_of in Hx.
    destruct (Nat.eq_dec r x) as [->|Hne].
    + rewrite nth_error_update_same in Hx.
      destruct (nth_error h x) as [c|] eqn:E; [|discriminate].
      simpl in Hx. now apply (Hf c eq_refl).
    + rewrite nth_error_update_other in Hx by exact Hne.
      now apply (Hpa x).
Qed.

(** Allocation of an object without children and without parent. *)
Lemma alloc_wf (h : heap) (bs : option (list nat)) (t : option string) :
  heap_wf h -> (bs = None \/ bs = Some []) ->
  heap_wf (h ++ [mkCell bs None t])%list /\
  (forall x, branchset_of h x <> None ->
             branchset_of (h ++ [mkCell bs None t])%list x <> None).
Proof.
  intros [Hch Hpa] Hbs.
  assert (Keep : forall x, branchset_of h x <> None ->
                 branchset_of (h ++ [mkCell bs None t])%list x <> None).
  { intros x Hx. pose proof (branchset_of_valid _ _ Hx) as Hv.
    unfold branchset_of in *. now rewrite nth_error_alloc_old. }
  split; [|exact Keep].
  split.
  - intros x ids Hx. rewrite length_app. simpl.
    unfold branchset_of in Hx.
    destruct (Nat.lt_ge_cases x (List.length h)) as [Hlt|Hge].
    + rewrite nth_error_alloc_old in Hx by exact Hlt.
      eapply Forall_impl; [|apply (Hch x ids Hx)].
      simpl. intros; lia.
    + destruct (Nat.eq_dec x (List.length h)) as [->|Hne].
      * rewrite nth_error_alloc_new in Hx. simpl in Hx.
        destruct Hbs as [->| ->]; [discriminate|].
        inversion Hx. constructor.
      * rewrite (proj2 (nth_error_None _ _)) in Hx; [discriminate|].
        rewrite length_app. simpl. lia.
  - intros x p Hx. apply Keep. unfold parent_of in Hx.
    destruct (Nat.lt_ge_cases x (List.length h)) as [Hlt|Hge].
    + rewrite nth_error_alloc_old in Hx by exact Hlt. now apply (Hpa x).
    + destruct (Nat.eq_dec x (List.length h)) as [->|Hne].
      * rewrite nth_error_alloc_new in Hx. discriminate.
      * rewrite (proj2 (nth_error_None _ _)) in Hx; [discriminate|].
        rewrite length_app. simpl. lia.
Qed.

Lemma push_branchset_wf (h : heap) (p x : nat) :
  heap_wf h -> branchset_of h p <> None -> (p < x < List.length h)%nat ->
  exists h', push_branchset h (Some p) x = OK h' /\
             heap_wf h' /\ List.length h' = List.length h /\
             (forall y, branchset_of h y <> None -> branchset_of h' y <> None).
Proof.
  intros Hwf Hp Hx. unfold push_branchset.
  pose proof Hp as Hp'. unfold branchset_of in Hp'.
  destruct (nth_error h p) as [c|] eqn:E; [|now elim Hp'].
  destruct (c_branchset c) as [ids|] eqn:Eb; [|now elim Hp'].
  eexists. split; [reflexivity|].
  destruct (update_wf h p
              (fun c0 => mkCell (Some (ids ++ [x])%list) (c_parent c0) (c_text c0)) Hwf)
    as [W K];
    [|split; [exact W | split; [apply length_update | exact K]]].
  intros c0 E0. rewrite E in E0. inversion E0; subst c0. simpl.
  split; [discriminate|]. split.
  - intros ids' Hi. inversion Hi; subst ids'.
    apply Forall_app. split.
    + apply (wf_children h Hwf p). unfold branchset_of. now rewrite E.
    + constructor; [exact Hx | constructor].
  - intros q Hq. apply (wf_parent h Hwf p). unfold parent_of. now rewrite E.
Qed.

Lemma assign_text_wf (h : heap) (r : nat) (t : string) :
  heap_wf h -> (r < List.length h)%nat ->
  exists h', assign_text h (Some r) t = OK h' /\
             heap_wf h' /\ List.length h' = List.length h /\
             (forall y, branchset_of h y <> None -> branchset_of h' y <> None).
Proof.
  intros Hwf Hr. unfold assign_text.
  destruct (nth_error h r) as [c|] eqn:E;
    [|apply nth_error_None in E; lia].
  eexists. split; [reflexivity|].
  destruct (update_wf h r
              (fun c0 => mkCell (c_branchset c0) (c_parent c0) (Some t)) Hwf)
    as [W K];
    [|split; [exact W | split; [apply length_update | exact K]]].
  intros c0 E0. simpl. split; [auto|]. split.
  - intros ids Hi. apply (wf_children h Hwf r).
    unfold branchset_of. now rewrite E0.
  - intros q Hq. apply (wf_parent h Hwf r). unfold parent_of. now rewrite E0.
Qed.

Lemma set_parent_wf (h : heap) (r p : nat) :
  heap_wf h -> branchset_of h p <> None ->
  heap_wf (update h r (fun c => mkCell (c_branchset c) (Some p) (c_text c))) /\
  (forall y, branchset_of h y <> None ->
     branchset_of (update h r (fun c => mkCell (c_branchset c) (Some p) (c_text c))) y
     <> None).
Proof.
  intros Hwf Hp. apply update_wf; [exact Hwf|].
  intros c E. simpl. split; [auto|]. split.
  - intros ids Hi. apply (wf_children h Hwf r).
    unfold branchset_of. now rewrite E.
  - intros q Hq. inversion Hq; subst q. exact Hp.
Qed.

Lemma init_state_wf : state_wf init_state.
Proof.
  split; simpl.
  - split.
    + intros [|[|r]] ids H; inversion H. constructor.
    + intros [|[|r]] p H; inversion H.
  - intros r H. inversion H. discriminate.
  - intros r H. discriminate.
Qed.

(** A step from a well-formed state ends in a well-formed state or
    throws; the store never lacks an object the step refers to. *)
Lemma step_wf (str : string) (i : Z) (char : ascii) (st : tstate) :
  state_wf st ->
  match step str i char st with
  | OK st' => state_wf st'
  | TypeError => True
  | Stuck => False
  end.
Proof.
  intros [Hwf Hcur Hprev]. unfold step.
  destruct (Ascii.eqb char "(").
  { (* a new node below the current one *)
    unfold alloc.
    destruct (current st) as [p|] eqn:Ec; [|exact I].
    specialize (Hcur p eq_refl).
    destruct (alloc_wf (store st) (Some []) None Hwf (or_intror eq_refl))
      as [W1 K1].
    destruct (push_branchset_wf _ p (List.length (store st)) W1 (K1 _ Hcur))
      as (h2 & E2 & W2 & L2 & K2).
    { pose proof (branchset_of_valid _ _ Hcur).
      rewrite length_app. simpl. lia. }
    rewrite E2. cbn [bind].
    destruct (set_parent_wf h2 (List.length (store st)) p W2 (K2 _ (K1 _ Hcur)))
      as [W3 K3].
    split; cbn [store current prevNode].
    - exact W3.
    - intros r Hr. inversion Hr; subst r.
      apply K3, K2. unfold branchset_of.
      rewrite nth_error_alloc_new. discriminate.
    - intros r Hr. specialize (Hprev r Hr).
      rewrite length_update, L2, length_app. simpl. lia. }
  destruct (Ascii.eqb char ")").
  { (* back to the parent *)
    unfold read_parent.
    destruct (current st) as [c|] eqn:Ec; [|exact I].
    specialize (Hcur c eq_refl).
    pose proof (branchset_of_valid _ _ Hcur) as Hv.
    destruct (nth_error (store st) c) as [cl|] eqn:E;
      [|apply nth_error_None in E; lia].
    cbn [bind]. split; cbn [store current prevNode].
    - exact Hwf.
    - intros r Hr. apply (wf_parent _ Hwf c).
      unfold parent_of. now rewrite E.
    - intros r Hr. inversion Hr; subst r. exact Hv. }
  destruct (Ascii.eqb char ",").
  { destruct (inNhxAttr st); [now split|].
    destruct (String.eqb _ ")").
    - (* the text of the node closed last *)
      destruct (prevNode st) as [q|] eqn:Eq; [|exact I].
      destruct (assign_text_wf (store st) q
                  (JsString.substr str (textBegin st) (i - textBegin st))
                  Hwf (Hprev q eq_refl))
        as (h1 & E1 & W1 & L1 & K1).
      rewrite E1. cbn [bind]. split; cbn [store current prevNode].
      + exact W1.
      + intros r Hr. apply K1, Hcur, Hr.
      + intros r Hr. rewrite L1. now apply Hprev.
    - (* a new leaf of the current node *)
      unfold alloc.
      destruct (current st) as [p|] eqn:Ec; [|exact I].
      specialize (Hcur p eq_refl).
      destruct (alloc_wf (store st) None
                  (Some (JsString.substr str (textBegin st) (i - textBegin st)))
                  Hwf (or_introl eq_refl))
        as [W1 K1].
      destruct (push_branchset_wf _ p (List.length (store st)) W1 (K1 _ Hcur))
        as (h2 & E2 & W2 & L2 & K2).
      { pose proof (branchset_of_valid _ _ Hcur).
        rewrite length_app. simpl. lia. }
      rewrite E2. cbn [bind]. split; cbn [store current prevNode].
      + exact W2.
      + intros r Hr. inversion Hr; subst r. apply K2, K1, Hcur.
      + intros r Hr. specialize (Hprev r Hr).
        rewrite L2, length_app. simpl. lia. }
  destruct (Ascii.eqb char "["); [now split|].
  destruct (Ascii.eqb char "]"); now split.
Qed.

Lemma loop_wf (str : string) (rest : string) (i : Z) (st : tstate) :
  state_wf st ->
  match loop str i rest st with
  | OK st' => state_wf st'
  | TypeError => True
  | Stuck => False
  end.
Proof.
  revert i st. induction rest as [|char rest IH]; intros i st Hst; [exact Hst|].
  cbn [loop]. pose proof (step_wf str i char st Hst) as Hs.
  destruct (step str i char st) as [st'| |]; cbn [bind]; [now apply IH | exact I | exact Hs].
Qed.

Lemma scan_wf (str : string) (st : tstate) : scan str = OK st -> state_wf st.
Proof.
  intros E. pose proof (loop_wf str str 0 init_state init_state_wf) as H.
  unfold scan in E. now rewrite E in H.
Qed.

Lemma reify_list_total (f : nat -> option rawnode) (ids : list nat) :
  Forall (fun k => f k <> None) ids -> reify_list f ids <> None.
Proof.
  induction ids as [|k ids IH]; intros H; [discriminate|].
  inversion H as [|? ? Hk Hi]; subst. simpl.
  destruct (f k); [|now elim Hk].
  specialize (IH Hi). destruct (reify_list f ids); [discriminate | now elim IH].
Qed.

(** The objects of a well-formed store form trees: with the size of
    the store as fuel, reading a tree out of it succeeds. *)
Lemma reify_total (h : heap) (fuel r : nat) :
  heap_wf h -> (r < List.length h)%nat -> (List.length h - r <= fuel)%nat ->
  reify fuel h r <> None.
Proof.
  intros Hwf. revert r. induction fuel as [|fuel IH]; intros r Hr Hf; [lia|].
  cbn [reify].
  destruct (nth_error h r) as [c|] eqn:E; [|apply nth_error_None in E; lia].
  destruct (c_branchset c) as [ids|] eqn:Eb; [|discriminate].
  assert (T : reify_list (reify fuel h) ids <> None).
  { apply reify_list_total.
    eapply Forall_impl; [|apply (wf_children h Hwf r ids)].
    - intros k Hk. cbv beta in Hk. apply IH; lia.
    - unfold branchset_of. now rewrite E. }
  destruct (reify_list (reify fuel h) ids); [discriminate | now elim T].
Qed.

Lemma first_entry_not_stuck (st : tstate) :
  state_wf st -> first_entry st <> Stuck.
Proof.
  intros [Hwf Hcur _]. unfold first_entry.
  destruct (current st) as [c|] eqn:Ec; [|discriminate].
  specialize (Hcur c eq_refl).
  pose proof (wf_children _ Hwf c) as Hch.
  unfold branchset_of in Hcur, Hch.
  destruct (nth_error (store st) c) as [cl|]; [|now elim Hcur].
  destruct (c_branchset cl) as [[|r ids]|]; try discriminate.
  specialize (Hch _ eq_refl). inversion Hch as [|? ? Hr _]; subst.
  pose proof (reify_total (store st) (List.length (store st)) r Hwf) as T.
  destruct (reify _ _ r); [discriminate|].
  elim T; [lia | lia | reflexivity].
Qed.

Lemma tokenize_never_stuck (str : string) : tokenize str <> Stuck.
Proof.
  unfold tokenize.
  pose proof (loop_wf str str 0 init_state init_state_wf) as H.
  fold (scan str) in H.
  destruct (scan str) as [st| |]; cbn [bind];
    [now apply first_entry_not_stuck | discriminate | now elim H].
Qed.

Lemma parse_never_stuck (str : string) : parse str <> Stuck.
Proof.
  unfold parse.
  pose proof (tokenize_never_stuck (appendBoundaries str)) as H.
  destruct (tokenize (appendBoundaries str)) as [[n|]| |]; cbn [bind];
    try discriminate. now elim H.
Qed.

End Store.

(** ** Inputs without entry boundary *)

Section NoBoundary.

Lemma replace_all_absent (c : ascii) (b s : string) :
  has_char c s = false -> JsString.replace_all c b s = s.
Proof.
  induction s as [|a s IH]; [reflexivity|].
  simpl. intros H. apply orb_false_iff in H as [Ha Hs].
  now rewrite Ha, IH.
Qed.

Lemma replace_at_end_absent (c : ascii) (b s : string) :
  ends_with c s = false -> JsString.replace_at_end c b s = s.
Proof.
  induction s as [|a s IH]; [reflexivity|].
  destruct s as [|a' s'].
  - simpl. now intros ->.
  - intros H. rewrite replace_at_end_cons by discriminate.
    now rewrite IH.
Qed.

Lemma appendBoundaries_no_boundary (s : string) :
  no_boundary s -> appendBoundaries s = s.
Proof.
  intros (_ & Hc & _ & He). unfold appendBoundaries.
  rewrite replace_all_absent by exact Hc.
  now apply replace_at_end_absent.
Qed.

Lemma loop_no_boundary (str rest : string) (i : Z) (st : tstate) :
  has_char "(" rest = false -> has_char ")" rest = false ->
  has_char "," rest = false ->
  exists st', loop str i rest st = OK st' /\
              store st' = store st /\ current st' = current st.
Proof.
  revert i st. induction rest as [|c rest IH]; intros i st Ho Hc Hm.
  - now exists st.
  - simpl in Ho, Hc, Hm.
    apply orb_false_iff in Ho as [Ho Ho'].
    apply orb_false_iff in Hc as [Hc Hc'].
    apply orb_false_iff in Hm as [Hm Hm'].
    cbn [loop]. unfold step. rewrite Ho, Hc, Hm.
    destruct (Ascii.eqb c "["); [|destruct (Ascii.eqb c "]")]; cbn [bind];
      (edestruct IH as (st' & E & Hs & Hu); [eassumption..|];
       exists st'; split; [exact E | split; [exact Hs | exact Hu]]).
Qed.

(** Inside a comment the scan changes nothing until the comment is
    closed or a parenthesis is met: its commas are no boundaries. *)
Lemma loop_inside_comment (str s : string) (i : Z) (st : tstate) :
  inNhxAttr st = true ->
  has_char "(" s = false -> has_char ")" s = false -> has_char "]" s = false ->
  loop str i s st = OK st.
Proof.
  intros Hn. revert i. induction s as [|c s IH]; intros i Ho Hc Hb; [reflexivity|].
  simpl in Ho, Hc, Hb.
  apply orb_false_iff in Ho as [Ho Ho'].
  apply orb_false_iff in Hc as [Hc Hc'].
  apply orb_false_iff in Hb as [Hb Hb'].
  assert (E : step str i c st = OK st).
  { unfold step. rewrite Ho, Hc, Hn, Hb.
    destruct (Ascii.eqb c ","); [reflexivity|].
    destruct (Ascii.eqb c "["); [|reflexivity].
    destruct st as [h cu tb nx pn]. cbn in Hn |- *. now subst nx. }
  cbn [loop]. rewrite E. cbn [bind]. now apply IH.
Qed.


End NoBoundary.

(** ** The result of [parse] *)

Section Result.

(** [parse] returns the translation of the first entry of the context
    in which the scan ends. *)
Lemma parse_first_entry
      (s : string) (st : tstate) (c e : nat) (others : list nat) :
  scan (appendBoundaries s) = OK st ->
  current st = Some c ->
  branchset_of (store st) c = Some (e :: others) ->
  exists n,
    reify (List.length (store st)) (store st) e = Some n /\
    parse s = OK (translateNode (deleteParentAttr n)).
Proof.
  intros Hscan Hcur Hc.
  pose proof (scan_wf _ _ Hscan) as [Hwf _ _].
  pose proof (wf_children _ Hwf c _ Hc) as Hch.
  inversion Hch as [|? ? He _]; subst.
  pose proof (reify_total (store st) (List.length (store st)) e Hwf) as T.
  destruct (reify (List.length (store st)) (store st) e) as [n|] eqn:E;
    [|elim T; [lia | lia | reflexivity]].
  exists n. split; [reflexivity|].
  unfold parse, tokenize. rewrite Hscan. cbn [bind].
  unfold first_entry. rewrite Hcur.
  unfold branchset_of in Hc.
  destruct (nth_error (store st) c) as [cl|]; [|discriminate].
  rewrite Hc, E. reflexivity.
Qed.

Lemma tokenize_no_boundary (s : string) :
  no_boundary s -> tokenize (appendBoundaries s) = OK None.
Proof.
  intros H. rewrite (appendBoundaries_no_boundary s H).
  destruct H as (Ho & Hc & Hm & _).
  destruct (loop_no_boundary s s 0 init_state Ho Hc Hm) as (st & E & Hs & Hu).
  unfold tokenize, scan. rewrite E. cbn [bind].
  unfold first_entry. rewrite Hu, Hs. reflexivity.
Qed.

End Result.

(** ** Positions in the input *)

Section Positions.

Lemma get_append_here (pre rest : string) (c : ascii) :
  String.get (String.length pre) (pre ++ String c rest) = Some c.
Proof. induction pre as [|a pre IH]; [reflexivity | exact IH]. Qed.

Lemma get_valid (n : nat) (s : string) (c : ascii) :
  String.get n s = Some c -> (n < String.length s)%nat.
Proof.
  revert n. induction s as [|a s IH]; intros [|n] H; simpl in *;
    try discriminate; try lia.
  specialize (IH n H). lia.
Qed.

Lemma get_some (n : nat) (s : string) :
  (n < String.length s)%nat -> exists c, String.get n s = Some c.
Proof.
  revert n. induction s as [|a s IH]; intros [|n] H; simpl in *; try lia.
  - now exists a.
  - apply IH. lia.
Qed.

Lemma substring_one (n : nat) (s : string) (c : ascii) :
  String.get n s = Some c -> String.substring n 1 s = String c "".
Proof.
  revert n. induction s as [|a s IH]; intros [|n] H; simpl in *;
    try discriminate.
  - inversion H; subst. now destruct s.
  - now apply IH.
Qed.

Lemma substring_append_left (n m : nat) (p x : string) :
  (n + m <= String.length p)%nat ->
  String.substring n m (p ++ x) = String.substring n m p.
Proof.
  revert n m. induction p as [|a p IH]; intros n m H; simpl in H.
  - assert (n = O) by lia. assert (m = O) by lia. subst.
    simpl. now destruct x.
  - destruct n as [|n].
    + destruct m as [|m]; [reflexivity|].
      simpl. f_equal. apply IH. lia.
    + simpl. apply IH. lia.
Qed.

Lemma substring_last (s : string) :
  String.substring (String.length s - 1) 1 s = last_str s.
Proof.
  induction s as [|a s IH]; [reflexivity|].
  destruct s as [|b s']; [reflexivity|].
  change (String.length (String a (String b s')) - 1)%nat
    with (S (String.length s')).
  change (last_str (String a (String b s'))) with (last_str (String b s')).
  rewrite <- IH. simpl. now rewrite Nat.sub_0_r.
Qed.

Lemma last_str_ends_with (c : ascii) (s : string) :
  String.eqb (last_str s) (String c "") = ends_with c s.
Proof.
  induction s as [|a s IH]; [reflexivity|].
  destruct s as [|b s']; [|exact IH].
  simpl. now destruct (Ascii.eqb a c).
Qed.

Lemma substr_before_start (str : string) :
  JsString.substr str (-1) 1 = last_str str.
Proof.
  unfold JsString.substr, JsString.len. cbn [Z.ltb Z.compare].
  destruct str as [|a s]; [reflexivity|].
  set (n := String.length (String a s)).
  assert (Hn : (1 <= n)%nat) by (subst n; simpl; lia).
  replace (Z.max (Z.of_nat n + -1) 0) with (Z.of_nat (n - 1)) by lia.
  replace (Z.min (Z.max 1 0) (Z.of_nat n - Z.of_nat (n - 1))) with 1 by lia.
  rewrite Nat2Z.id. change (Z.to_nat 1) with 1%nat.
  apply substring_last.
Qed.

Lemma substr_char (str : string) (k : Z) (c : ascii) :
  0 <= k -> String.get (Z.to_nat k) str = Some c ->
  JsString.substr str k 1 = String c "".
Proof.
  intros Hk Hg. pose proof (get_valid _ _ _ Hg) as Hv.
  unfold JsString.substr, JsString.len.
  replace (k <? 0) with false by (symmetry; apply Z.ltb_ge; lia).
  replace (Z.min k (Z.of_nat (String.length str))) with k by lia.
  replace (Z.min (Z.max 1 0) (Z.of_nat (String.length str) - k)) with 1 by lia.
  change (Z.to_nat 1) with 1%nat. now apply substring_one.
Qed.

Lemma substr_append_left (p x : string) (a n : Z) :
  0 <= a -> 0 <= n -> a + n <= JsString.len p ->
  JsString.substr (p ++ x) a n = JsString.substr p a n.
Proof.
  intros Ha Hn H. unfold JsString.substr, JsString.len in *.
  rewrite length_append.
  replace (a <? 0) with false by (symmetry; apply Z.ltb_ge; lia).
  replace (Z.min a (Z.of_nat (String.length p + String.length x))) with a by lia.
  replace (Z.min a (Z.of_nat (String.length p))) with a by lia.
  replace (Z.min (Z.max n 0) (Z.of_nat (String.length p + String.length x) - a))
    with n by lia.
  replace (Z.min (Z.max n 0) (Z.of_nat (String.length p) - a)) with n by lia.
  apply substring_append_left. lia.
Qed.

End Positions.

(** ** Growth of the store *)

Section Growth.

Lemma cell_ext_refl (c : cell) : cell_ext c c.
Proof.
  split; [auto|]. intros ids H. exists []. now rewrite app_nil_r.
Qed.

Lemma cell_ext_trans (a b c : cell) : cell_ext a b -> cell_ext b c -> cell_ext a c.
Proof.
  intros [P1 B1] [P2 B2]. split; [auto|].
  intros ids H. destruct (B1 _ H) as [m1 E1]. destruct (B2 _ E1) as [m2 E2].
  exists (m1 ++ m2)%list. now rewrite app_assoc.
Qed.

Lemma heap_ext_refl (h : heap) : heap_ext h h.
Proof. intros r c E. exists c. split; [exact E | apply cell_ext_refl]. Qed.

Lemma heap_ext_trans (a b c : heap) : heap_ext a b -> heap_ext b c -> heap_ext a c.
Proof.
  intros H1 H2 r x E. destruct (H1 _ _ E) as (y & Ey & X1).
  destruct (H2 _ _ Ey) as (z & Ez & X2).
  exists z. split; [exact Ez | eapply cell_ext_trans; eassumption].
Qed.

Lemma heap_ext_alloc (h : heap) (c : cell) : heap_ext h (h ++ [c])%list.
Proof.
  intros r x E. exists x. split; [|apply cell_ext_refl].
  rewrite nth_error_alloc_old; [exact E|].
  apply nth_error_Some. now rewrite E.
Qed.

Lemma heap_ext_update (h : heap) (r : nat) (f : cell -> cell) :
  (forall c, nth_error h r = Some c -> cell_ext c (f c)) ->
  heap_ext h (update h r f).
Proof.
  intros Hf x c E. destruct (Nat.eq_dec r x) as [->|Hne].
  - exists (f c). rewrite nth_error_update_same, E. split; [reflexivity|].
    now apply Hf.
  - exists c. rewrite nth_error_update_other by exact Hne.
    split; [exact E | apply cell_ext_refl].
Qed.

Lemma heap_ext_parent (h h' : heap) (r p : nat) :
  heap_ext h h' -> parent_of h r = Some p -> parent_of h' r = Some p.
Proof.
  intros H E. unfold parent_of in *.
  destruct (nth_error h r) as [c|] eqn:Ec; [|discriminate].
  destruct (H _ _ Ec) as (c' & Ec' & [P _]). rewrite Ec'. now apply P.
Qed.

Lemma heap_ext_branchset (h h' : heap) (r : nat) (ids : list nat) :
  heap_ext h h' -> branchset_of h r = Some ids ->
  exists more, branchset_of h' r = Some (ids ++ more)%list.
Proof.
  intros H E. unfold branchset_of in *.
  destruct (nth_error h r) as [c|] eqn:Ec; [|discriminate].
  destruct (H _ _ Ec) as (c' & Ec' & [_ B]). rewrite Ec'. now apply B.
Qed.

Lemma chain_ext (L : nat) (h h' : heap) (d c : nat) :
  heap_ext h h' -> chain L h d c -> chain L h' d c.
Proof.
  intros H. revert c. induction d as [|d IH]; intros c; [exact (fun x => x)|].
  intros (Hc & p & ids & Ep & Eb & Hin & Hp).
  destruct (heap_ext_branchset _ _ _ _ H Eb) as [more Eb'].
  split; [exact Hc|]. exists p, (ids ++ more)%list.
  split; [now apply (heap_ext_parent h)|].
  split; [exact Eb'|]. split; [apply in_or_app; now left | now apply IH].
Qed.

Lemma chain_range (L : nat) (h : heap) (d c : nat) :
  chain L h d c -> c = root \/ (L <= c)%nat.
Proof. destruct d; [now left | intros [H _]; now right]. Qed.

Lemma branchset_of_update_same (h : heap) (r : nat) (f : cell -> cell) (c : cell) :
  nth_error h r = Some c ->
  branchset_of (update h r f) r = c_branchset (f c).
Proof.
  intros E. unfold branchset_of. now rewrite nth_error_update_same, E.
Qed.

(** [push_branchset] on an object that has a branchset. *)
Lemma push_branchset_eq (h : heap) (p x : nat) (ids : list nat) :
  branchset_of h p = Some ids ->
  exists h',
    push_branchset h (Some p) x = OK h' /\
    heap_ext h h' /\ List.length h' = List.length h /\
    (forall r, r <> p -> nth_error h' r = nth_error h r) /\
    branchset_of h' p = Some (ids ++ [x])%list.
Proof.
  intros E. unfold push_branchset. unfold branchset_of in E.
  destruct (nth_error h p) as [c|] eqn:Ec; [|discriminate].
  rewrite E. eexists. split; [reflexivity|].
  split; [|split; [apply length_update|split]].
  - apply heap_ext_update. intros c0 E0. rewrite Ec in E0. inversion E0; subst c0.
    split; [auto|]. intros ids' H. rewrite E in H. inversion H; subst ids'.
    now exists [x].
  - intros r Hr. apply nth_error_update_other. auto.
  - now rewrite (branchset_of_update_same _ _ _ _ Ec).
Qed.

Lemma assign_text_eq (h : heap) (q : nat) (t : string) :
  (q < List.length h)%nat ->
  exists h',
    assign_text h (Some q) t = OK h' /\
    heap_ext h h' /\ List.length h' = List.length h /\
    (forall r, r <> q -> nth_error h' r = nth_error h r).
Proof.
  intros Hq. unfold assign_text.
  destruct (nth_error h q) as [c|] eqn:Ec; [|apply nth_error_None in Ec; lia].
  eexists. split; [reflexivity|].
  split; [|split; [apply length_update|]].
  - apply heap_ext_update. intros c0 _. split; [auto|].
    intros ids H. exists []. now rewrite app_nil_r.
  - intros r Hr. apply nth_error_update_other. auto.
Qed.

End Growth.

(** ** The steps of the scan, one kind of character at a time *)

Section Steps.

Variable str : string.

Lemma step_open (i : Z) (st : tstate) (c : nat) (ids : list nat) :
  current st = Some c ->
  branchset_of (store st) c = Some ids ->
  let n := List.length (store st) in
  exists h',
    step str i "(" st = OK (mkState h' (Some n) (i + 1) (inNhxAttr st) (prevNode st)) /\
    heap_ext (store st) h' /\
    List.length h' = S n /\
    (forall r, r <> c -> (r < n)%nat -> nth_error h' r = nth_error (store st) r) /\
    parent_of h' n = Some c /\
    branchset_of h' c = Some (ids ++ [n])%list.
Proof.
  intros Hc Hb n.
  assert (Hv : (c < n)%nat) by (apply branchset_of_valid; now rewrite Hb).
  set (hA := (store st ++ [mkCell (Some []) None None])%list).
  assert (HbA : branchset_of hA c = Some ids).
  { unfold branchset_of, hA. rewrite nth_error_alloc_old by exact Hv. exact Hb. }
  destruct (push_branchset_eq hA c n ids HbA) as (hB & EB & XB & LB & SB & BB).
  assert (HnB : nth_error hB n = Some (mkCell (Some []) None None)).
  { rewrite SB by lia. apply nth_error_alloc_new. }
  exists (update hB n (fun c0 => mkCell (c_branchset c0) (Some c) (c_text c0))).
  split.
  { unfold step. cbn [Ascii.eqb Bool.eqb]. unfold alloc. rewrite Hc.
    fold hA. fold n. rewrite EB. reflexivity. }
  split.
  { eapply heap_ext_trans; [apply heap_ext_alloc|].
    eapply heap_ext_trans; [exact XB|].
    apply heap_ext_update. intros c0 E0. rewrite HnB in E0.
    inversion E0; subst c0. split; [discriminate|].
    intros ids' H. exists []. now rewrite app_nil_r. }
  split.
  { rewrite length_update, LB. unfold hA. rewrite length_app. simpl. lia. }
  split.
  { intros r Hr Hlt. rewrite nth_error_update_other by lia.
    rewrite SB by exact Hr. unfold hA. now apply nth_error_alloc_old. }
  split.
  { unfold parent_of. now rewrite nth_error_update_same, HnB. }
  { unfold branchset_of. rewrite nth_error_update_other by lia. exact BB. }
Qed.

Lemma step_close (i : Z) (st : tstate) (c p : nat) :
  current st = Some c ->
  parent_of (store st) c = Some p ->
  step str i ")" st
  = OK (mkState (store st) (Some p) (i + 1) (inNhxAttr st) (Some c)).
Proof.
  intros Hc Hp. unfold step. cbn [Ascii.eqb Bool.eqb].
  unfold read_parent. rewrite Hc. unfold parent_of in Hp.
  destruct (nth_error (store st) c); [|discriminate].
  cbn [bind]. now rewrite Hp.
Qed.

Lemma step_comma_text (i : Z) (st : tstate) (q : nat) :
  inNhxAttr st = false ->
  String.eqb (JsString.substr str (textBegin st - 1) 1) ")" = true ->
  prevNode st = Some q -> (q < List.length (store st))%nat ->
  exists h',
    step str i "," st = OK (mkState h' (current st) (i + 1) false (prevNode st)) /\
    heap_ext (store st) h' /\
    List.length h' = List.length (store st) /\
    (forall r, r <> q -> nth_error h' r = nth_error (store st) r).
Proof.
  intros Hn Hclose Hq Hv.
  destruct (assign_text_eq (store st) q
              (JsString.substr str (textBegin st) (i - textBegin st)) Hv)
    as (h' & E & X & Ln & Sm).
  exists h'. split; [|now repeat split].
  unfold step. cbn [Ascii.eqb Bool.eqb]. rewrite Hn, Hclose, Hq, E.
  reflexivity.
Qed.

Lemma step_comma_leaf (i : Z) (st : tstate) (c : nat) (ids : list nat) :
  inNhxAttr st = false ->
  String.eqb (JsString.substr str (textBegin st - 1) 1) ")" = false ->
  current st = Some c ->
  branchset_of (store st) c = Some ids ->
  let n := List.length (store st) in
  exists h',
    step str i "," st = OK (mkState h' (Some c) (i + 1) false (prevNode st)) /\
    heap_ext (store st) h' /\
    List.length h' = S n /\
    (forall r, r <> c -> (r < n)%nat -> nth_error h' r = nth_error (store st) r) /\
    branchset_of h' c = Some (ids ++ [n])%list.
Proof.
  intros Hn Hclose Hc Hb n.
  assert (Hv : (c < n)%nat) by (apply branchset_of_valid; now rewrite Hb).
  set (t := JsString.substr str (textBegin st) (i - textBegin st)).
  set (hA := (store st ++ [mkCell None None (Some t)])%list).
  assert (HbA : branchset_of hA c = Some ids).
  { unfold branchset_of, hA. rewrite nth_error_alloc_old by exact Hv. exact Hb. }
  destruct (push_branchset_eq hA c n ids HbA) as (hB & EB & XB & LB & SB & BB).
  exists hB. split.
  { unfold step. cbn [Ascii.eqb Bool.eqb]. rewrite Hn, Hclose. unfold alloc.
    fold t. fold hA. fold n. rewrite Hc, EB. reflexivity. }
  split.
  { eapply heap_ext_trans; [apply heap_ext_alloc | exact XB]. }
  split.
  { rewrite LB. unfold hA. rewrite length_app. simpl. lia. }
  split; [|exact BB].
  intros r Hr Hlt. rewrite SB by exact Hr.
  unfold hA. now apply nth_error_alloc_old.
Qed.

(** When the test of the source holds, the span starts right behind a
    closing parenthesis of the input (the input does not end with one). *)
Lemma close_bracket_before (tb i : Z) (char : ascii) :
  ends_with ")" str = false ->
  0 <= tb <= i ->
  String.get (Z.to_nat i) str = Some char ->
  String.eqb (JsString.substr str (tb - 1) 1) ")" = true ->
  1 <= tb /\ String.get (Z.to_nat (tb - 1)) str = Some ")"%char.
Proof.
  intros Hend Htb Hg H.
  destruct (Z.eq_dec tb 0) as [->|Hne].
  - change (0 - 1) with (-1) in H.
    rewrite substr_before_start, last_str_ends_with in H. congruence.
  - split; [lia|].
    pose proof (get_valid _ _ _ Hg) as Hv.
    destruct (get_some (Z.to_nat (tb - 1)) str) as [ch Hch]; [lia|].
    rewrite (substr_char str (tb - 1) ch) in H by (try lia; exact Hch).
    apply String.eqb_eq in H. inversion H; subst. exact Hch.
Qed.

End Steps.

(** ** The invariant of the scan *)

Section ScanInvariant.

Variables (L : nat) (ids1 : list nat) (h1 : heap) (str : string).
Hypothesis HL : (1 <= L)%nat.
Hypothesis Hend : ends_with ")" str = false.

Lemma frame_step (h h' : heap) (c : nat) :
  (forall r, (0 < r < L)%nat -> nth_error h r = nth_error h1 r) ->
  (L <= List.length h)%nat ->
  c = root \/ (L <= c)%nat ->
  (forall r, r <> c -> (r < List.length h)%nat -> nth_error h' r = nth_error h r) ->
  forall r, (0 < r < L)%nat -> nth_error h' r = nth_error h1 r.
Proof.
  intros F Hl Hc S r Hr. rewrite S; [now apply F | | lia].
  unfold root in Hc. lia.
Qed.

Lemma root_step (h h' : heap) :
  heap_ext h h' ->
  (exists extra, branchset_of h root = Some (ids1 ++ extra)%list) ->
  exists extra, branchset_of h' root = Some (ids1 ++ extra)%list.
Proof.
  intros X [extra E]. destruct (heap_ext_branchset _ _ _ _ X E) as [more E'].
  exists (extra ++ more)%list. now rewrite app_assoc.
Qed.

Lemma step_inv (i : Z) (d d' : nat) (st : tstate) (char : ascii) :
  0 <= i ->
  String.get (Z.to_nat i) str = Some char ->
  depth_step d char = Some d' ->
  scan_inv L ids1 h1 str i d st ->
  exists st',
    step str i char st = OK st' /\
    scan_inv L ids1 h1 str (i + 1) d' st' /\
    inNhxAttr st' = comment_step (inNhxAttr st) char /\
    (char = ","%char -> inNhxAttr st = false ->
     textBegin st' = i + 1 /\
     exists c e more,
       current st' = Some c /\ branchset_of (store st') c = Some (e :: more)).
Proof.
  intros Hi Hg Hd [Wf Len Fr Rt (c & Hc & Ch) Tb Pv].
  pose proof (step_wf str i char st Wf) as W.
  assert (Hcb : branchset_of (store st) c <> None) by (apply Wf; exact Hc).
  destruct (branchset_of (store st) c) as [ids|] eqn:Eb; [clear Hcb|now elim Hcb].
  assert (Here : forall x, i + 1 - 1 = x -> x = i) by (intros; lia).
  unfold depth_step in Hd. unfold comment_step.
  destruct (Ascii.eqb char "(") eqn:E1.
  { (* an opening parenthesis *)
    apply Ascii.eqb_eq in E1. subst char. inversion Hd; subst d'.
    destruct (step_open str i st c ids Hc Eb) as (h' & E & X & Ln & Sm & Pa & Bs).
    rewrite E in W. eexists. split; [exact E|].
    split; [|split; [reflexivity | discriminate]].
    split; cbn [store current textBegin prevNode].
    - exact W.
    - lia.
    - apply (frame_step (store st) h' c Fr Len (chain_range _ _ _ _ Ch)).
      intros r Hr Hlt. now apply Sm.
    - now apply (root_step (store st)).
    - exists (List.length (store st)). split; [reflexivity|].
      split; [exact Len|]. exists c, (ids ++ [List.length (store st)])%list.
      split; [exact Pa|]. split; [exact Bs|].
      split; [apply in_or_app; right; now left|].
      now apply (chain_ext L (store st)).
    - lia.
    - intros _ G. replace (i + 1 - 1) with i in G by lia. congruence. }
  destruct (Ascii.eqb char ")") eqn:E2.
  { (* a closing parenthesis *)
    apply Ascii.eqb_eq in E2. subst char.
    destruct d as [|d0]; [discriminate|]. inversion Hd; subst d'.
    destruct Ch as (HLc & p & pids & Ep & Ebp & Hin & Chp).
    pose proof (step_close str i st c p Hc Ep) as E.
    rewrite E in W. eexists. split; [exact E|].
    split; [|split; [reflexivity | discriminate]].
    split; cbn [store current textBegin prevNode]; try assumption.
    - exists p. now split.
    - lia.
    - intros _ _. exists c, p, pids. now repeat split. }
  inversion Hd; subst d'. clear Hd.
  destruct (Ascii.eqb char ",") eqn:E3.
  { apply Ascii.eqb_eq in E3. subst char. cbn [Ascii.eqb Bool.eqb].
    destruct (inNhxAttr st) eqn:En.
    { (* a comma of a comment *)
      exists st. split; [unfold step; cbn [Ascii.eqb Bool.eqb]; now rewrite En|].
      split; [|split; [exact En | discriminate]].
      split; try assumption; [now exists c | lia]. }
    destruct (String.eqb (JsString.substr str (textBegin st - 1) 1) ")") eqn:Ecl.
    - (* the text of the node closed last *)
      destruct (close_bracket_before str _ _ _ Hend Tb Hg Ecl) as [T1 T2].
      destruct (Pv T1 T2) as (q & c' & ids' & Eq & HLq & Hc' & Eb' & Hin).
      assert (Hq : (q < List.length (store st))%nat).
      { pose proof (wf_children _ (swf_heap _ Wf) c' ids' Eb') as F.
        rewrite Forall_forall in F. specialize (F q Hin). lia. }
      destruct (step_comma_text str i st q En Ecl Eq Hq) as (h' & E & X & Ln & Sm).
      rewrite E in W. eexists. split; [exact E|].
      split; [|split; [reflexivity|]].
      2:{ intros _ _. cbn [store current textBegin]. split; [reflexivity|].
          destruct (heap_ext_branchset _ _ _ _ X Eb') as [more Eb''].
          destruct ids' as [|e ids']; [now elim Hin|].
          exists c', e, (ids' ++ more)%list. split; [exact Hc' | exact Eb'']. }
      split; cbn [store current textBegin prevNode].
      + exact W.
      + lia.
      + apply (frame_step (store st) h' q Fr Len (or_intror HLq)).
        intros r Hr _. now apply Sm.
      + now apply (root_step (store st)).
      + exists c. split; [exact Hc|]. now apply (chain_ext L (store st)).
      + lia.
      + intros _ G. replace (i + 1 - 1) with i in G by lia. congruence.
    - (* a new leaf *)
      destruct (step_comma_leaf str i st c ids En Ecl Hc Eb)
        as (h' & E & X & Ln & Sm & Bs).
      rewrite E in W. eexists. split; [exact E|].
      split; [|split; [reflexivity|]].
      2:{ intros _ _. cbn [store current textBegin]. split; [reflexivity|].
          destruct (ids ++ [List.length (store st)])%list as [|e more] eqn:Ei;
            [now destruct ids|].
          now exists c, e, more. }
      split; cbn [store current textBegin prevNode].
      + exact W.
      + lia.
      + apply (frame_step (store st) h' c Fr Len (chain_range _ _ _ _ Ch)).
        intros r Hr Hlt. now apply Sm.
      + now apply (root_step (store st)).
      + exists c. split; [reflexivity|]. now apply (chain_ext L (store st)).
      + lia.
      + intros _ G. replace (i + 1 - 1) with i in G by lia. congruence. }
  (* the other characters *)
  assert (Keep : forall b,
             scan_inv L ids1 h1 str (i + 1) d
               (mkState (store st) (current st) (textBegin st) b (prevNode st))).
  { intros b. split; cbn [store current textBegin prevNode]; try assumption.
    - destruct Wf as [A B C]. now split.
    - now exists c.
    - lia. }
  assert (Hnc : char = ","%char -> inNhxAttr st = false ->
                forall st', textBegin st' = i + 1 /\
                  exists c0 e more, current st' = Some c0 /\
                    branchset_of (store st') c0 = Some (e :: more)).
  { intros ->. discriminate. }
  unfold step. rewrite E1, E2, E3.
  destruct (Ascii.eqb char "[");
    [eexists; split; [reflexivity | split; [apply Keep | split; [reflexivity | auto]]]|].
  destruct (Ascii.eqb char "]");
    [eexists; split; [reflexivity | split; [apply Keep | split; [reflexivity | auto]]]|].
  exists st. split; [reflexivity|]. split; [|split; [reflexivity | auto]].
  destruct st as [h cu tb nx pn]. apply (Keep nx).
Qed.

(** The scan of a part of the input in which no closing parenthesis
    comes too early: nothing is thrown, and the context ends at the
    depth the parentheses give. *)
Lemma loop_inv (pre mid post : string) (d d' : nat) (st : tstate) :
  str = pre ++ mid ++ post ->
  paren_depth d mid = Some d' ->
  scan_inv L ids1 h1 str (JsString.len pre) d st ->
  exists st',
    loop str (JsString.len pre) mid st = OK st' /\
    scan_inv L ids1 h1 str (JsString.len (pre ++ mid)) d' st' /\
    inNhxAttr st' = in_comment (inNhxAttr st) mid.
Proof.
  revert pre d st. induction mid as [|char mid IH]; intros pre d st Hs Hp Hinv.
  - inversion Hp; subst d'. exists st. split; [reflexivity|].
    split; [|reflexivity]. now rewrite append_nil_r.
  - cbn [paren_depth] in Hp.
    destruct (depth_step d char) as [d0|] eqn:Ed; [|discriminate].
    assert (Hg : String.get (Z.to_nat (JsString.len pre)) str = Some char).
    { unfold JsString.len. rewrite Nat2Z.id, Hs. apply get_append_here. }
    destruct (step_inv (JsString.len pre) d d0 st char) as (st0 & E0 & I0 & N0 & _);
      [unfold JsString.len; lia | exact Hg | exact Ed | exact Hinv |].
    assert (Hlen : JsString.len pre + 1 = JsString.len (pre ++ String char "")).
    { unfold JsString.len. rewrite length_append. simpl. lia. }
    rewrite Hlen in I0.
    assert (Happ : forall x, (pre ++ String char "") ++ x = pre ++ String char x)
      by (intros x; now rewrite append_assoc).
    destruct (IH (pre ++ String char "") d0 st0) as (st' & E' & I' & N');
      [now rewrite Happ | exact Hp | exact I0 |].
    exists st'. split; [|split].
    + cbn [loop]. rewrite E0. cbn [bind]. rewrite Hlen. exact E'.
    + now rewrite Happ in I'.
    + rewrite N', N0. reflexivity.
Qed.

End ScanInvariant.

(** ** The scan of a prefix does not depend on what follows it *)

Section Prefix.

Lemma step_textBegin (str : string) (i : Z) (char : ascii) (st st' : tstate) :
  step str i char st = OK st' ->
  0 <= textBegin st <= i -> 0 <= textBegin st' <= i + 1.
Proof.
  unfold step. intros E H.
  destruct (Ascii.eqb char "(").
  { unfold alloc in E. destruct (push_branchset _ _ _); inversion E.
    cbn [textBegin]. lia. }
  destruct (Ascii.eqb char ")").
  { destruct (read_parent _ _); inversion E. cbn [textBegin]. lia. }
  destruct (Ascii.eqb char ",").
  { destruct (inNhxAttr st); [inversion E; subst; lia|].
    match type of E with
    | bind ?r _ = _ => destruct r; inversion E; cbn [textBegin]; lia
    end. }
  destruct (Ascii.eqb char "["); [inversion E; cbn [textBegin]; lia|].
  destruct (Ascii.eqb char "]"); inversion E; subst; cbn [textBegin]; lia.
Qed.

Lemma step_agree (p x y : string) (i : Z) (char : ascii) (st : tstate) :
  ends_with ")" (p ++ x) = false -> ends_with ")" (p ++ y) = false ->
  0 <= textBegin st <= i -> i < JsString.len p ->
  step (p ++ x) i char st = step (p ++ y) i char st.
Proof.
  intros Hx Hy Htb Hi.
  assert (T : JsString.substr (p ++ x) (textBegin st) (i - textBegin st)
              = JsString.substr (p ++ y) (textBegin st) (i - textBegin st))
    by (rewrite !substr_append_left by lia; reflexivity).
  assert (C : String.eqb (JsString.substr (p ++ x) (textBegin st - 1) 1) ")"
              = String.eqb (JsString.substr (p ++ y) (textBegin st - 1) 1) ")").
  { destruct (Z.eq_dec (textBegin st) 0) as [E|E].
    - rewrite E. change (0 - 1) with (-1).
      rewrite !substr_before_start, !last_str_ends_with. congruence.
    - rewrite !substr_append_left by lia. reflexivity. }
  unfold step. now rewrite T, C.
Qed.

Lemma loop_agree (p x y : string) (rest pre : string) (st : tstate) :
  ends_with ")" (p ++ x) = false -> ends_with ")" (p ++ y) = false ->
  p = pre ++ rest ->
  0 <= textBegin st <= JsString.len pre ->
  loop (p ++ x) (JsString.len pre) rest st = loop (p ++ y) (JsString.len pre) rest st.
Proof.
  intros Hx Hy. revert pre st.
  induction rest as [|char rest IH]; intros pre st Hp Htb; [reflexivity|].
  assert (Hlen : JsString.len pre + 1 = JsString.len (pre ++ String char "")).
  { unfold JsString.len. rewrite length_append. simpl. lia. }
  cbn [loop]. rewrite (step_agree p x y) by
    (try assumption; rewrite Hp; unfold JsString.len;
     rewrite length_append; simpl; lia).
  destruct (step (p ++ y) (JsString.len pre) char st) as [st0| |] eqn:E;
    try reflexivity.
  cbn [bind]. rewrite Hlen. apply IH.
  - rewrite Hp. now rewrite append_assoc.
  - rewrite <- Hlen. eapply step_textBegin; eassumption.
Qed.

Lemma loop_append (str a b : string) (i : Z) (st : tstate) :
  loop str i (a ++ b) st
  = bind (loop str i a st) (loop str (i + JsString.len a) b).
Proof.
  revert i st. induction a as [|c a IH]; intros i st.
  - cbn [loop bind]. change ("" ++ b) with b.
    now replace (i + JsString.len "") with i by (unfold JsString.len; simpl; lia).
  - change (String c a ++ b) with (String c (a ++ b)). cbn [loop].
    destruct (step str i c st) as [st0| |]; try reflexivity.
    cbn [bind]. rewrite IH. f_equal.
    replace (i + 1 + JsString.len a) with (i + JsString.len (String c a))
      by (unfold JsString.len; simpl; lia).
    reflexivity.
Qed.

End Prefix.

(** ** Trees of the store *)

Section Trees.

Lemma reify_list_ext (g g' : nat -> option rawnode) (ids : list nat) (ns : list rawnode) :
  (forall k, In k ids -> forall n, g k = Some n -> g' k = Some n) ->
  reify_list g ids = Some ns -> reify_list g' ids = Some ns.
Proof.
  revert ns. induction ids as [|k ids IH]; intros ns H E; [exact E|].
  simpl in E |- *.
  destruct (g k) as [n|] eqn:Ek; [|discriminate].
  destruct (reify_list g ids) as [ns'|] eqn:El; [|discriminate].
  rewrite (H k (or_introl eq_refl) n Ek).
  rewrite (IH ns'); [exact E | | reflexivity].
  intros k' Hk'. apply H. now right.
Qed.

Lemma reify_more_fuel (h : heap) (f f' : nat) (r : nat) (n : rawnode) :
  (f <= f')%nat -> reify f h r = Some n -> reify f' h r = Some n.
Proof.
  revert f' r n. induction f as [|f IH]; intros f' r n Hf E; [discriminate|].
  destruct f' as [|f']; [lia|].
  cbn [reify] in E |- *.
  destruct (nth_error h r) as [c|]; [|discriminate].
  destruct (c_branchset c) as [ids|]; [|exact E].
  destruct (reify_list (reify f h) ids) as [ns|] eqn:El; [|discriminate].
  rewrite (reify_list_ext (reify f h) (reify f' h) ids ns); [exact E | | exact El].
  intros k _ m. apply IH. lia.
Qed.

(** A tree that lies in the part of the store that two stores share. *)
Lemma reify_frame (h1 h2 : heap) (f r : nat) (n : rawnode) :
  heap_wf h1 ->
  (forall k, (0 < k < List.length h1)%nat -> nth_error h2 k = nth_error h1 k) ->
  (0 < r)%nat -> reify f h1 r = Some n -> reify f h2 r = Some n.
Proof.
  intros Hwf Fr. revert r n. induction f as [|f IH]; intros r n Hr E; [discriminate|].
  cbn [reify] in E |- *.
  destruct (nth_error h1 r) as [c|] eqn:Ec; [|discriminate].
  assert (Hv : (r < List.length h1)%nat) by (apply nth_error_Some; now rewrite Ec).
  rewrite Fr, Ec by lia.
  destruct (c_branchset c) as [ids|] eqn:Eb; [|exact E].
  destruct (reify_list (reify f h1) ids) as [ns|] eqn:El; [|discriminate].
  rewrite (reify_list_ext (reify f h1) (reify f h2) ids ns); [exact E | | exact El].
  intros k Hk m. apply IH.
  pose proof (wf_children h1 Hwf r ids) as F. unfold branchset_of in F.
  rewrite Ec in F. specialize (F Eb). rewrite Forall_forall in F.
  specialize (F k Hk). lia.
Qed.

End Trees.

(** ** The first top-level entry *)

Section FirstEntry.

Lemma replace_all_append (c : ascii) (b x y : string) :
  JsString.replace_all c b (x ++ y)
  = JsString.replace_all c b x ++ JsString.replace_all c b y.
Proof.
  induction x as [|a x IH]; [reflexivity|].
  simpl. destruct (Ascii.eqb a c); rewrite IH; [now rewrite append_assoc | reflexivity].
Qed.

Lemma paren_depth_append (d : nat) (a b : string) :
  paren_depth d (a ++ b)
  = match paren_depth d a with
    | Some d' => paren_depth d' b
    | None => None
    end.
Proof.
  revert d. induction a as [|c a IH]; intros d; [reflexivity|].
  simpl. destruct (depth_step d c); [apply IH | reflexivity].
Qed.

Lemma paren_depth_normalized (d : nat) (s : string) :
  paren_depth d (JsString.replace_all ")" ",)" s) = paren_depth d s.
Proof.
  revert d. induction s as [|c s IH]; intros d; [reflexivity|].
  cbn [JsString.replace_all]. destruct (Ascii.eqb c ")") eqn:E.
  - apply Ascii.eqb_eq in E. subst c.
    change (",)" ++ JsString.replace_all ")" ",)" s)
      with (String "," (String ")" (JsString.replace_all ")" ",)" s))).
    cbn [paren_depth]. change (depth_step d ",") with (Some d).
    cbn iota. destruct (depth_step d ")"); [apply IH | reflexivity].
  - cbn [paren_depth]. destruct (depth_step d c); [apply IH | reflexivity].
Qed.

Lemma in_comment_normalized (b : bool) (s : string) :
  in_comment b (JsString.replace_all ")" ",)" s) = in_comment b s.
Proof.
  revert b. induction s as [|c s IH]; intros b; [reflexivity|].
  cbn [JsString.replace_all]. destruct (Ascii.eqb c ")") eqn:E.
  - apply Ascii.eqb_eq in E. subst c.
    change (",)" ++ JsString.replace_all ")" ",)" s)
      with (String "," (String ")" (JsString.replace_all ")" ",)" s))).
    cbn [in_comment]. change (comment_step b ",") with b. apply IH.
  - cbn [in_comment]. apply IH.
Qed.

Lemma ends_with_append_char (c a : ascii) (s : string) :
  ends_with c (s ++ String a "") = Ascii.eqb a c.
Proof.
  induction s as [|x s IH]; [reflexivity|].
  change (String x s ++ String a "") with (String x (s ++ String a "")).
  destruct (s ++ String a "") eqn:E; [now destruct s|].
  exact IH.
Qed.

Lemma appendBoundaries_entry (first : string) :
  appendBoundaries (first ++ ";") = JsString.replace_all ")" ",)" first ++ ",".
Proof.
  unfold appendBoundaries. rewrite replace_all_append.
  change (JsString.replace_all ")" ",)" ";") with ";".
  apply replace_at_end_last.
Qed.

Lemma appendBoundaries_entries (first others : string) :
  appendBoundaries (first ++ "," ++ others ++ ";")
  = (JsString.replace_all ")" ",)" first ++ ",")
    ++ (JsString.replace_all ")" ",)" others ++ ",").
Proof.
  replace (first ++ "," ++ others ++ ";") with ((first ++ "," ++ others) ++ ";")
    by now rewrite !append_assoc.
  rewrite appendBoundaries_entry, !replace_all_append.
  change (JsString.replace_all ")" ",)" ",") with ",".
  now rewrite !append_assoc.
Qed.

Lemma init_scan_inv (str : string) :
  scan_inv 1 [] (store init_state) str 0 0 init_state.
Proof.
  split; cbn [store current textBegin prevNode init_state].
  - apply init_state_wf.
  - simpl. lia.
  - intros r Hr. lia.
  - now exists [].
  - now exists root.
  - lia.
  - lia.
Qed.

(** The scan of a balanced first entry and of the comma after it ends
    at the synthetic root, which then holds an entry. *)
Lemma scan_entry (first tail : string) :
  balanced first -> in_comment false first = false ->
  let p := JsString.replace_all ")" ",)" first ++ "," in
  ends_with ")" (p ++ tail) = false ->
  exists st e more,
    loop (p ++ tail) 0 p init_state = OK st /\
    state_wf st /\ current st = Some root /\
    branchset_of (store st) root = Some (e :: more) /\
    textBegin st = JsString.len p.
Proof.
  intros Hb Hc p Hend.
  set (r := JsString.replace_all ")" ",)" first) in *.
  assert (Hstr : p ++ tail = "" ++ r ++ String "," tail)
    by (unfold p; now rewrite append_assoc).
  destruct (loop_inv 1 [] (store init_state) (p ++ tail) (le_n 1) Hend
              "" r (String "," tail) 0 0 init_state Hstr)
    as (sa & Ea & Ia & Na).
  { unfold r. rewrite paren_depth_normalized. exact Hb. }
  { apply init_scan_inv. }
  change ("" ++ r) with r in Ia. change (JsString.len "") with 0 in Ea.
  cbn [inNhxAttr init_state] in Na.
  unfold r in Na. rewrite in_comment_normalized, Hc in Na. fold r in Na.
  destruct (step_inv 1 [] (store init_state) (p ++ tail) (le_n 1) Hend
              (JsString.len r) 0 0 sa ",")
    as (st & E & I & _ & Hentry).
  { unfold JsString.len. lia. }
  { unfold JsString.len. rewrite Nat2Z.id, Hstr. apply get_append_here. }
  { reflexivity. }
  { exact Ia. }
  destruct (Hentry eq_refl Na) as (Htb & c & e & more & Hcur & Hbs).
  destruct I as [Wf _ _ _ (c' & Hc' & Hch) _ _]. cbn [chain] in Hch.
  rewrite Hcur in Hc'. inversion Hc'; subst c'. subst c.
  exists st, e, more. split; [|split; [exact Wf | split; [exact Hcur | split; [exact Hbs|]]]].
  - change (loop (p ++ tail) 0 p init_state)
      with (loop (p ++ tail) 0 (r ++ ",") init_state).
    rewrite loop_append, Ea. cbn [bind loop].
    replace (0 + JsString.len r) with (JsString.len r) by lia.
    rewrite E. reflexivity.
  - rewrite Htb. unfold p, JsString.len. rewrite length_append. simpl. lia.
Qed.

End FirstEntry.

(** ** The examples of the source's comments *)

Section Documented.

Example appendBoundaries_doc :
  appendBoundaries "(A:0.1,B:0.2,(C:0.3,D:0.4)E:0.5)F;"
  = "(A:0.1,B:0.2,(C:0.3,D:0.4,)E:0.5,)F,".
Proof. reflexivity. Qed.

Example setNameAndLength_doc :
  setNameAndLength [] "A:0.1" = [("name", VStr "A"); ("length", VNum (Dec false 1 (-1)))] /\
  setNameAndLength [] "A" = [("name", VStr "A"); ("length", VNum num_zero)] /\
  setNameAndLength [] "" = [("name", VStr ""); ("length", VNum num_zero)].
Proof. repeat split. Qed.

Example setNhxAttrs_doc :
  setNhxAttrs [] "gn=0.2948622:b=6, 7, 10"
  = [("gn", VStr "0.2948622"); ("b", VStr "6, 7, 10")].
Proof. reflexivity. Qed.

Example translateNode_doc :
  translateNode (RawNode None None (Some "A:0.1[&&NHX:gn=0.2948622:b=6, 7, 10]"))
  = [("name", VStr "A"); ("length", VNum (Dec false 1 (-1)));
     ("gn", VStr "0.2948622"); ("b", VStr "6, 7, 10")].
Proof. reflexivity. Qed.

Example tokenize_doc :
  tokenize "(A:0.1[&&NHX:gn=10],B:0.2[&&NHX:gn=10],(C:0.3[&&NHX:gn=10],D:0.4[&&NHX:gn=10],)E:0.5[&&NHX:gn=10],)F[&&NHX:gn=10],"
  = OK (Some
      (RawNode
         (Some [RawNode None None (Some "A:0.1[&&NHX:gn=10]");
                RawNode None None (Some "B:0.2[&&NHX:gn=10]");
                RawNode
                  (Some [RawNode None None (Some "C:0.3[&&NHX:gn=10]");
                         RawNode None None (Some "D:0.4[&&NHX:gn=10]")])
                  (Some 1%nat) (Some "E:0.5[&&NHX:gn=10]")])
         (Some root) (Some "F[&&NHX:gn=10]"))).
Proof. vm_compute. reflexivity. Qed.

Example parse_nhx_doc :
  parse "(A:0.1[&&NHX:gn=10],B:0.2[&&NHX:gn=10],(C:0.3[&&NHX:gn=10],D:0.4[&&NHX:gn=10])E:0.5[&&NHX:gn=10])F[&&NHX:gn=10];"
  = OK [("branchset",
         VArr [[("name", VStr "A"); ("length", VNum (Dec false 1 (-1))); ("gn", VStr "10")];
               [("name", VStr "B"); ("length", VNum (Dec false 2 (-1))); ("gn", VStr "10")];
               [("branchset",
                 VArr [[("name", VStr "C"); ("length", VNum (Dec false 3 (-1)));
                        ("gn", VStr "10")];
                       [("name", VStr "D"); ("length", VNum (Dec false 4 (-1)));
                        ("gn", VStr "10")]]);
                ("name", VStr "E"); ("length", VNum (Dec false 5 (-1)));
                ("gn", VStr "10")]]);
        ("name", VStr "F"); ("length", VNum num_zero); ("gn", VStr "10")].
Proof. vm_compute. reflexivity. Qed.

Example parseFloat_doc :
  ParseFloat.parseFloat "0.2948622" = Dec false 2948622 (-7) /\
  ParseFloat.parseFloat " -12.5e+2xyz" = Dec true 125 1 /\
  ParseFloat.parseFloat "1e" = Dec false 1 0 /\
  ParseFloat.parseFloat ".e3" = NaN /\
  ParseFloat.parseFloat "-Infinity" = Inf true.
Proof. repeat split. Qed.

End Documented.

(** * The claims *)

(** C1. The Newick example of the source's documentation parses to the
    root F of length 0 with the children A (0.1), B (0.2) and E (0.5), in
    this order, where E has exactly the children C (0.3) and D (0.4). *)
Theorem parse_newick_example :
  parse "(A:0.1,B:0.2,(C:0.3,D:0.4)E:0.5)F;"
  = OK [("branchset",
         VArr [[("name", VStr "A"); ("length", VNum (Dec false 1 (-1)))];
               [("name", VStr "B"); ("length", VNum (Dec false 2 (-1)))];
               [("branchset",
                 VArr [[("name", VStr "C"); ("length", VNum (Dec false 3 (-1)))];
                       [("name", VStr "D"); ("length", VNum (Dec false 4 (-1)))]]);
                ("name", VStr "E"); ("length", VNum (Dec false 5 (-1)))]]);
        ("name", VStr "F"); ("length", VNum num_zero)].
Proof. vm_compute. reflexivity. Qed.

(** C2. For every input string the normalizer of the source (a global
    replacement of the closing parenthesis followed by a replacement of a
    semicolon at the end) is the one-pass rewriting of the specification:
    every closing parenthesis gets one comma inserted before it, a
    semicolon that is the last character becomes a comma, every other
    character is kept in its place. *)
Theorem appendBoundaries_meets_spec (s : string) :
  appendBoundaries s = normalizer_spec s.
Proof.
  unfold appendBoundaries.
  induction s as [|c s IH]; [reflexivity|].
  simpl JsString.replace_all. simpl normalizer_spec.
  destruct (Ascii.eqb c ")") eqn:Ec.
  - change (",)" ++ JsString.replace_all ")" ",)" s)
      with (String "," (String ")" (JsString.replace_all ")" ",)" s))).
    rewrite replace_at_end_cons by discriminate.
    destruct s as [|a s'].
    + reflexivity.
    + rewrite replace_at_end_cons.
      * rewrite IH. reflexivity.
      * intros E. apply replace_all_empty in E. discriminate.
  - destruct s as [|a s'].
    + simpl. destruct (Ascii.eqb c ";"); reflexivity.
    + rewrite replace_at_end_cons.
      * rewrite IH. rewrite andb_false_r. reflexivity.
      * intros E. apply replace_all_empty in E. discriminate.
Qed.

(** C3, as the claim states it, fails on an input with an unclosed
    parenthesis: the top level of ["A,B,(C;"] holds the entries A, B and
    a group, yet [parse] returns the leaf C of the group, not A. *)
Lemma parse_unclosed_group_returns_inner_leaf :
  exists st,
    scan (appendBoundaries "A,B,(C;") = OK st /\
    branchset_of (store st) root = Some [1; 2; 3]%nat /\
    reify (List.length (store st)) (store st) 1
    = Some (RawNode None None (Some "A")) /\
    parse "A,B,(C;" = OK [("name", VStr "C"); ("length", VNum num_zero)] /\
    parse "A,B,(C;"
    <> OK (translateNode (deleteParentAttr (RawNode None None (Some "A")))).
Proof.
  eexists. split; [vm_compute; reflexivity|].
  repeat split; try (vm_compute; reflexivity).
  vm_compute. discriminate.
Qed.

(** C3, amended.  On an input [first,others;] in which the parentheses
    of [first] and of [others] are balanced and [first] leaves no
    comment open, the scan ends at the synthetic root and [parse]
    returns exactly one node: the translation of the first entry of the
    root.  What follows the first entry is discarded: the result is the
    one that [first;] alone gives. *)
Theorem parse_returns_first_top_level_entry (first others : string) :
  balanced first -> in_comment false first = false -> balanced others ->
  exists st e more n,
    scan (appendBoundaries (first ++ "," ++ others ++ ";")) = OK st /\
    current st = Some root /\
    branchset_of (store st) root = Some (e :: more) /\
    reify (List.length (store st)) (store st) e = Some n /\
    parse (first ++ "," ++ others ++ ";") = OK (translateNode (deleteParentAttr n)) /\
    parse (first ++ ";") = OK (translateNode (deleteParentAttr n)).
Proof.
  intros Hb Hc Ho.
  set (p := JsString.replace_all ")" ",)" first ++ ",").
  set (q := JsString.replace_all ")" ",)" others ++ ",").
  assert (Hend1 : ends_with ")" (p ++ q) = false).
  { unfold q. rewrite <- append_assoc. apply ends_with_append_char. }
  assert (Hend2 : ends_with ")" (p ++ "") = false).
  { rewrite append_nil_r. unfold p. apply ends_with_append_char. }
  (* the first entry, scanned alone *)
  destruct (scan_entry first "" Hb Hc Hend2) as (s1 & e & more & E1 & W1 & C1 & B1 & T1).
  fold p in E1, T1.
  pose proof (wf_children _ (swf_heap _ W1) root _ B1) as Hch.
  inversion Hch as [|? ? He _]; subst.
  destruct (parse_first_entry (first ++ ";") s1 root e more) as (n & R1 & P1);
    [|exact C1 | exact B1|].
  { rewrite appendBoundaries_entry. fold p. unfold scan.
    rewrite append_nil_r in E1. exact E1. }
  (* the same scan, followed by the other entries *)
  assert (E1' : loop (p ++ q) 0 p init_state = OK s1).
  { rewrite <- E1. apply (loop_agree p q "" p ""); try assumption; [reflexivity|].
    cbn [textBegin init_state]. unfold JsString.len. simpl. lia. }
  assert (HL : (1 <= List.length (store s1))%nat) by lia.
  assert (Hstr : p ++ q = p ++ q ++ "") by now rewrite append_nil_r.
  destruct (loop_inv (List.length (store s1)) (e :: more) (store s1) (p ++ q) HL Hend1
              p q "" 0 0 s1 Hstr)
    as (s2 & E2 & I2 & _).
  { unfold q. rewrite paren_depth_append, paren_depth_normalized, Ho. reflexivity. }
  { split.
    - exact W1.
    - lia.
    - reflexivity.
    - exists []. now rewrite app_nil_r.
    - exists root. now split.
    - rewrite T1. unfold JsString.len. lia.
    - intros _ G. rewrite T1 in G.
      replace (Z.to_nat (JsString.len p - 1))
        with (String.length (JsString.replace_all ")" ",)" first)) in G
        by (unfold p, JsString.len; rewrite length_append; simpl; lia).
      unfold p in G. rewrite append_assoc in G.
      change ("," ++ q) with (String "," q) in G.
      rewrite get_append_here in G. discriminate. }
  destruct I2 as [W2 Len2 Fr2 (extra & Rt2) (c2 & Hc2 & Hch2) _ _].
  cbn [chain] in Hch2. subst c2.
  assert (S2 : scan (appendBoundaries (first ++ "," ++ others ++ ";")) = OK s2).
  { rewrite appendBoundaries_entries. fold p q. unfold scan.
    rewrite loop_append, E1'. cbn [bind].
    replace (0 + JsString.len p) with (JsString.len p) by lia. exact E2. }
  destruct (parse_first_entry (first ++ "," ++ others ++ ";") s2 root e (more ++ extra))
    as (n2 & R2 & P2); [exact S2 | exact Hc2 | exact Rt2|].
  assert (En : n2 = n).
  { apply (reify_more_fuel _ _ (List.length (store s2))) in R1; [|exact Len2].
    apply (reify_frame (store s1) (store s2)) in R1;
      [congruence | exact (swf_heap _ W1) | exact Fr2 | unfold root in He; lia]. }
  subst n2. exists s2, e, (more ++ extra)%list, n. now repeat split.
Qed.

Lemma parse_returns_first_top_level_entry_witness :
  exists st e more n,
    scan (appendBoundaries ("A" ++ "," ++ "B" ++ ";")) = OK st /\
    current st = Some root /\
    branchset_of (store st) root = Some (e :: more) /\
    reify (List.length (store st)) (store st) e = Some n /\
    parse ("A" ++ "," ++ "B" ++ ";") = OK (translateNode (deleteParentAttr n)) /\
    parse ("A" ++ ";") = OK (translateNode (deleteParentAttr n)).
Proof.
  apply (parse_returns_first_top_level_entry "A" "B"); reflexivity.
Defined.

(** C4, as the claim states it, fails in two places.  The tag
    [__proto__=x] stores nothing: the assignment reaches the accessor
    that the node inherits, and the node is the one of the label alone.
    The value of the tag [b=6, 7=x] is stored as ["6, 7"], not verbatim:
    the pair is split at every equals sign. *)
Lemma nhx_tag_value_lost_or_cut :
  parse "A[&&NHX:__proto__=x];" = OK [("name", VStr "A"); ("length", VNum num_zero)] /\
  get_prop "__proto__"
    (translateNode (RawNode None None (Some "A[&&NHX:__proto__=x]"))) = None /\
  get_prop "b" (translateNode (RawNode None None (Some "A[&&NHX:b=6, 7=x]")))
  = Some (VStr "6, 7") /\
  get_prop "b" (translateNode (RawNode None None (Some "A[&&NHX:b=6, 7=x]")))
  <> Some (VStr "6, 7=x").
Proof.
  split; [|split; [|split]]; try (vm_compute; reflexivity).
  vm_compute. discriminate.
Qed.

(** C4, amended.  The value of a tag [k=v] whose key is not [__proto__]
    is stored as a string, whatever it looks like (digits, commas,
    spaces): the string is the text of [v] before its first equals sign,
    so all of [v] when [v] holds none (only a colon or an opening
    bracket would end the pair earlier); a pair whose key is [__proto__]
    leaves the node as it is; storing a tag never introduces a Number;
    the characters read inside a comment, its commas among them, leave
    the state of the tokenizer as it is, so they open no sibling; and
    the comment [[&&NHX:b=6, 7, 10]] gives the tag [b] the value
    ["6, 7, 10"] on a leaf that keeps its one sibling. *)
Theorem nhx_tag_values_are_raw_strings :
  (forall branchset parent label before after k v,
      has_char "[" label = false ->
      Forall (fun p => has_char ":" p = false /\ has_char "[" p = false)
             (before ++ (k ++ "=" ++ v) :: after) ->
      k <> "__proto__" -> has_char "=" k = false ->
      Forall (fun p => key_of p <> k) after ->
      get_prop k
        (translateNode
           (RawNode branchset parent
              (Some (nhx_text label (before ++ (k ++ "=" ++ v) :: after)))))
      = Some (VStr (before_char "=" v)) /\
      (has_char "=" v = false ->
       get_prop k
         (translateNode
            (RawNode branchset parent
               (Some (nhx_text label (before ++ (k ++ "=" ++ v) :: after)))))
       = Some (VStr v))) /\
  (forall node pair, key_of pair = "__proto__" -> setAttr node pair = node) /\
  (forall node pair k n,
      get_prop k (setAttr node pair) = Some (VNum n) ->
      get_prop k node = Some (VNum n)) /\
  (forall str i s st,
      inNhxAttr st = true ->
      has_char "(" s = false -> has_char ")" s = false ->
      has_char "]" s = false ->
      loop str i s st = OK st) /\
  parse "(A:0.1[&&NHX:b=6, 7, 10],B:0.2[&&NHX:gn=10])F;"
  = OK [("branchset",
         VArr [[("name", VStr "A"); ("length", VNum (Dec false 1 (-1)));
                ("b", VStr "6, 7, 10")];
               [("name", VStr "B"); ("length", VNum (Dec false 2 (-1)));
                ("gn", VStr "10")]]);
        ("name", VStr "F"); ("length", VNum num_zero)].
Proof.
  split; [|split; [|split; [|split]]].
  - intros branchset parent label before after k v Hl Hp Hn Hk Ha.
    cbn [translateNode].
    rewrite translateText_tag_value by assumption.
    split; [reflexivity|]. intros Hv. now rewrite before_char_absent.
  - apply setAttr_proto.
  - intros node pair k n. apply setAttr_stores_no_number.
  - intros str i s st. apply loop_inside_comment.
  - vm_compute. reflexivity.
Qed.

Lemma nhx_tag_values_are_raw_strings_witness :
  get_prop "b"
    (translateNode
       (RawNode None None (Some (nhx_text "A:0.1" (["gn=10"] ++ ("b" ++ "=" ++ "6, 7, 10") :: [])))))
  = Some (VStr "6, 7, 10") /\
  get_prop "b"
    (translateNode
       (RawNode None None (Some (nhx_text "A:0.1" ([] ++ ("b" ++ "=" ++ "6, 7=x") :: [])))))
  = Some (VStr "6, 7") /\
  setAttr [("name", VStr "A")] "__proto__=x" = [("name", VStr "A")] /\
  loop "A[&&NHX:b=6, 7, 10]," 2 "&&NHX:b=6, 7, 10"
    (mkState [mkCell (Some []) None None] (Some root) 0 true None)
  = OK (mkState [mkCell (Some []) None None] (Some root) 0 true None).
Proof.
  split; [|split; [|split]].
  - apply (proj1 nhx_tag_values_are_raw_strings None None "A:0.1" ["gn=10"] [] "b" "6, 7, 10").
    + reflexivity.
    + repeat constructor.
    + discriminate.
    + reflexivity.
    + constructor.
    + reflexivity.
  - apply (proj1 nhx_tag_values_are_raw_strings None None "A:0.1" [] [] "b" "6, 7=x").
    + reflexivity.
    + repeat constructor.
    + discriminate.
    + reflexivity.
    + constructor.
  - apply (proj1 (proj2 nhx_tag_values_are_raw_strings)). reflexivity.
  - apply (proj1 (proj2 (proj2 (proj2 nhx_tag_values_are_raw_strings)))); reflexivity.
Defined.

(** C5, as the claim states it, fails: the value of the pair [a=b=c]
    is ["b"], not the remainder ["b=c"] after the first equals sign. *)
Lemma tag_value_stops_at_second_equals :
  get_prop "a" (setAttr [] "a=b=c") = Some (VStr "b") /\
  get_prop "a" (setAttr [] "a=b=c") <> Some (VStr "b=c").
Proof. split; [reflexivity | vm_compute; discriminate]. Qed.

(** C5, amended.  A tag pair is split at every equals sign: what stands
    before the first one is the key, what stands between the first and
    the second one (or the end of the pair) is the value, and what
    follows a second equals sign is dropped. *)
Theorem tag_pair_split_at_every_equals (node : obj) (k v : string) :
  has_char "=" k = false -> has_char "=" v = false ->
  setAttr node (k ++ "=" ++ v) = set_prop k (VStr v) node /\
  forall w, setAttr node (k ++ "=" ++ v ++ "=" ++ w) = set_prop k (VStr v) node.
Proof.
  intros Hk Hv. split.
  - now apply setAttr_pair.
  - intros w. now apply setAttr_pair_more.
Qed.

Lemma tag_pair_split_at_every_equals_witness :
  setAttr [] ("gn" ++ "=" ++ "10") = set_prop "gn" (VStr "10") [] /\
  forall w, setAttr [] ("gn" ++ "=" ++ "10" ++ "=" ++ w) = set_prop "gn" (VStr "10") [].
Proof.
  apply (tag_pair_split_at_every_equals [] "gn" "10"); reflexivity.
Defined.




(** C7, as the claim states it, fails on the empty input: [parse] does
    not return; it throws when [deleteParentAttr] receives [undefined]. *)
Lemma parse_empty_input_throws :
  parse "" = TypeError /\ forall o, parse "" <> OK o.
Proof. split; [reflexivity | intros o; vm_compute; discriminate]. Qed.

(** C7, amended.  On the empty input, and on every input without
    parenthesis, comma and final semicolon, [tokenize] completes and
    yields [undefined], and [parse] then throws a TypeError.  An input
    whose scan ends in a context that holds an entry is parsed without
    an error, also when the final comma is missing: ["(A)B"] gives a
    tree whose root has its child A but neither name nor length. *)
Theorem parse_without_final_boundary :
  (forall s, no_boundary s ->
     tokenize (appendBoundaries s) = OK None /\ parse s = TypeError) /\
  (forall s st c e others,
     scan (appendBoundaries s) = OK st ->
     current st = Some c ->
     branchset_of (store st) c = Some (e :: others) ->
     exists o, parse s = OK o) /\
  parse "(A)B"
  = OK [("branchset", VArr [[("name", VStr "A"); ("length", VNum num_zero)]])].
Proof.
  split; [|split].
  - intros s H. pose proof (tokenize_no_boundary s H) as E.
    split; [exact E|]. unfold parse. now rewrite E.
  - intros s st c e others Hscan Hcur Hc.
    destruct (parse_first_entry s st c e others Hscan Hcur Hc) as (n & _ & E).
    exists (translateNode (deleteParentAttr n)). exact E.
  - vm_compute. reflexivity.
Qed.

Lemma parse_without_final_boundary_witness :
  (no_boundary "" /\ tokenize (appendBoundaries "") = OK None /\ parse "" = TypeError) /\
  (no_boundary "A:0.1" /\ parse "A:0.1" = TypeError) /\
  exists o, parse "(A)B" = OK o.
Proof.
  split; [|split].
  - split; [now repeat split|].
    apply (proj1 parse_without_final_boundary ""). now repeat split.
  - split; [now repeat split|].
    apply (proj1 parse_without_final_boundary "A:0.1"). now repeat split.
  - eapply (proj1 (proj2 parse_without_final_boundary) "(A)B" _ root 1%nat []).
    + vm_compute. reflexivity.
    + reflexivity.
    + reflexivity.
Defined.

(** C8. The normalizer is not idempotent: on every string that contains
    a closing parenthesis, a second application inserts commas again, so
    its result differs from that of one application. *)
Theorem appendBoundaries_not_idempotent (s : string) :
  has_char ")" s = true ->
  appendBoundaries (appendBoundaries s) <> appendBoundaries s.
Proof.
  intros H E.
  apply (f_equal String.length) in E.
  rewrite (length_appendBoundaries (appendBoundaries s)) in E.
  rewrite count_appendBoundaries in E.
  apply has_char_count in H. lia.
Qed.

Lemma appendBoundaries_not_idempotent_witness :
  has_char ")" "(A:0.1,B:0.2)F;" = true /\
  appendBoundaries (appendBoundaries "(A:0.1,B:0.2)F;")
  <> appendBoundaries "(A:0.1,B:0.2)F;".
Proof.
  split; [reflexivity|].
  apply (appendBoundaries_not_idempotent "(A:0.1,B:0.2)F;"). reflexivity.
Defined.

(** C9. The tags of the comment are stored after the name and the
    length were set and after the children were translated: when the
    comment holds a tag whose key is [name], [length] or [branchset],
    the field of that name in the final node is the string value of the
    (last such) tag, whatever the label and the children were. *)
Theorem nhx_tag_overwrites_structural_field
        (branchset : option (list rawnode)) (parent : option nat)
        (label : string) (before after : list string) (k v : string) :
  k = "name" \/ k = "length" \/ k = "branchset" ->
  has_char "[" label = false ->
  Forall (fun p => has_char ":" p = false /\ has_char "[" p = false)
         (before ++ (k ++ "=" ++ v) :: after) ->
  has_char "=" v = false ->
  Forall (fun p => key_of p <> k) after ->
  get_prop k
    (translateNode
       (RawNode branchset parent
          (Some (nhx_text label (before ++ (k ++ "=" ++ v) :: after)))))
  = Some (VStr v).
Proof.
  intros Hk Hl Hp Hv Ha.
  assert (Hn : k <> "__proto__") by (destruct Hk as [->|[->| ->]]; discriminate).
  assert (He : has_char "=" k = false) by (destruct Hk as [->|[->| ->]]; reflexivity).
  cbn [translateNode]. rewrite translateText_tag_value by assumption.
  now rewrite before_char_absent.
Qed.

Lemma nhx_tag_overwrites_structural_field_witness :
  get_prop "length"
    (translateNode
       (RawNode None None
          (Some (nhx_text "A:0.1" ([] ++ ("length" ++ "=" ++ "9") :: ["gn=10"])))))
  = Some (VStr "9") /\
  get_prop "branchset"
    (translateNode
       (RawNode (Some [RawNode None None (Some "C")]) None
          (Some (nhx_text "E:0.5" ([] ++ ("branchset" ++ "=" ++ "zz") :: [])))))
  = Some (VStr "zz").
Proof.
  split.
  - apply (nhx_tag_overwrites_structural_field None None "A:0.1" [] ["gn=10"] "length" "9").
    + right; left; reflexivity.
    + reflexivity.
    + repeat constructor.
    + reflexivity.
    + repeat constructor. vm_compute. discriminate.
  - apply (nhx_tag_overwrites_structural_field
             (Some [RawNode None None (Some "C")]) None "E:0.5" [] [] "branchset" "zz").
    + right; right; reflexivity.
    + reflexivity.
    + repeat constructor.
    + reflexivity.
    + constructor.
Defined.

(** C10, as the claim states it, fails for the pair [__proto__]: the
    assignment [node["__proto__"] = undefined] reaches the accessor that
    the node inherits, so no key is stored and the node is the one of
    the label alone. *)
Lemma nhx_pair_proto_stores_no_key :
  get_prop "__proto__" (setNhxAttrs [("name", VStr "A")] "__proto__") = None /\
  setNhxAttrs [("name", VStr "A")] "__proto__" = [("name", VStr "A")] /\
  parse "A[&&NHX:__proto__];" = OK [("name", VStr "A"); ("length", VNum num_zero)].
Proof. split; [|split]; vm_compute; reflexivity. Qed.

(** C10, amended.  A tag pair without equals sign neither throws nor is
    skipped: the pair is assigned as a key with the value [undefined],
    and the pairs and the nodes after it are handled as usual.  When the
    pair is not [__proto__] the assignment stores the whole pair text as
    a key whose value is [undefined]; the pair [__proto__] stores
    nothing and leaves the node as the other pairs make it. *)
Theorem nhx_pair_without_equals
        (node : obj) (before after : list string) (pair : string) :
  has_char "=" pair = false ->
  Forall (fun p => has_char ":" p = false) (before ++ pair :: after) ->
  String.concat ":" (before ++ pair :: after) <> "" ->
  setNhxAttrs node (String.concat ":" (before ++ pair :: after))
  = fold_left setAttr after (set_prop pair VUndef (fold_left setAttr before node)) /\
  (pair <> "__proto__" ->
   Forall (fun p => key_of p <> pair) after ->
   get_prop pair (setNhxAttrs node (String.concat ":" (before ++ pair :: after)))
   = Some VUndef) /\
  (pair = "__proto__" ->
   setNhxAttrs node (String.concat ":" (before ++ pair :: after))
   = fold_left setAttr after (fold_left setAttr before node)) /\
  parse "(A:0.1[&&NHX:flag:gn=10],B:0.2)F;"
  = OK [("branchset",
         VArr [[("name", VStr "A"); ("length", VNum (Dec false 1 (-1)));
                ("flag", VUndef); ("gn", VStr "10")];
               [("name", VStr "B"); ("length", VNum (Dec false 2 (-1)))]]);
        ("name", VStr "F"); ("length", VNum num_zero)].
Proof.
  intros Hp Hc Hne.
  assert (E : setNhxAttrs node (String.concat ":" (before ++ pair :: after))
              = fold_left setAttr after
                  (set_prop pair VUndef (fold_left setAttr before node))).
  { rewrite setNhxAttrs_pairs by assumption.
    rewrite fold_left_app. cbn [fold_left].
    now rewrite setAttr_no_equals. }
  split; [exact E|]. split; [|split; [|vm_compute; reflexivity]].
  - intros Hn Ha. rewrite E, get_fold_setAttr_other by exact Ha.
    now apply get_set_same.
  - intros Hn. rewrite E, Hn. now rewrite set_prop_proto.
Qed.

Lemma nhx_pair_without_equals_witness :
  setNhxAttrs [] (String.concat ":" (["gn=10"] ++ "flag" :: ["b=6, 7, 10"]))
  = fold_left setAttr ["b=6, 7, 10"]
      (set_prop "flag" VUndef (fold_left setAttr ["gn=10"] [])) /\
  get_prop "flag"
    (setNhxAttrs [] (String.concat ":" (["gn=10"] ++ "flag" :: ["b=6, 7, 10"])))
  = Some VUndef /\
  setNhxAttrs [] (String.concat ":" (["gn=10"] ++ "__proto__" :: ["b=6, 7, 10"]))
  = fold_left setAttr ["b=6, 7, 10"] (fold_left setAttr ["gn=10"] []).
Proof.
  destruct (nhx_pair_without_equals [] ["gn=10"] ["b=6, 7, 10"] "flag") as (E & G & _).
  - reflexivity.
  - repeat constructor.
  - vm_compute. discriminate.
  - split; [exact E|]. split.
    + apply G; [discriminate|]. repeat constructor. vm_compute. discriminate.
    + apply (nhx_pair_without_equals [] ["gn=10"] ["b=6, 7, 10"] "__proto__").
      * reflexivity.
      * repeat constructor.
      * vm_compute. discriminate.
      * reflexivity.
Defined.


(** * Further properties of the code *)

(** ** The normalizer *)

Section NormalizerMore.

Lemma ends_with_replace_at_end (c x : ascii) (s : string) :
  Ascii.eqb x c = false ->
  ends_with c (JsString.replace_at_end c (String x "") s) = false.
Proof.
  intros Hx. induction s as [|a s IH]; [reflexivity|].
  destruct s as [|b s'].
  - simpl. destruct (Ascii.eqb a c) eqn:E; simpl; [exact Hx | exact E].
  - rewrite replace_at_end_cons by discriminate.
    destruct (JsString.replace_at_end c (String x "") (String b s')) eqn:E.
    + apply (f_equal String.length) in E.
      rewrite length_replace_at_end in E. discriminate.
    + exact IH.
Qed.

Lemma paren_depth_replace_at_end (d : nat) (s : string) :
  paren_depth d (JsString.replace_at_end ";" "," s) = paren_depth d s.
Proof.
  revert d. induction s as [|a s IH]; intros d; [reflexivity|].
  destruct s as [|b s'].
  - simpl. destruct (Ascii.eqb a ";") eqn:E; [|reflexivity].
    apply Ascii.eqb_eq in E. subst a. reflexivity.
  - rewrite replace_at_end_cons by discriminate.
    cbn [paren_depth]. destruct (depth_step d a); [apply IH | reflexivity].
Qed.

Lemma in_comment_replace_at_end (b : bool) (s : string) :
  in_comment b (JsString.replace_at_end ";" "," s) = in_comment b s.
Proof.
  revert b. induction s as [|a s IH]; intros b; [reflexivity|].
  destruct s as [|c s'].
  - simpl. destruct (Ascii.eqb a ";") eqn:E; [|reflexivity].
    apply Ascii.eqb_eq in E. subst a. reflexivity.
  - rewrite replace_at_end_cons by discriminate.
    cbn [in_comment]. apply IH.
Qed.

End NormalizerMore.

(** X1. The normalizer changes neither the nesting of the parentheses nor
    the state of the comments that the tokenizer will see, and its
    result never ends with the terminator. *)
Theorem appendBoundaries_keeps_structure (s : string) :
  (forall d, paren_depth d (appendBoundaries s) = paren_depth d s) /\
  (forall b, in_comment b (appendBoundaries s) = in_comment b s) /\
  ends_with ";" (appendBoundaries s) = false.
Proof.
  unfold appendBoundaries. split; [|split].
  - intros d. now rewrite paren_depth_replace_at_end, paren_depth_normalized.
  - intros b. now rewrite in_comment_replace_at_end, in_comment_normalized.
  - now apply ends_with_replace_at_end.
Qed.

(** X2. The normalizer returns its input as it is exactly when the input
    holds no closing parenthesis and does not end with a semicolon. *)
Theorem appendBoundaries_identity_iff (s : string) :
  appendBoundaries s = s <->
  has_char ")" s = false /\ ends_with ";" s = false.
Proof.
  split.
  - intros E.
    assert (Hc : has_char ")" s = false).
    { destruct (has_char ")" s) eqn:H; [|reflexivity].
      apply has_char_count in H.
      apply (f_equal String.length) in E.
      rewrite length_appendBoundaries in E. lia. }
    split; [exact Hc|].
    rewrite <- E. unfold appendBoundaries.
    now apply ends_with_replace_at_end.
  - intros [Hc He]. unfold appendBoundaries.
    rewrite replace_all_absent by exact Hc.
    now apply replace_at_end_absent.
Qed.

Lemma appendBoundaries_identity_iff_witness :
  appendBoundaries "A:0.1[&&NHX:gn=10]" = "A:0.1[&&NHX:gn=10]".
Proof.
  apply (proj2 (appendBoundaries_identity_iff "A:0.1[&&NHX:gn=10]")).
  split; reflexivity.
Defined.

(** ** Names and lengths *)

Section NamesMore.

Lemma indexOf_char_absent_iff (c : ascii) (s : string) :
  (JsString.indexOf (String c "") s =? -1) = negb (has_char c s).
Proof.
  induction s as [|a s IH]; [reflexivity|].
  cbn [JsString.indexOf has_char].
  destruct (Ascii.eqb a c) eqn:E.
  - apply Ascii.eqb_eq in E. subst a.
    change (String c s) with (String c "" ++ s). rewrite prefix_append. reflexivity.
  - rewrite (prefix_head_neq _ _ _ _ E). cbn [orb].
    destruct (JsString.indexOf (String c "") s =? -1) eqn:Ei.
    + rewrite <- IH. reflexivity.
    + rewrite <- IH. apply Z.eqb_neq.
      pose proof (indexOf_lower (String c "") s). apply Z.eqb_neq in Ei. lia.
Qed.

End NamesMore.

(** X3. Whatever the label part is, the name that [setNameAndLength]
    stores is the text before its first colon (the whole label part when
    it has no colon), and without a colon the length is the number 0;
    the properties other than name and length are left as they are. *)
Theorem setNameAndLength_name (node : obj) (str : string) :
  get_prop "name" (setNameAndLength node str) = Some (VStr (before_char ":" str)) /\
  (has_char ":" str = false ->
   get_prop "length" (setNameAndLength node str) = Some (VNum num_zero)) /\
  (forall k, k <> "name" -> k <> "length" ->
   get_prop k (setNameAndLength node str) = get_prop k node).
Proof.
  unfold setNameAndLength.
  rewrite (indexOf_char_absent_iff ":" str), negb_involutive.
  destruct (has_char ":" str) eqn:Hc.
  - split; [|split; [discriminate|]].
    + rewrite get_set_other by discriminate. rewrite get_set_same by discriminate.
      unfold arr_get. now rewrite split_first_is_before_char.
    + intros k Hn Hl. rewrite !get_set_other by congruence. reflexivity.
  - rewrite (before_char_absent _ _ Hc).
    destruct (negb (JsString.len str =? 0)) eqn:El.
    + split; [|split].
      * rewrite get_set_other by discriminate. now apply get_set_same.
      * intros _. now apply get_set_same.
      * intros k Hn Hl. rewrite !get_set_other by congruence. reflexivity.
    + assert (str = "").
      { apply negb_false_iff, Z.eqb_eq in El. unfold JsString.len in El.
        destruct str; [reflexivity | simpl in El; lia]. }
      subst str. split; [|split].
      * rewrite get_set_other by discriminate. now apply get_set_same.
      * intros _. now apply get_set_same.
      * intros k Hn Hl. rewrite !get_set_other by congruence. reflexivity.
Qed.

Lemma setNameAndLength_name_witness :
  get_prop "length" (setNameAndLength [("gn", VStr "10")] "E") = Some (VNum num_zero) /\
  get_prop "gn" (setNameAndLength [("gn", VStr "10")] "E:0.5") = Some (VStr "10").
Proof.
  split.
  - apply (proj1 (proj2 (setNameAndLength_name [("gn", VStr "10")] "E"))). reflexivity.
  - apply (proj2 (proj2 (setNameAndLength_name [("gn", VStr "10")] "E:0.5")));
      discriminate.
Defined.

(** X4. Of a label part with several colons only the text between the
    first and the second colon is read as the length: what follows the
    second colon has no effect. *)
Theorem setNameAndLength_second_colon (node : obj) (name len rest : string) :
  has_char ":" name = false -> has_char ":" len = false ->
  setNameAndLength node (name ++ ":" ++ len ++ ":" ++ rest)
  = setNameAndLength node (name ++ ":" ++ len).
Proof.
  intros Hn Hl.
  rewrite !setNameAndLength_colon by exact Hn.
  do 3 f_equal.
  rewrite (before_char_absent _ _ Hl).
  clear Hn. induction len as [|a len IH]; [reflexivity|].
  simpl in Hl. apply orb_false_iff in Hl as [Ha Hl].
  change (String a len ++ ":" ++ rest) with (String a (len ++ ":" ++ rest)).
  cbn [before_char]. rewrite Ha. now rewrite IH.
Qed.

Lemma setNameAndLength_second_colon_witness :
  setNameAndLength [] ("A" ++ ":" ++ "0.1" ++ ":" ++ "x")
  = setNameAndLength [] ("A" ++ ":" ++ "0.1").
Proof.
  apply (setNameAndLength_second_colon [] "A" "0.1" "x"); reflexivity.
Defined.

(** ** Tags and translated nodes *)

Section TagsMore.

Lemma get_set_keeps (k k' : string) (v : value) (o : obj) :
  get_prop k o <> None -> get_prop k (set_prop k' v o) <> None.
Proof.
  intros H. destruct (String.eqb k' k) eqn:E.
  - apply String.eqb_eq in E. subst k'. unfold set_prop.
    destruct (String.eqb k "__proto__"); [exact H|].
    rewrite get_own_same. discriminate.
  - apply String.eqb_neq in E. now rewrite get_set_other.
Qed.

Lemma setAttr_keeps (k : string) (node : obj) (pair : string) :
  get_prop k node <> None -> get_prop k (setAttr node pair) <> None.
Proof.
  intros H. destruct (setAttr_key node pair) as [v E]. rewrite E.
  now apply get_set_keeps.
Qed.

Lemma fold_setAttr_keeps (k : string) (l : list string) (node : obj) :
  get_prop k node <> None -> get_prop k (fold_left setAttr l node) <> None.
Proof.
  revert node. induction l as [|p l IH]; intros node H; [exact H|].
  simpl. apply IH. now apply setAttr_keeps.
Qed.

Lemma fold_setAttr_sets (l : list string) (node : obj) (p : string) :
  key_of p <> "__proto__" ->
  In p l -> get_prop (key_of p) (fold_left setAttr l node) <> None.
Proof.
  intros Hp. revert node. induction l as [|q l IH]; intros node H; [now elim H|].
  simpl. destruct H as [->|H].
  - apply fold_setAttr_keeps.
    destruct (setAttr_key node p) as [v E].
    rewrite E, get_set_same by exact Hp. discriminate.
  - now apply IH.
Qed.

Lemma fold_setAttr_proto (l : list string) (node : obj) :
  Forall (fun p => key_of p = "__proto__") l -> fold_left setAttr l node = node.
Proof.
  induction 1 as [|p l Hp _ IH]; [reflexivity|].
  simpl. now rewrite setAttr_proto.
Qed.

Lemma setNhxAttrs_keeps (k : string) (node : obj) (text : string) :
  get_prop k node <> None -> get_prop k (setNhxAttrs node text) <> None.
Proof.
  intros H. unfold setNhxAttrs.
  destruct (JsString.len text =? 0); [exact H | now apply fold_setAttr_keeps].
Qed.

Lemma setNameAndLength_keeps (k : string) (node : obj) (str : string) :
  get_prop k node <> None -> get_prop k (setNameAndLength node str) <> None.
Proof.
  intros H. unfold setNameAndLength.
  destruct (negb _); [|destruct (negb _)]; now repeat apply get_set_keeps.
Qed.

Lemma setNameAndLength_sets (node : obj) (str : string) :
  get_prop "name" (setNameAndLength node str) <> None /\
  get_prop "length" (setNameAndLength node str) <> None.
Proof.
  unfold setNameAndLength.
  destruct (negb _); [|destruct (negb _)];
    (split; [apply get_set_keeps|]; rewrite get_set_same by discriminate; discriminate).
Qed.

Lemma translateText_keeps (k : string) (node : obj) (text : string) :
  get_prop k node <> None -> get_prop k (translateText node text) <> None.
Proof.
  intros H. unfold translateText.
  destruct (negb _).
  - now apply setNhxAttrs_keeps, setNameAndLength_keeps.
  - now apply setNameAndLength_keeps.
Qed.

Lemma translateText_sets (node : obj) (text : string) :
  get_prop "name" (translateText node text) <> None /\
  get_prop "length" (translateText node text) <> None.
Proof.
  unfold translateText.
  destruct (negb _).
  - split; apply setNhxAttrs_keeps; apply setNameAndLength_sets.
  - apply setNameAndLength_sets.
Qed.

End TagsMore.

(** X5. [setNhxAttrs] touches only the properties named by its pairs: a
    property whose key is the key of no pair keeps its value, a property
    that the node has is never removed, and when the attribute part is
    not empty every pair whose key is not [__proto__] leaves a property
    under its key; pairs whose key is [__proto__] change nothing. *)
Theorem setNhxAttrs_frame (node : obj) (text : string) :
  (forall k, Forall (fun p => key_of p <> k) (JsString.split ":" text) ->
     get_prop k (setNhxAttrs node text) = get_prop k node) /\
  (forall k, get_prop k node <> None -> get_prop k (setNhxAttrs node text) <> None) /\
  (forall p, text <> "" -> In p (JsString.split ":" text) ->
     key_of p <> "__proto__" ->
     get_prop (key_of p) (setNhxAttrs node text) <> None) /\
  (Forall (fun p => key_of p = "__proto__") (JsString.split ":" text) ->
     setNhxAttrs node text = node).
Proof.
  split; [|split; [|split]].
  - intros k H. unfold setNhxAttrs.
    destruct (JsString.len text =? 0); [reflexivity|].
    now apply get_fold_setAttr_other.
  - intros k. apply setNhxAttrs_keeps.
  - intros p Hne Hin Hp. unfold setNhxAttrs.
    destruct text as [|a text]; [now elim Hne|].
    change (JsString.len (String a text) =? 0) with false.
    now apply fold_setAttr_sets.
  - intros H. unfold setNhxAttrs.
    destruct (JsString.len text =? 0); [reflexivity|].
    now apply fold_setAttr_proto.
Qed.

Lemma setNhxAttrs_frame_witness :
  get_prop "name" (setNhxAttrs [("name", VStr "A")] "gn=10:b=6, 7, 10")
  = get_prop "name" [("name", VStr "A")] /\
  get_prop "name" (setNhxAttrs [("name", VStr "A")] "name") <> None /\
  get_prop (key_of "b=6, 7, 10") (setNhxAttrs [] "gn=10:b=6, 7, 10") <> None /\
  setNhxAttrs [("name", VStr "A")] "__proto__=x:__proto__" = [("name", VStr "A")].
Proof.
  split; [|split; [|split]].
  - apply (proj1 (setNhxAttrs_frame [("name", VStr "A")] "gn=10:b=6, 7, 10")).
    repeat constructor; vm_compute; discriminate.
  - apply (proj1 (proj2 (setNhxAttrs_frame [("name", VStr "A")] "name"))).
    vm_compute. discriminate.
  - apply (proj1 (proj2 (proj2 (setNhxAttrs_frame [] "gn=10:b=6, 7, 10")))).
    + discriminate.
    + vm_compute. right. left. reflexivity.
    + vm_compute. discriminate.
  - apply (proj2 (proj2 (proj2
             (setNhxAttrs_frame [("name", VStr "A")] "__proto__=x:__proto__")))).
    repeat constructor.
Defined.

(** X6. A translated node has the fields name and length exactly when
    the raw node had a text; translation never removes the branchset
    field of a node that has children (a tag can only overwrite it); and
    one closing bracket at the end of the text is ignored. *)
Theorem translateNode_fields :
  (forall branchset parent text,
     let node := translateNode (RawNode branchset parent (Some text)) in
     get_prop "name" node <> None /\ get_prop "length" node <> None) /\
  (forall branchset parent,
     let node := translateNode (RawNode branchset parent None) in
     get_prop "name" node = None /\ get_prop "length" node = None) /\
  (forall children parent text,
     get_prop "branchset" (translateNode (RawNode (Some children) parent text))
     <> None) /\
  (forall branchset parent text,
     ends_with "]" text = false ->
     translateNode (RawNode branchset parent (Some (text ++ "]")))
     = translateNode (RawNode branchset parent (Some text))).
Proof.
  split; [|split; [|split]].
  - intros branchset parent text node. subst node. cbn [translateNode].
    apply translateText_sets.
  - intros branchset parent node. subst node. cbn [translateNode].
    destruct branchset, parent; split; reflexivity.
  - intros children parent text. cbn [translateNode].
    destruct text as [t|].
    + apply translateText_keeps. simpl. discriminate.
    + simpl. discriminate.
  - intros branchset parent text He. cbn [translateNode].
    unfold translateText.
    rewrite replace_at_end_last, append_nil_r.
    now rewrite (replace_at_end_absent "]" "" text He).
Qed.

Lemma translateNode_fields_witness :
  translateNode (RawNode None None (Some ("A:0.1[&&NHX:gn=10" ++ "]")))
  = translateNode (RawNode None None (Some "A:0.1[&&NHX:gn=10")).
Proof.
  apply (proj2 (proj2 (proj2 translateNode_fields))). reflexivity.
Defined.

(** ** Labels in the scan *)

Section Labels.

(** The scan of a label changes at most the comment flag. *)
Lemma loop_label (str l : string) (i : Z) (st : tstate) :
  has_char "(" l = false -> has_char ")" l = false -> has_char "," l = false ->
  loop str i l st
  = OK (mkState (store st) (current st) (textBegin st)
          (in_comment (inNhxAttr st) l) (prevNode st)).
Proof.
  revert i st. induction l as [|c l IH]; intros i st Ho Hc Hm.
  - now destruct st.
  - simpl in Ho, Hc, Hm.
    apply orb_false_iff in Ho as [Ho Ho'].
    apply orb_false_iff in Hc as [Hc Hc'].
    apply orb_false_iff in Hm as [Hm Hm'].
    cbn [loop in_comment]. unfold step, comment_step. rewrite Ho, Hc, Hm.
    destruct (Ascii.eqb c "["); [|destruct (Ascii.eqb c "]")]; cbn [bind];
      rewrite IH by assumption; reflexivity.
Qed.

Lemma substring_middle (pre mid post : string) :
  String.substring (String.length pre) (String.length mid) (pre ++ mid ++ post) = mid.
Proof.
  induction pre as [|a pre IH]; [|exact IH].
  change ("" ++ mid ++ post) with (mid ++ post). cbn [String.length].
  induction mid as [|b mid IHm]; [now destruct post|].
  simpl. now rewrite IHm.
Qed.

Lemma substr_middle (pre mid post : string) :
  JsString.substr (pre ++ mid ++ post) (JsString.len pre)
    (JsString.len (pre ++ mid) - JsString.len pre) = mid.
Proof.
  unfold JsString.substr, JsString.len. rewrite !length_append.
  replace (Z.of_nat (String.length pre) <? 0) with false
    by (symmetry; apply Z.ltb_ge; lia).
  rewrite Z.min_l by lia.
  replace (Z.min _ _) with (Z.of_nat (String.length mid)) by lia.
  rewrite !Nat2Z.id. apply substring_middle.
Qed.

Lemma ends_with_append (c : ascii) (a b : string) :
  b <> "" -> ends_with c (a ++ b) = ends_with c b.
Proof.
  intros Hb. induction a as [|x a IH]; [reflexivity|].
  change (String x a ++ b) with (String x (a ++ b)).
  destruct (a ++ b) eqn:E; [|exact IH].
  destruct a; [now elim Hb | discriminate].
Qed.

Lemma ends_with_normalized (c : ascii) (s : string) :
  ends_with c (JsString.replace_all ")" ",)" s) = ends_with c s.
Proof.
  induction s as [|a s IH]; [reflexivity|].
  cbn [JsString.replace_all].
  destruct s as [|b s'].
  - destruct (Ascii.eqb a ")") eqn:E; [|reflexivity].
    apply Ascii.eqb_eq in E. subst a. reflexivity.
  - assert (Hne : JsString.replace_all ")" ",)" (String b s') <> "").
    { intros E. apply replace_all_empty in E. discriminate. }
    change (ends_with c (String a (String b s'))) with (ends_with c (String b s')).
    rewrite <- IH.
    destruct (Ascii.eqb a ")").
    + now apply ends_with_append.
    + now apply (ends_with_append c (String a "")).
Qed.

Lemma ends_with_unique (c d : ascii) (s : string) :
  ends_with c s = true -> Ascii.eqb c d = false -> ends_with d s = false.
Proof.
  induction s as [|a s IH]; [discriminate|].
  destruct s as [|b s']; [|exact IH].
  simpl. intros E Hd. apply Ascii.eqb_eq in E. now subst a.
Qed.

End Labels.

(** X7. An input that is one label followed by the terminator parses to
    the translation of that label: a tree of one node. *)
Theorem parse_single_leaf (l : string) :
  label_ok l -> parse (l ++ ";") = OK (translateText [] l).
Proof.
  intros (Ho & Hc & Hm & Hn).
  unfold parse. rewrite appendBoundaries_entry.
  rewrite replace_all_absent by exact Hc.
  unfold tokenize, scan. rewrite loop_append, loop_label by assumption.
  cbn [bind loop inNhxAttr init_state store current textBegin prevNode].
  rewrite Hn. unfold step. cbn [Ascii.eqb Bool.eqb inNhxAttr textBegin].
  change (0 - 1) with (-1).
  rewrite substr_before_start, last_str_ends_with, ends_with_append_char.
  cbn [Ascii.eqb Bool.eqb].
  replace (JsString.substr (l ++ ",") 0 (0 + JsString.len l - 0)) with l.
  - reflexivity.
  - symmetry. pose proof (substr_middle "" l ",") as H.
    change ("" ++ l ++ ",") with (l ++ ",") in H.
    change ("" ++ l) with l in H. change (JsString.len "") with 0 in H.
    now replace (0 + JsString.len l - 0) with (JsString.len l - 0) by lia.
Qed.

Lemma parse_single_leaf_witness :
  parse ("A:0.1[&&NHX:gn=10]" ++ ";") = OK (translateText [] "A:0.1[&&NHX:gn=10]").
Proof. apply (parse_single_leaf "A:0.1[&&NHX:gn=10]"). now repeat split. Defined.

(** X8. When the first entry of the input is a label and the input ends
    with a closing parenthesis (the terminator is missing), [parse]
    throws: at the first comma the test [substr(textBegin - 1, 1)] reads
    the last character of the input, and [prevNode] is still [null]. *)
Theorem parse_label_first_close_last_throws (l rest : string) :
  label_ok l -> ends_with ")" rest = true ->
  parse (l ++ "," ++ rest) = TypeError.
Proof.
  intros (Ho & Hc & Hm & Hn) He.
  assert (Hr : rest <> "") by (intros ->; discriminate).
  set (tail := JsString.replace_all ")" ",)" rest).
  assert (Ht : ends_with ")" tail = true)
    by (unfold tail; now rewrite ends_with_normalized).
  assert (Htn : tail <> "") by (intros E; rewrite E in Ht; discriminate).
  assert (Hend : ends_with ")" (l ++ String "," tail) = true).
  { rewrite ends_with_append by discriminate.
    change (String "," tail) with ("," ++ tail).
    now rewrite ends_with_append. }
  assert (E : appendBoundaries (l ++ "," ++ rest) = l ++ String "," tail).
  { unfold appendBoundaries. rewrite !replace_all_append.
    rewrite (replace_all_absent ")" ",)" l) by exact Hc.
    change (JsString.replace_all ")" ",)" ",") with ",". fold tail.
    apply replace_at_end_absent.
    apply (ends_with_unique ")" ";"); [exact Hend | reflexivity]. }
  unfold parse. rewrite E. unfold tokenize, scan.
  rewrite loop_append, loop_label by assumption.
  cbn [bind loop inNhxAttr init_state store current textBegin prevNode].
  rewrite Hn. unfold step. cbn [Ascii.eqb Bool.eqb inNhxAttr textBegin prevNode].
  change (0 - 1) with (-1).
  rewrite substr_before_start, last_str_ends_with, Hend.
  reflexivity.
Qed.

Lemma parse_label_first_close_last_throws_witness :
  parse ("A" ++ "," ++ "(B,C)") = TypeError.
Proof.
  apply (parse_label_first_close_last_throws "A" "(B,C)"); [now repeat split | reflexivity].
Defined.

(** X9. An input whose parentheses are balanced, in which no comment is
    left open and which ends with the terminator is parsed without an
    error: [parse] returns a node. *)
Theorem parse_well_formed_returns (s : string) :
  balanced s -> in_comment false s = false ->
  exists o, parse (s ++ ";") = OK o.
Proof.
  intros Hb Hc.
  assert (Hend : ends_with ")" ((JsString.replace_all ")" ",)" s ++ ",") ++ "") = false).
  { rewrite append_nil_r. apply ends_with_append_char. }
  destruct (scan_entry s "" Hb Hc Hend) as (st & e & more & E & _ & Cu & Bs & _).
  rewrite append_nil_r in E.
  destruct (parse_first_entry (s ++ ";") st root e more) as (n & _ & P);
    [|exact Cu | exact Bs|].
  - rewrite appendBoundaries_entry. exact E.
  - now exists (translateNode (deleteParentAttr n)).
Qed.

Lemma parse_well_formed_returns_witness :
  exists o, parse ("(A:0.1,(B,C)D[&&NHX:gn=1, 2])F" ++ ";") = OK o.
Proof.
  apply (parse_well_formed_returns "(A:0.1,(B,C)D[&&NHX:gn=1, 2])F"); reflexivity.
Defined.

(** ** A closing parenthesis that closes nothing *)

Section Unmatched.

Lemma parent_of_update_keep (h : heap) (p r : nat) (f : cell -> cell) :
  (forall c, c_parent (f c) = c_parent c) ->
  parent_of (update h p f) r = parent_of h r.
Proof.
  intros Hf. unfold parent_of. destruct (Nat.eq_dec p r) as [->|Hne].
  - rewrite nth_error_update_same. destruct (nth_error h r); simpl; [apply Hf | reflexivity].
  - now rewrite nth_error_update_other.
Qed.

Lemma parent_of_update_other (h : heap) (p r : nat) (f : cell -> cell) :
  p <> r -> parent_of (update h p f) r = parent_of h r.
Proof. intros H. unfold parent_of. now rewrite nth_error_update_other. Qed.

Lemma parent_of_alloc_old (h : heap) (c : cell) (r : nat) :
  (r < List.length h)%nat -> parent_of (h ++ [c])%list r = parent_of h r.
Proof. intros H. unfold parent_of. now rewrite nth_error_alloc_old. Qed.

(** A step changes no parent link of the objects that exist. *)
Lemma step_parents (str : string) (i : Z) (char : ascii) (st st' : tstate) :
  step str i char st = OK st' ->
  (List.length (store st) <= List.length (store st'))%nat /\
  forall r, (r < List.length (store st))%nat ->
            parent_of (store st') r = parent_of (store st) r.
Proof.
  unfold step. intros E.
  destruct (Ascii.eqb char "(").
  { unfold alloc, push_branchset in E.
    destruct (current st) as [p|]; [|discriminate].
    destruct (nth_error _ p) as [c|]; [|discriminate].
    destruct (c_branchset c) as [ids|]; [|discriminate].
    cbn [bind] in E. inversion E; subst st'. cbn [store]. split.
    - rewrite !length_update, length_app. simpl. lia.
    - intros r Hr. rewrite parent_of_update_other by lia.
      rewrite parent_of_update_keep by reflexivity.
      now apply parent_of_alloc_old. }
  destruct (Ascii.eqb char ")").
  { destruct (read_parent _ _); inversion E; subst st'. cbn [store]. now split. }
  destruct (Ascii.eqb char ",").
  { destruct (inNhxAttr st); [inversion E; subst st'; now split|].
    destruct (String.eqb _ ")").
    - unfold assign_text in E.
      destruct (prevNode st) as [q|]; [|discriminate].
      destruct (nth_error _ q); [|discriminate].
      cbn [bind] in E. inversion E; subst st'. cbn [store]. split.
      + rewrite length_update. lia.
      + intros r Hr. now apply parent_of_update_keep.
    - unfold alloc, push_branchset in E.
      destruct (current st) as [p|]; [|discriminate].
      destruct (nth_error _ p) as [c|]; [|discriminate].
      destruct (c_branchset c) as [ids|]; [|discriminate].
      cbn [bind] in E. inversion E; subst st'. cbn [store]. split.
      + rewrite length_update, length_app. simpl. lia.
      + intros r Hr. rewrite parent_of_update_keep by reflexivity.
        now apply parent_of_alloc_old. }
  destruct (Ascii.eqb char "["); [inversion E; subst st'; now split|].
  destruct (Ascii.eqb char "]"); inversion E; subst; now split.
Qed.

Lemma pdepth_keep (h h' : heap) (d c : nat) :
  (List.length h <= List.length h')%nat ->
  (forall r, (r < List.length h)%nat -> parent_of h' r = parent_of h r) ->
  pdepth h d c -> pdepth h' d c.
Proof.
  intros Hl Hp. revert c. induction d as [|d IH]; intros c.
  - intros [Hv Hn]. split; [lia|]. now rewrite Hp.
  - intros (p & Ep & Hd). exists p. split; [|now apply IH].
    rewrite Hp; [exact Ep|].
    unfold parent_of in Ep. apply nth_error_Some.
    destruct (nth_error h c); [discriminate | discriminate].
Qed.

(** Below the synthetic root the scan follows the depth of the
    parentheses, unless it throws. *)
Lemma step_depth (str : string) (i : Z) (char : ascii) (st : tstate) (d d' : nat) :
  state_wf st ->
  (exists c, current st = Some c /\ pdepth (store st) d c) ->
  depth_step d char = Some d' ->
  match step str i char st with
  | OK st' => state_wf st' /\ exists c, current st' = Some c /\ pdepth (store st') d' c
  | TypeError => True
  | Stuck => False
  end.
Proof.
  intros Wf (c & Hc & Hd) Hs.
  pose proof (step_wf str i char st Wf) as W.
  pose proof (step_parents str i char st) as P.
  destruct (step str i char st) as [st'| |] eqn:E; [|exact I | exact W].
  split; [exact W|]. destruct (P st' eq_refl) as [Pl Pp]. clear P.
  assert (Hd' : pdepth (store st') d c) by now apply (pdepth_keep (store st)).
  unfold depth_step in Hs. unfold step in E.
  destruct (Ascii.eqb char "(").
  { inversion Hs; subst d'. unfold alloc, push_branchset in E. rewrite Hc in E.
    destruct (nth_error _ c) as [cl|]; [|discriminate].
    destruct (c_branchset cl) as [ids|]; [|discriminate].
    cbn [bind] in E. inversion E; subst st'. cbn [store current] in *.
    exists (List.length (store st)). split; [reflexivity|].
    exists c. split; [|exact Hd'].
    unfold parent_of. rewrite nth_error_update_same.
    rewrite nth_error_update_other.
    - now rewrite nth_error_alloc_new.
    - pose proof (branchset_of_valid _ _ (swf_current _ Wf c Hc)). lia. }
  destruct (Ascii.eqb char ")").
  { destruct d as [|d0]; [discriminate|]. inversion Hs; subst d'.
    destruct Hd as (p & Ep & Hp).
    unfold read_parent in E. rewrite Hc in E. unfold parent_of in Ep.
    destruct (nth_error (store st) c) as [cl|]; [|discriminate].
    cbn [bind] in E. inversion E; subst st'. cbn [store current] in *.
    exists p. split; [exact Ep | exact Hp]. }
  inversion Hs; subst d'.
  assert (Hcur : current st' = current st).
  { destruct (Ascii.eqb char ",").
    - destruct (inNhxAttr st); [now inversion E|].
      match type of E with bind ?r _ = _ => destruct r; inversion E; reflexivity end.
    - destruct (Ascii.eqb char "["); [now inversion E|].
      destruct (Ascii.eqb char "]"); now inversion E. }
  exists c. split; [now rewrite Hcur | exact Hd'].
Qed.

(** Once the synthetic root is closed the scan cannot recover. *)
Lemma loop_after_root_closed (str rest : string) (i : Z) (st : tstate) :
  state_wf st -> current st = None ->
  match loop str i rest st with
  | OK st' => current st' = None
  | TypeError => True
  | Stuck => False
  end.
Proof.
  revert i st. induction rest as [|char rest IH]; intros i st Wf Hc; [exact Hc|].
  cbn [loop]. pose proof (step_wf str i char st Wf) as W.
  destruct (step str i char st) as [st'| |] eqn:E; cbn [bind]; [|exact I | exact W].
  apply IH; [exact W|]. unfold step in E. rewrite Hc in E.
  destruct (Ascii.eqb char "("); [unfold alloc in E; discriminate|].
  destruct (Ascii.eqb char ")"); [discriminate|].
  destruct (Ascii.eqb char ",").
  - destruct (inNhxAttr st); [inversion E; now subst|].
    match type of E with bind ?r _ = _ => destruct r; inversion E; reflexivity end.
  - destruct (Ascii.eqb char "["); [now inversion E|].
    destruct (Ascii.eqb char "]"); inversion E; subst; auto.
Qed.

Lemma loop_unmatched (str rest : string) (i : Z) (st : tstate) (d : nat) :
  state_wf st ->
  (exists c, current st = Some c /\ pdepth (store st) d c) ->
  paren_depth d rest = None ->
  match loop str i rest st with
  | OK st' => current st' = None
  | TypeError => True
  | Stuck => False
  end.
Proof.
  revert i st d. induction rest as [|char rest IH]; intros i st d Wf Hd Hp;
    [discriminate|].
  cbn [paren_depth] in Hp. cbn [loop].
  destruct (depth_step d char) as [d'|] eqn:Es.
  - pose proof (step_depth str i char st d d' Wf Hd Es) as S.
    destruct (step str i char st) as [st'| |]; cbn [bind]; [|exact I | exact S].
    destruct S as [W' Hd']. now apply (IH _ _ d').
  - (* the closing parenthesis that closes the synthetic root *)
    unfold depth_step in Es.
    destruct (Ascii.eqb char "(") eqn:E1; [discriminate|].
    destruct (Ascii.eqb char ")") eqn:E2; [|discriminate].
    destruct d; [|discriminate].
    destruct Hd as (c & Hc & Hv & Hn).
    pose proof (step_wf str i char st Wf) as W.
    unfold step in *. rewrite E1, E2 in *.
    unfold read_parent in *. rewrite Hc in *. unfold parent_of in Hn.
    destruct (nth_error (store st) c) as [cl|];
      [|exact W].
    cbn [bind] in *. rewrite Hn in *.
    now apply loop_after_root_closed.
Qed.

End Unmatched.

(** X10. An input in which a closing parenthesis closes nothing is never
    parsed: [parse] throws. *)
Theorem parse_unmatched_close_throws (s : string) :
  paren_depth 0 s = None -> parse s = TypeError.
Proof.
  intros H.
  assert (Hn : paren_depth 0 (appendBoundaries s) = None).
  { unfold appendBoundaries.
    now rewrite paren_depth_replace_at_end, paren_depth_normalized. }
  assert (H0 : exists c, current init_state = Some c /\ pdepth (store init_state) 0 c).
  { exists root. split; [reflexivity|]. split; [|reflexivity].
    unfold root. simpl. apply Nat.lt_0_1. }
  pose proof (loop_unmatched (appendBoundaries s) (appendBoundaries s) 0 init_state 0
                init_state_wf H0 Hn) as L.
  unfold parse, tokenize, scan.
  destruct (loop (appendBoundaries s) 0 (appendBoundaries s) init_state) as [st| |];
    cbn [bind].
  - unfold first_entry. now rewrite L.
  - reflexivity.
  - now elim L.
Qed.

Lemma parse_unmatched_close_throws_witness :
  parse "(A,B))C;" = TypeError /\ parse "A),B;" = TypeError.
Proof.
  split.
  - apply (parse_unmatched_close_throws "(A,B))C;"). reflexivity.
  - apply (parse_unmatched_close_throws "A),B;"). reflexivity.
Defined.

(** ** A group of leaves *)

Section FlatGroup.

Lemma concat_entries (labels : list string) :
  labels <> [] -> String.concat "," labels ++ "," = entries_text labels.
Proof.
  induction labels as [|x l IH]; [now intros H; elim H|]. intros _.
  destruct l as [|y l'].
  - reflexivity.
  - change (String.concat "," (x :: y :: l'))
      with (x ++ "," ++ String.concat "," (y :: l')).
    change (entries_text (x :: y :: l')) with (x ++ "," ++ entries_text (y :: l')).
    rewrite <- IH by discriminate.
    now rewrite !append_assoc.
Qed.

Lemma flat_heap_push (text : option string) (done : list string) (l : string) :
  push_branchset (flat_heap text done ++ [mkCell None None (Some l)])%list (Some 1%nat)
    (List.length (flat_heap text done))
  = OK (flat_heap text (done ++ [l])%list).
Proof.
  unfold flat_heap. cbn [push_branchset app nth_error c_branchset update List.length].
  rewrite length_map, length_app, map_app. cbn [List.length map].
  rewrite Nat.add_1_r, seq_S. reflexivity.
Qed.

Lemma len_append (a b : string) :
  JsString.len (a ++ b) = JsString.len a + JsString.len b.
Proof. unfold JsString.len. rewrite length_append. lia. Qed.

Lemma char_before (str pre' post : string) (c : ascii) :
  str = (pre' ++ String c "") ++ post ->
  JsString.substr str (JsString.len (pre' ++ String c "") - 1) 1 = String c "".
Proof.
  intros ->. apply substr_char.
  - rewrite len_append. unfold JsString.len. simpl. lia.
  - rewrite len_append.
    replace (Z.to_nat (JsString.len pre' + JsString.len (String c "") - 1))
      with (String.length pre') by (unfold JsString.len; simpl; lia).
    rewrite append_assoc. apply get_append_here.
Qed.

(** The scan of the entries of the group: each label becomes a leaf of
    the group, in the order of the text. *)
Lemma loop_entries (str : string) (todo done : list string) (pre' post : string) (c : ascii) :
  let pre := pre' ++ String c "" in
  str = pre ++ entries_text todo ++ post ->
  Ascii.eqb c ")" = false ->
  Forall label_ok todo ->
  loop str (JsString.len pre) (entries_text todo)
    (mkState (flat_heap None done) (Some 1%nat) (JsString.len pre) false None)
  = OK (mkState (flat_heap None (done ++ todo)%list) (Some 1%nat)
          (JsString.len (pre ++ entries_text todo)) false None).
Proof.
  revert done pre' c. induction todo as [|l todo IH]; intros done pre' c pre Hs Hc Hl.
  - cbn [entries_text loop]. now rewrite app_nil_r, append_nil_r.
  - apply Forall_cons_iff in Hl as [(Ho & Hcl & Hm & Hn) Hl'].
    cbn [entries_text].
    change (l ++ "," ++ entries_text todo) with (l ++ String "," (entries_text todo)).
    rewrite loop_append, loop_label by assumption.
    cbn [bind loop store current textBegin inNhxAttr prevNode]. rewrite Hn.
    assert (Hs' : str = pre ++ l ++ String "," (entries_text todo ++ post)).
    { rewrite Hs. cbn [entries_text]. now rewrite !append_assoc. }
    assert (Et : JsString.substr str (JsString.len pre)
                   (JsString.len pre + JsString.len l - JsString.len pre) = l).
    { rewrite Hs' at 1. rewrite <- len_append. apply substr_middle. }
    assert (Ec : String.eqb (JsString.substr str (JsString.len pre - 1) 1) ")" = false).
    { unfold pre. rewrite (char_before str pre' (entries_text (l :: todo) ++ post) c Hs).
      simpl. now rewrite Hc. }
    unfold step. cbn [Ascii.eqb Bool.eqb inNhxAttr textBegin store current prevNode].
    rewrite Et, Ec. unfold alloc. rewrite flat_heap_push. cbn [bind].
    assert (Hlen : JsString.len pre + JsString.len l + 1
                   = JsString.len ((pre' ++ String c "" ++ l) ++ String "," "")).
    { unfold pre. rewrite !len_append. change (JsString.len ",") with 1. lia. }
    rewrite Hlen.
    rewrite (IH (done ++ [l])%list (pre' ++ String c "" ++ l) ","%char);
      [| | reflexivity | exact Hl'].
    + rewrite <- app_assoc. cbn [app]. do 2 f_equal.
      unfold pre. now rewrite !append_assoc.
    + rewrite Hs. unfold pre. cbn [entries_text]. now rewrite !append_assoc.
Qed.

Lemma reify_leaves (f : nat) (pfx : heap) (ls : list string) :
  reify_list (reify (S f) (pfx ++ map (fun l => mkCell None None (Some l)) ls)%list)
    (seq (List.length pfx) (List.length ls))
  = Some (map leaf ls).
Proof.
  revert pfx. induction ls as [|l ls IH]; intros pfx; [reflexivity|].
  cbn [List.length seq map reify_list].
  replace (reify (S f) (pfx ++ mkCell None None (Some l)
                          :: map (fun l0 => mkCell None None (Some l0)) ls)%list
             (List.length pfx))
    with (Some (leaf l)).
  - specialize (IH (pfx ++ [mkCell None None (Some l)])%list).
    rewrite <- app_assoc, length_app in IH. cbn [app List.length] in IH.
    rewrite Nat.add_1_r in IH. now rewrite IH.
  - cbn [reify]. rewrite nth_error_app2, Nat.sub_diag by lia. reflexivity.
Qed.

Lemma reify_unfold (f : nat) (h : heap) (r : nat) :
  reify (S f) h r
  = match nth_error h r with
    | None => None
    | Some c =>
        match c_branchset c with
        | None => Some (RawNode None (c_parent c) (c_text c))
        | Some ids =>
            match reify_list (reify f h) ids with
            | Some ns => Some (RawNode (Some ns) (c_parent c) (c_text c))
            | None => None
            end
        end
    end.
Proof. reflexivity. Qed.

Lemma first_entry_flat (r : string) (labels : list string)
      (tb : Z) (b : bool) (pn : option nat) :
  first_entry (mkState (flat_heap (Some r) labels) (Some root) tb b pn)
  = OK (Some (RawNode (Some (map leaf labels)) (Some root) (Some r))).
Proof.
  unfold first_entry, flat_heap. cbn [current store].
  set (c0 := mkCell (Some [1%nat]) None None).
  set (c1 := mkCell (Some (seq 2 (List.length labels))) (Some root) (Some r)).
  set (ls := map (fun l => mkCell None None (Some l)) labels).
  change (nth_error (c0 :: c1 :: ls) root) with (Some c0).
  unfold c0 at 1. cbn [c_branchset].
  change (List.length (c0 :: c1 :: ls)) with (S (S (List.length ls))).
  rewrite reify_unfold.
  change (nth_error (c0 :: c1 :: ls) 1) with (Some c1).
  cbv iota.
  change (c_branchset c1) with (Some (seq (List.length [c0; c1]) (List.length labels))).
  change (c_parent c1) with (Some root). change (c_text c1) with (Some r).
  cbv iota.
  replace (List.length ls) with (List.length labels) by (unfold ls; now rewrite length_map).
  change (c0 :: c1 :: ls) with ([c0; c1] ++ ls)%list.
  unfold ls. now rewrite reify_leaves.
Qed.

Lemma translate_flat (labels : list string) (r : string) :
  translateNode (deleteParentAttr (RawNode (Some (map leaf labels)) (Some root) (Some r)))
  = translateText [("branchset", VArr (map (translateText []) labels))] r.
Proof.
  change (translateNode
            (deleteParentAttr (RawNode (Some (map leaf labels)) (Some root) (Some r))))
    with (translateText
            [("branchset",
              VArr (map translateNode (map deleteParentAttr (map leaf labels))))] r).
  now rewrite !map_map.
Qed.

End FlatGroup.

(** X11. A group of labels [(l1,...,ln)r;] parses to the node of [r]
    whose children are the nodes of [l1], ..., [ln], in this order: as
    many children as labels, each translated from its own text. *)
Theorem parse_flat_group (labels : list string) (r : string) :
  labels <> [] -> Forall label_ok labels -> label_ok r ->
  parse ("(" ++ String.concat "," labels ++ ")" ++ r ++ ";")
  = OK (translateText [("branchset", VArr (map (translateText []) labels))] r).
Proof.
  intros Hne Hl (Ho & Hc & Hm & Hn).
  set (body := entries_text labels).
  assert (Hcc : has_char ")" (String.concat "," labels) = false).
  { apply has_char_concat; [reflexivity|].
    eapply Forall_impl; [|exact Hl]. now intros l (_ & H & _). }
  assert (En : appendBoundaries ("(" ++ String.concat "," labels ++ ")" ++ r ++ ";")
               = ("(" ++ body) ++ String ")" (r ++ ",")).
  { replace ("(" ++ String.concat "," labels ++ ")" ++ r ++ ";")
      with (("(" ++ String.concat "," labels ++ ")" ++ r) ++ ";")
      by now rewrite !append_assoc.
    rewrite appendBoundaries_entry, !replace_all_append.
    rewrite (replace_all_absent ")" ",)" _ Hcc), (replace_all_absent ")" ",)" r Hc).
    change (JsString.replace_all ")" ",)" "(") with "(".
    change (JsString.replace_all ")" ",)" ")") with ",)".
    unfold body. rewrite <- (concat_entries labels Hne).
    now rewrite !append_assoc. }
  set (str := ("(" ++ body) ++ String ")" (r ++ ",")) in *.
  assert (Hstr : str = ("" ++ String "(" "") ++ entries_text labels ++ String ")" (r ++ ","))
    by reflexivity.
  pose proof (loop_entries str labels [] "" (String ")" (r ++ ",")) "("%char Hstr eq_refl Hl) as G.
  change ("" ++ String "(" "") with "(" in G. fold body in G. cbn [app] in G.
  (* the scan *)
  assert (Sc : scan str
               = OK (mkState (flat_heap (Some r) labels) (Some root)
                       (JsString.len ("(" ++ body) + 1 + JsString.len r + 1) false
                       (Some 1%nat))).
  { unfold scan.
    change (loop str 0 str init_state)
      with (bind (step str 0 "(" init_state)
              (loop str (0 + 1) (body ++ String ")" (r ++ ",")))).
    change (step str 0 "(" init_state)
      with (OK (mkState (flat_heap None []) (Some 1%nat) (JsString.len "(") false None)).
    cbn [bind]. change (0 + 1) with (JsString.len "(").
    rewrite loop_append, G. cbn [bind loop].
    replace (JsString.len "(" + JsString.len body) with (JsString.len ("(" ++ body))
      by apply len_append.
    change (step str (JsString.len ("(" ++ body)) ")"
              (mkState (flat_heap None labels) (Some 1%nat)
                 (JsString.len ("(" ++ body)) false None))
      with (OK (mkState (flat_heap None labels) (Some root)
                  (JsString.len ("(" ++ body) + 1) false (Some 1%nat))).
    cbn [bind]. rewrite loop_append, loop_label by assumption.
    cbn [bind loop store current textBegin inNhxAttr prevNode]. rewrite Hn.
    set (tb := JsString.len ("(" ++ body) + 1).
    assert (Htb : tb = JsString.len (("(" ++ body) ++ String ")" "")).
    { unfold tb. rewrite (len_append _ (String ")" "")). reflexivity. }
    assert (Hs2 : str = (("(" ++ body) ++ String ")" "") ++ r ++ ",").
    { unfold str. now rewrite !append_assoc. }
    assert (Et : JsString.substr str tb (tb + JsString.len r - tb) = r).
    { rewrite Htb. rewrite Hs2 at 1. rewrite <- len_append. apply substr_middle. }
    assert (Ec : String.eqb (JsString.substr str (tb - 1) 1) ")" = true).
    { rewrite Htb. now rewrite (char_before str ("(" ++ body) (r ++ ",") ")" Hs2). }
    unfold step. cbn [Ascii.eqb Bool.eqb inNhxAttr textBegin store current prevNode].
    rewrite Et, Ec. reflexivity. }
  unfold parse, tokenize. rewrite En, Sc. cbn [bind].
  rewrite first_entry_flat. cbn [bind]. now rewrite translate_flat.
Qed.

Lemma parse_flat_group_witness :
  parse ("(" ++ String.concat "," ["A:0.1"; ""; "C[&&NHX:gn=10]"] ++ ")" ++ "F" ++ ";")
  = OK (translateText
          [("branchset", VArr (map (translateText []) ["A:0.1"; ""; "C[&&NHX:gn=10]"]))]
          "F").
Proof.
  apply (parse_flat_group ["A:0.1"; ""; "C[&&NHX:gn=10]"] "F").
  - discriminate.
  - repeat constructor.
  - now repeat split.
Defined.

(** ** The shape of the store *)

Section StoreShape.

Lemma all_entries_alloc (h : heap) (bs : option (list nat)) (t : option string) :
  bs = None \/ bs = Some [] ->
  all_entries (h ++ [mkCell bs None t])%list = all_entries h.
Proof.
  intros H. unfold all_entries. rewrite flat_map_app. cbn [flat_map c_branchset].
  destruct H as [->| ->]; now rewrite !app_nil_r.
Qed.

Lemma all_entries_update_keep (h : heap) (r : nat) (f : cell -> cell) :
  (forall c, c_branchset (f c) = c_branchset c) ->
  all_entries (update h r f) = all_entries h.
Proof.
  intros Hf. revert r. induction h as [|c h IH]; intros [|r]; simpl; try reflexivity.
  - now rewrite Hf.
  - unfold all_entries in IH. now rewrite IH.
Qed.

Lemma all_entries_push (h : heap) (p x : nat) (c : cell) (ids : list nat) :
  nth_error h p = Some c -> c_branchset c = Some ids ->
  Permutation (x :: all_entries h)
    (all_entries (update h p (fun c0 => mkCell (Some (ids ++ [x])%list) (c_parent c0) (c_text c0)))).
Proof.
  revert p. induction h as [|c0 h IH]; intros [|p] E Hb; simpl in E; try discriminate.
  - inversion E; subst c0. unfold all_entries. cbn [update flat_map c_branchset].
    rewrite Hb, <- app_assoc. cbn [app]. apply Permutation_middle.
  - unfold all_entries in *. cbn [update flat_map].
    eapply Permutation_trans; [apply Permutation_middle|].
    apply Permutation_app_head. now apply IH.
Qed.

Lemma branchset_keeps (h h' : heap) (r : nat) :
  heap_ext h h' -> branchset_of h r <> None -> branchset_of h' r <> None.
Proof.
  intros X H. destruct (branchset_of h r) as [ids|] eqn:E; [|now elim H].
  destruct (heap_ext_branchset _ _ _ _ X E) as [more E']. now rewrite E'.
Qed.

(** A store that grew by a step: the old objects keep their parent link
    and their entries, [fresh] lists the new entries. *)
Lemma store_tree_grow (h h' : heap) (fresh : list nat) :
  store_tree h -> heap_ext h h' ->
  (List.length h <= List.length h')%nat ->
  (forall r, (r < List.length h)%nat -> parent_of h' r = parent_of h r) ->
  Permutation (fresh ++ all_entries h) (all_entries h') ->
  NoDup fresh ->
  Forall (fun x => (List.length h <= x < List.length h')%nat /\ (0 < x)%nat) fresh ->
  (forall r p, (List.length h <= r)%nat -> parent_of h' r = Some p ->
     branchset_of h' r <> None /\ exists ids, branchset_of h' p = Some ids /\ In r ids) ->
  store_tree h'.
Proof.
  intros [Nd Rg Pa] X Hl Hp Pm Nf Ff Hnew. split.
  - eapply Permutation_NoDup; [exact Pm|].
    apply NoDup_app; [exact Nf | exact Nd|]. intros x Hx Hx'.
    rewrite Forall_forall in Ff, Rg. specialize (Ff x Hx). specialize (Rg x Hx'). lia.
  - eapply Permutation_Forall; [exact Pm|].
    apply Forall_app. split.
    + eapply Forall_impl; [|exact Ff]. intros x Hx. cbv beta in Hx. lia.
    + eapply Forall_impl; [|exact Rg]. intros x Hx. cbv beta in Hx. lia.
  - intros r p E. destruct (Nat.lt_ge_cases r (List.length h)) as [Hlt|Hge].
    + rewrite Hp in E by exact Hlt. destruct (Pa r p E) as (Hb & ids & Ei & Hin).
      split; [now apply (branchset_keeps h)|].
      destruct (heap_ext_branchset _ _ _ _ X Ei) as [more Ei'].
      exists (ids ++ more)%list. split; [exact Ei' | apply in_or_app; now left].
    + now apply Hnew.
Qed.

Lemma init_store_tree : store_tree (store init_state).
Proof.
  split; simpl.
  - constructor.
  - constructor.
  - intros [|[|r]] p H; discriminate.
Qed.

Lemma parent_of_invalid (h : heap) (r : nat) :
  (List.length h <= r)%nat -> parent_of h r = None.
Proof.
  intros H. unfold parent_of. now rewrite (proj2 (nth_error_None h r) H).
Qed.

Lemma heap_ext_update_keep (h : heap) (r : nat) (f : cell -> cell) :
  (forall c, c_parent (f c) = c_parent c) ->
  (forall c, c_branchset (f c) = c_branchset c) ->
  heap_ext h (update h r f).
Proof.
  intros Hp Hb. apply heap_ext_update. intros c _. split.
  - intros p. now rewrite Hp.
  - intros ids E. exists []. now rewrite Hb, app_nil_r.
Qed.

Lemma heap_ext_push (h : heap) (p x : nat) (c : cell) (ids : list nat) :
  nth_error h p = Some c -> c_branchset c = Some ids ->
  heap_ext h (update h p (fun c0 => mkCell (Some (ids ++ [x])%list) (c_parent c0) (c_text c0))).
Proof.
  intros E Hb. apply heap_ext_update. intros c0 E0. rewrite E in E0.
  inversion E0; subst c0. split; [auto|].
  intros ids' H. rewrite Hb in H. inversion H; subst ids'. now exists [x].
Qed.

(** Every step keeps the shape of the store. *)
Lemma step_tree (str : string) (i : Z) (char : ascii) (st st' : tstate) :
  state_wf st -> store_tree (store st) ->
  step str i char st = OK st' -> store_tree (store st').
Proof.
  intros Wf T E.
  destruct (step_parents str i char st st' E) as [Hl Hp].
  set (h := store st) in *. set (n := List.length h) in *.
  unfold step in E.
  destruct (Ascii.eqb char "(").
  { unfold alloc, push_branchset in E.
    destruct (current st) as [p|] eqn:Hc; [|discriminate].
    assert (Hv : (p < n)%nat) by (apply branchset_of_valid, Wf, Hc).
    fold h in E. fold n in E.
    rewrite (nth_error_alloc_old h _ p Hv) in E.
    destruct (nth_error h p) as [c|] eqn:Ec; [|discriminate].
    destruct (c_branchset c) as [ids|] eqn:Eb; [|discriminate].
    cbn [bind] in E. inversion E; subst st'. cbn [store] in *. clear E.
    set (new := mkCell (Some []) None None) in *.
    set (hA := (h ++ [new])%list) in *.
    set (fpush := fun c0 => mkCell (Some (ids ++ [n])%list) (c_parent c0) (c_text c0)) in *.
    set (hB := update hA p fpush) in *.
    set (fpar := fun c0 => mkCell (c_branchset c0) (Some p) (c_text c0)) in *.
    assert (EcA : nth_error hA p = Some c)
      by (unfold hA; now rewrite nth_error_alloc_old).
    assert (EnB : nth_error hB n = Some new).
    { unfold hB. rewrite nth_error_update_other by lia. apply nth_error_alloc_new. }
    apply (store_tree_grow h (update hB n fpar) [n] T).
    - eapply heap_ext_trans; [apply heap_ext_alloc|].
      eapply heap_ext_trans; [apply (heap_ext_push hA p n c ids EcA Eb)|].
      apply heap_ext_update. intros c0 E0. fold hB in E0. rewrite EnB in E0.
      inversion E0; subst c0. split; [discriminate|].
      intros ids' H. exists []. now rewrite app_nil_r.
    - exact Hl.
    - exact Hp.
    - rewrite all_entries_update_keep by reflexivity.
      cbn [app]. rewrite <- (all_entries_alloc h (Some []) None (or_intror eq_refl)).
      apply (all_entries_push hA p n c ids EcA Eb).
    - repeat constructor. intros [].
    - repeat constructor; try lia.
      rewrite length_update. unfold hB. rewrite length_update. unfold hA.
      rewrite length_app. simpl. fold n. lia.
    - intros r q Hr Er.
      assert (r = n).
      { destruct (Nat.eq_dec r n) as [e|ne]; [exact e|].
        rewrite parent_of_update_other in Er by auto.
        unfold hB in Er. rewrite parent_of_update_keep in Er by reflexivity.
        rewrite parent_of_invalid in Er; [discriminate|].
        unfold hA. rewrite length_app. simpl. fold n. lia. }
      subst r. unfold parent_of in Er. rewrite nth_error_update_same, EnB in Er.
      inversion Er; subst q. split.
      + unfold branchset_of. rewrite nth_error_update_same, EnB. discriminate.
      + exists (ids ++ [n])%list. split; [|apply in_or_app; right; now left].
        unfold branchset_of. rewrite nth_error_update_other by lia.
        unfold hB. now rewrite nth_error_update_same, EcA. }
  destruct (Ascii.eqb char ")").
  { destruct (read_parent _ _); inversion E; subst st'. exact T. }
  destruct (Ascii.eqb char ",").
  { destruct (inNhxAttr st); [inversion E; subst st'; exact T|].
    destruct (String.eqb _ ")").
    - unfold assign_text in E.
      destruct (prevNode st) as [q|]; [|discriminate].
      fold h in E. destruct (nth_error h q); [|discriminate].
      cbn [bind] in E. inversion E; subst st'. cbn [store] in *. clear E.
      apply (store_tree_grow h _ [] T).
      + now apply heap_ext_update_keep.
      + exact Hl.
      + exact Hp.
      + cbn [app]. now rewrite all_entries_update_keep.
      + constructor.
      + constructor.
      + intros r p Hr Er. rewrite parent_of_invalid in Er; [discriminate|].
        rewrite length_update. exact Hr.
    - unfold alloc, push_branchset in E.
      destruct (current st) as [p|] eqn:Hc; [|discriminate].
      assert (Hv : (p < n)%nat) by (apply branchset_of_valid, Wf, Hc).
      fold h in E. fold n in E.
      rewrite (nth_error_alloc_old h _ p Hv) in E.
      destruct (nth_error h p) as [c|] eqn:Ec; [|discriminate].
      destruct (c_branchset c) as [ids|] eqn:Eb; [|discriminate].
      cbn [bind] in E. inversion E; subst st'. cbn [store] in *. clear E.
      set (t := JsString.substr str (textBegin st) (i - textBegin st)) in *.
      set (hA := (h ++ [mkCell None None (Some t)])%list) in *.
      assert (EcA : nth_error hA p = Some c)
        by (unfold hA; now rewrite nth_error_alloc_old).
      apply (store_tree_grow h _ [n] T).
      + eapply heap_ext_trans; [apply heap_ext_alloc|].
        apply (heap_ext_push hA p n c ids EcA Eb).
      + exact Hl.
      + exact Hp.
      + cbn [app]. rewrite <- (all_entries_alloc h None (Some t) (or_introl eq_refl)).
        apply (all_entries_push hA p n c ids EcA Eb).
      + repeat constructor. intros [].
      + repeat constructor; try lia.
        rewrite length_update. unfold hA. rewrite length_app. simpl. fold n. lia.
      + intros r q Hr Er. rewrite parent_of_update_keep in Er by reflexivity.
        destruct (Nat.eq_dec r n) as [->|ne].
        * unfold parent_of, hA in Er. unfold n in Er.
          rewrite nth_error_alloc_new in Er. discriminate.
        * rewrite parent_of_invalid in Er; [discriminate|].
          unfold hA. rewrite length_app. simpl. fold n. lia. }
  destruct (Ascii.eqb char "["); [inversion E; subst st'; exact T|].
  destruct (Ascii.eqb char "]"); inversion E; subst; exact T.
Qed.

Lemma loop_tree (str rest : string) (i : Z) (st st' : tstate) :
  state_wf st -> store_tree (store st) ->
  loop str i rest st = OK st' -> store_tree (store st').
Proof.
  revert i st. induction rest as [|char rest IH]; intros i st Wf T E.
  - inversion E; now subst.
  - cbn [loop] in E. pose proof (step_wf str i char st Wf) as W.
    destruct (step str i char st) as [st0| |] eqn:E0; try discriminate.
    cbn [bind] in E. apply (IH (i + 1)%Z st0 W); [|exact E].
    now apply (step_tree str i char st).
Qed.

Lemma scan_tree (str : string) (st : tstate) :
  scan str = OK st -> store_tree (store st).
Proof.
  intros E. unfold scan in E.
  exact (loop_tree str str 0 init_state st init_state_wf init_store_tree E).
Qed.

Lemma store_tree_leaves (h : heap) (r : nat) (c : cell) :
  store_tree h -> nth_error h r = Some c -> c_branchset c = None -> c_parent c = None.
Proof.
  intros T E Hb. destruct (c_parent c) as [p|] eqn:Ep; [|reflexivity].
  destruct (st_parent h T r p) as [H _].
  - unfold parent_of. now rewrite E.
  - elim H. unfold branchset_of. now rewrite E.
Qed.

(** X12. All through a scan the store is a forest: no object is an entry
    of two branchsets or twice of one, the synthetic root is no entry,
    every entry denotes an object, and an object with a parent link has
    a branchset of its own and is an entry of that parent. *)
Theorem scan_builds_a_tree (str : string) (st : tstate) :
  scan str = OK st ->
  NoDup (all_entries (store st)) /\
  ~ In root (all_entries (store st)) /\
  (forall x, In x (all_entries (store st)) -> (x < List.length (store st))%nat) /\
  (forall r p, parent_of (store st) r = Some p ->
     branchset_of (store st) r <> None /\
     exists ids, branchset_of (store st) p = Some ids /\ In r ids).
Proof.
  intros E. destruct (scan_tree str st E) as [Nd Rg Pa].
  rewrite Forall_forall in Rg. repeat split.
  - exact Nd.
  - intros H. apply Rg in H. unfold root in H. lia.
  - intros x H. now apply Rg in H.
  - now destruct (Pa r p H).
  - now destruct (Pa r p H).
Qed.

Lemma scan_builds_a_tree_witness :
  exists st, scan "(A,B,)C,D," = OK st /\ NoDup (all_entries (store st)).
Proof.
  eexists. split; [vm_compute; reflexivity|].
  apply (scan_builds_a_tree "(A,B,)C,D,"). vm_compute. reflexivity.
Defined.

End StoreShape.

(** ** The parent links and the returned tree *)

Section ParentLinks.

Lemma rawnode_nested_ind (P : rawnode -> Prop) :
  (forall p t, P (RawNode None p t)) ->
  (forall l p t, Forall P l -> P (RawNode (Some l) p t)) ->
  forall n, P n.
Proof.
  intros H0 H1. fix IH 1. intros [[l|] p t]; [|apply H0].
  apply H1. induction l as [|n l IHl]; constructor; [apply IH | exact IHl].
Qed.

Lemma forallb_map_Forall {A B : Type} (P : A -> bool) (Q : B -> bool)
    (f : A -> B) (l : list A) :
  Forall (fun a => P a = true -> Q (f a) = true) l ->
  forallb P l = true -> forallb Q (map f l) = true.
Proof.
  induction 1 as [|a l Ha _ IH]; intros H; [reflexivity|].
  simpl in *. apply andb_true_iff in H as [H1 H2].
  now rewrite (Ha H1), (IH H2).
Qed.

Lemma reify_list_forallb (f : nat -> option rawnode) (P : rawnode -> bool)
    (ids : list nat) (ns : list rawnode) :
  (forall r n, f r = Some n -> P n = true) ->
  reify_list f ids = Some ns -> forallb P ns = true.
Proof.
  intros Hf. revert ns. induction ids as [|k ids IH]; intros ns E; simpl in E.
  - inversion E. reflexivity.
  - destruct (f k) as [n|] eqn:Ek; [|discriminate].
    destruct (reify_list f ids) as [ns'|]; [|discriminate].
    inversion E. simpl. now rewrite (Hf k n Ek), (IH ns').
Qed.

Lemma reify_leaves_orphan (h : heap) (fuel r : nat) (n : rawnode) :
  (forall r c, nth_error h r = Some c -> c_branchset c = None -> c_parent c = None) ->
  reify fuel h r = Some n -> leaves_orphan n = true.
Proof.
  intros Hh. revert r n. induction fuel as [|fuel IH]; intros r n E; [discriminate|].
  cbn [reify] in E.
  destruct (nth_error h r) as [c|] eqn:Ec; [|discriminate].
  destruct (c_branchset c) as [ids|] eqn:Eb.
  - destruct (reify_list (reify fuel h) ids) as [ns|] eqn:El; [|discriminate].
    inversion E. cbn [leaves_orphan].
    exact (reify_list_forallb _ _ ids ns IH El).
  - inversion E. cbn [leaves_orphan]. now rewrite (Hh r c Ec Eb).
Qed.

Lemma tokenize_leaves_orphan (str : string) (n : rawnode) :
  tokenize str = OK (Some n) -> leaves_orphan n = true.
Proof.
  unfold tokenize. intros E.
  destruct (scan str) as [st| |] eqn:Es; try discriminate.
  cbn [bind] in E. unfold first_entry in E.
  destruct (current st); [|discriminate].
  destruct (nth_error (store st) n0); [|discriminate].
  destruct (c_branchset c) as [[|r ids]|]; try discriminate.
  destruct (reify _ _ r) as [n'|] eqn:Er; [|discriminate].
  inversion E; subst n'.
  apply (reify_leaves_orphan _ _ _ _ (fun r c => store_tree_leaves _ r c (scan_tree _ _ Es)) Er).
Qed.

Lemma set_prop_ref_free (k : string) (v : value) (o : obj) :
  ref_free v = true -> obj_ref_free o = true -> obj_ref_free (set_prop k v o) = true.
Proof.
  intros Hv. unfold set_prop. destruct (String.eqb k "__proto__"); [trivial|].
  unfold obj_ref_free. induction o as [|[k' v'] o IH]; intros H; simpl in *.
  - now rewrite Hv.
  - apply andb_true_iff in H as [H1 H2].
    destruct (String.eqb k' k); simpl.
    + now rewrite Hv, H2.
    + now rewrite H1, IH.
Qed.

Lemma arr_get_ref_free (a : list string) (i : nat) : ref_free (arr_get a i) = true.
Proof. unfold arr_get. now destruct (nth_error a i). Qed.

Lemma setNameAndLength_ref_free (node : obj) (str : string) :
  obj_ref_free node = true -> obj_ref_free (setNameAndLength node str) = true.
Proof.
  intros H. unfold setNameAndLength.
  destruct (negb _); [|destruct (negb _)];
    repeat apply set_prop_ref_free; try reflexivity; try apply arr_get_ref_free; exact H.
Qed.

Lemma setNhxAttrs_ref_free (node : obj) (text : string) :
  obj_ref_free node = true -> obj_ref_free (setNhxAttrs node text) = true.
Proof.
  intros H. unfold setNhxAttrs. destruct (JsString.len text =? 0); [exact H|].
  revert node H. induction (JsString.split ":" text) as [|p l IH]; intros node H; [exact H|].
  simpl. apply IH. unfold setAttr. apply set_prop_ref_free; [apply arr_get_ref_free | exact H].
Qed.

Lemma translateText_ref_free (node : obj) (text : string) :
  obj_ref_free node = true -> obj_ref_free (translateText node text) = true.
Proof.
  intros H. unfold translateText. destruct (negb _).
  - now apply setNhxAttrs_ref_free, setNameAndLength_ref_free.
  - now apply setNameAndLength_ref_free.
Qed.

Lemma translateNode_ref_free (n : rawnode) :
  parent_free n = true -> obj_ref_free (translateNode n) = true.
Proof.
  induction n as [p t|l p t IH] using rawnode_nested_ind; intros H;
    cbn [parent_free] in H; (destruct p; [discriminate|]);
    cbn [translateNode]; (destruct t; [apply translateText_ref_free|]).
  - reflexivity.
  - reflexivity.
  - unfold base_props, obj_ref_free. simpl. rewrite andb_true_r.
    now apply (forallb_map_Forall parent_free obj_ref_free).
  - unfold base_props, obj_ref_free. simpl. rewrite andb_true_r.
    now apply (forallb_map_Forall parent_free obj_ref_free).
Qed.

Lemma deleteParentAttr_parent_free_eq (n : rawnode) :
  parent_free (deleteParentAttr n) = leaves_orphan n.
Proof.
  induction n as [p t|l p t IH] using rawnode_nested_ind; [reflexivity|].
  cbn [deleteParentAttr parent_free leaves_orphan].
  induction IH as [|a l Ha _ IHl]; [reflexivity|].
  simpl. now rewrite Ha, IHl.
Qed.

Lemma deleteParentAttr_idem (n : rawnode) :
  deleteParentAttr (deleteParentAttr n) = deleteParentAttr n.
Proof.
  induction n as [p t|l p t IH] using rawnode_nested_ind; [reflexivity|].
  cbn [deleteParentAttr]. do 2 f_equal. rewrite map_map.
  induction IH as [|a l Ha _ IHl]; [reflexivity|].
  simpl. now rewrite Ha, IHl.
Qed.

(** X13. [deleteParentAttr] leaves a tree without any parent link
    exactly when no leaf of its argument carries one, since it deletes
    the link only on a node that has a branchset; applying it a second
    time changes nothing. *)
Theorem deleteParentAttr_removes_group_parents (n : rawnode) :
  parent_free (deleteParentAttr n) = leaves_orphan n /\
  deleteParentAttr (deleteParentAttr n) = deleteParentAttr n.
Proof.
  split; [apply deleteParentAttr_parent_free_eq | apply deleteParentAttr_idem].
Qed.

(** X14. The object [parse] returns holds no reference into the
    tokenizer's store, at any depth: the tokenizer sets a parent link
    only on an object that has a branchset, and [deleteParentAttr]
    removes the link from each of these. *)
Theorem parse_result_has_no_parent_link (str : string) (o : obj) :
  parse str = OK o -> obj_ref_free o = true.
Proof.
  unfold parse. intros E.
  destruct (tokenize (appendBoundaries str)) as [[n|]| |] eqn:Et; try discriminate.
  cbn [bind] in E. inversion E.
  apply translateNode_ref_free. rewrite deleteParentAttr_parent_free_eq.
  exact (tokenize_leaves_orphan _ n Et).
Qed.

Lemma parse_result_has_no_parent_link_witness :
  exists o, parse "((A,B)C,D)E;" = OK o /\ obj_ref_free o = true.
Proof.
  eexists. split; [vm_compute; reflexivity|].
  apply (parse_result_has_no_parent_link "((A,B)C,D)E;"). vm_compute. reflexivity.
Defined.

End ParentLinks.

(** ** Well-formed Newick trees *)

Section WellFormedTrees.

Ltac norm_app := repeat (rewrite ?append_assoc; cbn [append]).

Lemma tree_nested_ind (P : tree -> Prop) :
  (forall l, P (Leaf l)) ->
  (forall ts l, Forall P ts -> P (Group ts l)) ->
  forall t, P t.
Proof.
  intros H0 H1. fix IH 1. intros [l|ts l]; [apply H0|].
  apply H1. induction ts as [|t ts IHts]; constructor; [apply IH | exact IHts].
Qed.

Lemma Forall2_Forall_impl {A B : Type} (R R' : A -> B -> Prop) (l : list A) (l' : list B) :
  Forall (fun a => forall b, R a b -> R' a b) l -> Forall2 R l l' -> Forall2 R' l l'.
Proof.
  intros H F. induction F as [|a b l l' Hab _ IH]; constructor.
  - apply Forall_inv in H. now apply H.
  - apply IH. now apply Forall_inv_tail in H.
Qed.

Lemma Forall2_single {A B : Type} (R : A -> B -> Prop) (a : A) (l : list B) :
  Forall2 R [a] l -> exists b, l = [b] /\ R a b.
Proof.
  intros H. inversion H as [|? b ? l' Hab Hnil]; subst.
  inversion Hnil; subst. now exists b.
Qed.

(** The nodes of a tree are not touched by a change of other objects. *)
Lemma repr_frame (h h' : heap) (lo lo' : nat) (t : tree) (r : nat) :
  (lo' <= lo)%nat ->
  (forall k, (lo <= k < List.length h)%nat -> nth_error h' k = nth_error h k) ->
  repr h lo t r -> repr h' lo' t r.
Proof.
  intros Hlo Fr. revert r.
  induction t as [l|ts l IH] using tree_nested_ind; intros r H; inversion H; subst.
  - constructor; [lia|]. rewrite Fr; [assumption|].
    split; [assumption|]. apply nth_error_Some. congruence.
  - apply (repr_group h' lo' ts l r ids p); [lia| |].
    + rewrite Fr; [assumption|].
      split; [assumption|]. apply nth_error_Some. congruence.
    + now apply (Forall2_Forall_impl (repr h lo)).
Qed.

Lemma step_open_eq (str : string) (i : Z) (h : heap) (cur : nat) (c : cell)
      (ids : list nat) (tb : Z) (b : bool) (pv : option nat) :
  nth_error h cur = Some c -> c_branchset c = Some ids ->
  step str i "(" (mkState h (Some cur) tb b pv)
  = OK (mkState
          (update
             (update (h ++ [mkCell (Some []) None None])%list cur
                (fun c0 => mkCell (Some (ids ++ [List.length h])%list) (c_parent c0) (c_text c0)))
             (List.length h)
             (fun c0 => mkCell (c_branchset c0) (Some cur) (c_text c0)))
          (Some (List.length h)) (i + 1) b pv).
Proof.
  intros Ec Eb.
  assert (Hv : (cur < List.length h)%nat) by (apply nth_error_Some; congruence).
  unfold step. cbn [Ascii.eqb Bool.eqb store current inNhxAttr prevNode].
  unfold alloc, push_branchset.
  rewrite (nth_error_alloc_old h _ cur Hv), Ec, Eb. reflexivity.
Qed.

Lemma step_leaf_eq (str : string) (i : Z) (h : heap) (cur : nat) (c : cell)
      (ids : list nat) (tb : Z) (pv : option nat) :
  nth_error h cur = Some c -> c_branchset c = Some ids ->
  String.eqb (JsString.substr str (tb - 1) 1) ")" = false ->
  step str i "," (mkState h (Some cur) tb false pv)
  = OK (mkState
          (update (h ++ [mkCell None None (Some (JsString.substr str tb (i - tb)))])%list cur
             (fun c0 => mkCell (Some (ids ++ [List.length h])%list) (c_parent c0) (c_text c0)))
          (Some cur) (i + 1) false pv).
Proof.
  intros Ec Eb Hcb.
  assert (Hv : (cur < List.length h)%nat) by (apply nth_error_Some; congruence).
  unfold step. cbn [Ascii.eqb Bool.eqb store current inNhxAttr prevNode textBegin].
  rewrite Hcb. unfold alloc, push_branchset.
  rewrite (nth_error_alloc_old h _ cur Hv), Ec, Eb. reflexivity.
Qed.

Lemma step_close_eq (str : string) (i : Z) (h : heap) (g : nat) (c : cell)
      (tb : Z) (b : bool) (pv : option nat) :
  nth_error h g = Some c ->
  step str i ")" (mkState h (Some g) tb b pv)
  = OK (mkState h (c_parent c) (i + 1) b (Some g)).
Proof.
  intros Ec. unfold step.
  cbn [Ascii.eqb Bool.eqb store current inNhxAttr prevNode read_parent].
  now rewrite Ec.
Qed.

Lemma step_text_eq (str : string) (i : Z) (h : heap) (cur : option nat) (g : nat)
      (c : cell) (tb : Z) :
  nth_error h g = Some c ->
  String.eqb (JsString.substr str (tb - 1) 1) ")" = true ->
  step str i "," (mkState h cur tb false (Some g))
  = OK (mkState
          (update h g (fun c0 => mkCell (c_branchset c0) (c_parent c0)
                                   (Some (JsString.substr str tb (i - tb)))))
          cur (i + 1) false (Some g)).
Proof.
  intros Ec Hcb. unfold step.
  cbn [Ascii.eqb Bool.eqb store current inNhxAttr prevNode textBegin assign_text].
  now rewrite Hcb, Ec.
Qed.

Lemma substr_label (str pre l post : string) :
  str = pre ++ l ++ post ->
  JsString.substr str (JsString.len pre) (JsString.len pre + JsString.len l - JsString.len pre)
  = l.
Proof. intros ->. rewrite <- len_append. apply substr_middle. Qed.

Lemma char_before_eq (str pre post : string) (c : ascii) :
  str = (pre ++ String c "") ++ post ->
  String.eqb (JsString.substr str (JsString.len pre + 1 - 1) 1) ")" = Ascii.eqb c ")".
Proof.
  intros H.
  replace (JsString.len pre + 1) with (JsString.len (pre ++ String c ""))
    by (rewrite len_append; reflexivity).
  rewrite (char_before str pre post c H). simpl.
  now destruct (Ascii.eqb c ")").
Qed.

(** A leaf: its label, then the boundary at which it is created. *)
Lemma leaf_scanned (l : string) :
  label_ok l -> entries_scanned (l ++ ",") [Leaf l].
Proof.
  intros (Ho & Hc & Hm & Hn) str pre post h cur c ids pv Hs Hcb Ec Eb.
  assert (Hv : (cur < List.length h)%nat) by (apply nth_error_Some; congruence).
  set (n := List.length h).
  exists (update (h ++ [mkCell None None (Some l)])%list cur
            (fun c0 => mkCell (Some (ids ++ [n])%list) (c_parent c0) (c_text c0))),
    [n], pv.
  split; [|split; [|split; [|split]]].
  - rewrite loop_append, loop_label by assumption.
    cbn [bind loop store current textBegin inNhxAttr prevNode]. rewrite Hn.
    rewrite (step_leaf_eq str _ h cur c ids _ pv Ec Eb Hcb). cbn [bind].
    rewrite (substr_label str pre l ("," ++ post))
      by (rewrite Hs; now rewrite !append_assoc).
    fold n. do 2 f_equal.
    rewrite len_append. change (JsString.len ",") with 1. lia.
  - constructor; [|constructor]. constructor; [lia|].
    rewrite nth_error_update_other by lia. apply nth_error_alloc_new.
  - rewrite nth_error_update_same, nth_error_alloc_old, Ec by exact Hv. reflexivity.
  - intros k Hk Hne. rewrite nth_error_update_other by auto.
    now apply nth_error_alloc_old.
  - rewrite length_update, length_app. simpl. lia.
Qed.

(** The entries of a group, one after the other. *)
Lemma entries_scanned_cons (t : tree) (ts : list tree) (bt bs : string) :
  entries_scanned (bt ++ ",") [t] -> entries_scanned bs ts ->
  entries_scanned (bt ++ "," ++ bs) (t :: ts).
Proof.
  intros Ht Hts str pre post h cur c ids pv Hs Hcb Ec Eb.
  assert (Hv : (cur < List.length h)%nat) by (apply nth_error_Some; congruence).
  destruct (Ht str pre (bs ++ post) h cur c ids pv) as (h1 & rs1 & pv1 & L1 & R1 & C1 & F1 & G1);
    [rewrite Hs; now rewrite !append_assoc | assumption..|].
  destruct (Forall2_single _ _ _ R1) as (r & -> & Rr).
  assert (Hs2 : str = ((pre ++ bt) ++ String "," "") ++ bs ++ post)
    by (rewrite Hs; now rewrite !append_assoc).
  assert (Hl2 : JsString.len pre + JsString.len (bt ++ ",")
                = JsString.len ((pre ++ bt) ++ ",")) by now rewrite !len_append, Z.add_assoc.
  destruct (Hts str ((pre ++ bt) ++ ",") post h1 cur
              (mkCell (Some (ids ++ [r])%list) (c_parent c) (c_text c)) (ids ++ [r])%list pv1)
    as (h2 & rs2 & pv2 & L2 & R2 & C2 & F2 & G2).
  - exact Hs2.
  - rewrite (len_append (pre ++ bt)). change (JsString.len ",") with 1.
    now rewrite (char_before_eq str (pre ++ bt) (bs ++ post) "," Hs2).
  - exact C1.
  - reflexivity.
  - exists h2, (r :: rs2), pv2. split; [|split; [|split; [|split]]].
    + replace (bt ++ "," ++ bs) with ((bt ++ ",") ++ bs) by now rewrite append_assoc.
      rewrite loop_append, L1. cbn [bind]. rewrite Hl2, L2. do 2 f_equal.
      rewrite <- Hl2, !len_append. lia.
    + constructor.
      * apply (repr_frame h1 h2 (List.length h) (List.length h) t r (le_n _)); [|exact Rr].
        intros k Hk. apply F2; lia.
      * apply (Forall2_Forall_impl (repr h2 (List.length h1))); [|exact R2].
        apply Forall_forall. intros t' _ r' H'.
        apply (repr_frame h2 h2 (List.length h1) (List.length h) t' r' G1); [reflexivity|exact H'].
    + cbn [c_parent c_text] in C2. rewrite C2, <- app_assoc. reflexivity.
    + intros k Hk Hne. rewrite F2 by (auto; lia). now apply F1.
    + lia.
Qed.

Lemma entries_scanned_all (ts : list tree) :
  Forall (fun t => entries_scanned (normalized t ++ ",") [t]) ts ->
  entries_scanned (entries_text (map normalized ts)) ts.
Proof.
  induction 1 as [|t ts Ht _ IH].
  - intros str pre post h cur c ids pv Hs Hcb Ec Eb.
    exists h, [], pv. cbn [map entries_text loop].
    split; [|split; [|split; [|split]]].
    + do 2 f_equal. unfold JsString.len. simpl. lia.
    + constructor.
    + rewrite app_nil_r, Ec. now destruct c; simpl in *; subst.
    + reflexivity.
    + lia.
  - cbn [map entries_text]. now apply entries_scanned_cons.
Qed.

(** A group: the opening parenthesis, the entries, the closing
    parenthesis, the label, then the boundary at which the label is
    assigned. *)
Lemma group_scanned (ts : list tree) (l : string) :
  label_ok l ->
  entries_scanned (entries_text (map normalized ts)) ts ->
  entries_scanned (normalized (Group ts l) ++ ",") [Group ts l].
Proof.
  intros (Ho & Hc & Hm & Hn) Hts str pre post h cur c ids pv Hs Hcb Ec Eb.
  assert (Hv : (cur < List.length h)%nat) by (apply nth_error_Some; congruence).
  set (body := entries_text (map normalized ts)) in *.
  set (n := List.length h).
  assert (Eg : normalized (Group ts l) ++ "," = String "(" (body ++ String ")" (l ++ ","))).
  { cbn [normalized]. fold body. now rewrite !append_assoc. }
  rewrite Eg in Hs |- *.
  set (hA := (h ++ [mkCell (Some []) None None])%list).
  set (hB := update hA cur
               (fun c0 => mkCell (Some (ids ++ [n])%list) (c_parent c0) (c_text c0))).
  set (h1 := update hB n (fun c0 => mkCell (c_branchset c0) (Some cur) (c_text c0))).
  assert (E1n : nth_error h1 n = Some (mkCell (Some []) (Some cur) None)).
  { unfold h1. rewrite nth_error_update_same. unfold hB.
    rewrite nth_error_update_other by lia. unfold hA, n.
    now rewrite nth_error_alloc_new. }
  assert (E1c : nth_error h1 cur
                = Some (mkCell (Some (ids ++ [n])%list) (c_parent c) (c_text c))).
  { unfold h1. rewrite nth_error_update_other by lia. unfold hB.
    rewrite nth_error_update_same. unfold hA.
    now rewrite nth_error_alloc_old, Ec by exact Hv. }
  assert (F1 : forall k, (k < n)%nat -> k <> cur -> nth_error h1 k = nth_error h k).
  { intros k Hk Hne. unfold h1. rewrite nth_error_update_other by lia.
    unfold hB. rewrite nth_error_update_other by auto.
    now apply nth_error_alloc_old. }
  assert (L1 : List.length h1 = S n).
  { unfold h1, hB, hA. rewrite !length_update, length_app. simpl. fold n. lia. }
  assert (Hs1 : str = (pre ++ String "(" "") ++ body ++ String ")" (l ++ "," ++ post)).
  { rewrite Hs. now norm_app. }
  destruct (Hts str (pre ++ "(") (String ")" (l ++ "," ++ post)) h1 n
              (mkCell (Some []) (Some cur) None) [] pv)
    as (h2 & rs & pv2 & L2 & R2 & C2 & F2 & G2).
  - exact Hs1.
  - rewrite len_append. change (JsString.len "(") with 1.
    now rewrite (char_before_eq str pre _ "(" Hs1).
  - exact E1n.
  - reflexivity.
  - cbn [app c_parent c_text] in C2.
    set (tb := JsString.len (pre ++ "(") + JsString.len body + 1) in *.
    assert (Hs3 : str = (((pre ++ "(") ++ body) ++ String ")" "") ++ l ++ "," ++ post).
    { rewrite Hs. now norm_app. }
    assert (Htb : tb = JsString.len (((pre ++ "(") ++ body) ++ String ")" "")).
    { unfold tb. now rewrite !len_append. }
    set (h3 := update h2 n (fun c0 => mkCell (c_branchset c0) (c_parent c0) (Some l))).
    exists h3, [n], (Some n). split; [|split; [|split; [|split]]].
    + cbn [loop]. rewrite (step_open_eq str _ h cur c ids _ false pv Ec Eb).
      fold n hA hB h1. cbn [bind].
      replace (JsString.len pre + 1) with (JsString.len (pre ++ "("))
        by (rewrite len_append; reflexivity).
      rewrite loop_append, L2. cbn [bind loop].
      rewrite (step_close_eq str _ h2 n _ _ false pv2 C2). cbn [bind c_parent].
      fold tb. rewrite loop_append, loop_label by assumption.
      cbn [bind loop store current textBegin inNhxAttr prevNode]. rewrite Hn.
      rewrite (step_text_eq str _ h2 (Some cur) n _ tb C2).
      * cbn [bind].
        assert (Et : JsString.substr str tb (tb + JsString.len l - tb) = l)
          by (rewrite Htb; apply (substr_label str _ l ("," ++ post) Hs3)).
        rewrite Et. fold h3.
        do 2 f_equal. unfold tb.
        change (String "(" (body ++ String ")" (l ++ ",")))
          with ("(" ++ body ++ ")" ++ l ++ ",").
        rewrite !len_append. change (JsString.len ",") with 1.
        change (JsString.len "(") with 1. change (JsString.len ")") with 1. lia.
      * rewrite Htb, len_append. change (JsString.len (String ")" "")) with 1.
        now rewrite (char_before_eq str ((pre ++ "(") ++ body) _ ")" Hs3).
    + constructor; [|constructor].
      apply (repr_group h3 n ts l n rs cur); [lia| |].
      * unfold h3. now rewrite nth_error_update_same, C2.
      * apply (Forall2_Forall_impl (repr h2 (List.length h1))); [|exact R2].
        apply Forall_forall. intros t' _ r' H'.
        apply (repr_frame h2 h3 (List.length h1) n t' r'); [lia| |exact H'].
        intros k Hk. unfold h3. apply nth_error_update_other. lia.
    + unfold h3. rewrite nth_error_update_other by lia.
      rewrite F2 by lia. exact E1c.
    + intros k Hk Hne. unfold h3. rewrite nth_error_update_other by (fold n in Hk; lia).
      rewrite F2 by (fold n in Hk; lia). apply F1; assumption.
    + unfold h3. rewrite length_update. fold n. lia.
Qed.

Lemma tree_scanned (t : tree) :
  tree_ok t -> entries_scanned (normalized t ++ ",") [t].
Proof.
  induction t as [l|ts l IH] using tree_nested_ind; intros H; inversion H; subst.
  - now apply leaf_scanned.
  - apply group_scanned; [assumption|]. apply entries_scanned_all.
    rewrite Forall_forall in *. intros t Ht. apply IH; auto.
Qed.

(** The normalizer on the text of a tree. *)
Lemma replace_all_entries (ts : list tree) :
  ts <> [] ->
  Forall (fun t => JsString.replace_all ")" ",)" (newick t) = normalized t) ts ->
  JsString.replace_all ")" ",)" (String.concat "," (map newick ts)) ++ ","
  = entries_text (map normalized ts).
Proof.
  induction ts as [|t ts IH]; [now intros H; elim H|]. intros _ H.
  apply Forall_cons_iff in H as [Ht Hts].
  destruct ts as [|t' ts'].
  - cbn [map String.concat entries_text]. now rewrite Ht.
  - change (String.concat "," (map newick (t :: t' :: ts')))
      with (newick t ++ "," ++ String.concat "," (map newick (t' :: ts'))).
    change (entries_text (map normalized (t :: t' :: ts')))
      with (normalized t ++ "," ++ entries_text (map normalized (t' :: ts'))).
    rewrite <- IH by (discriminate || exact Hts).
    rewrite !replace_all_append, Ht.
    change (JsString.replace_all ")" ",)" ",") with ",".
    now rewrite !append_assoc.
Qed.

Lemma replace_all_newick (t : tree) :
  tree_ok t -> JsString.replace_all ")" ",)" (newick t) = normalized t.
Proof.
  induction t as [l|ts l IH] using tree_nested_ind; intros H; inversion H; subst.
  - match goal with L : label_ok l |- _ => destruct L as (_ & Hc & _) end.
    now apply replace_all_absent.
  - match goal with L : label_ok l |- _ => destruct L as (_ & Hc & _) end.
    cbn [newick normalized]. rewrite !replace_all_append.
    rewrite (replace_all_absent ")" ",)" l Hc).
    change (JsString.replace_all ")" ",)" "(") with "(".
    change (JsString.replace_all ")" ",)" ")") with ("," ++ ")").
    rewrite <- (replace_all_entries ts); [now rewrite !append_assoc|assumption|].
    rewrite Forall_forall in *. intros t Ht. apply IH; auto.
Qed.

(** What [tokenize] hands on for the nodes of a tree, after
    [deleteParentAttr]. *)
Lemma repr_reify_list (h : heap) (lo : nat) (ts : list tree) :
  Forall (fun t => forall r, repr h lo t r ->
            exists f n, reify f h r = Some n /\ deleteParentAttr n = raw_of t) ts ->
  forall ids, Forall2 (repr h lo) ts ids ->
  exists f ns, reify_list (reify f h) ids = Some ns /\
               map deleteParentAttr ns = map raw_of ts.
Proof.
  induction 1 as [|t ts Ht _ IH]; intros ids F; inversion F as [|? r ? ids' Hr Hi]; subst.
  - now exists 0%nat, [].
  - destruct (Ht r Hr) as (f1 & n & E1 & D1).
    destruct (IH ids' Hi) as (f2 & ns & E2 & D2).
    exists (Nat.max f1 f2), (n :: ns). split.
    + cbn [reify_list].
      rewrite (reify_more_fuel h f1 (Nat.max f1 f2) r n (Nat.le_max_l _ _) E1).
      rewrite (reify_list_ext (reify f2 h) (reify (Nat.max f1 f2) h) ids' ns); [reflexivity| |exact E2].
      intros k _ m. apply reify_more_fuel, Nat.le_max_r.
    + cbn [map]. now rewrite D1, D2.
Qed.

Lemma repr_reify (h : heap) (lo : nat) (t : tree) (r : nat) :
  repr h lo t r ->
  exists f n, reify f h r = Some n /\ deleteParentAttr n = raw_of t.
Proof.
  revert r. induction t as [l|ts l IH] using tree_nested_ind; intros r H;
    inversion H as [? ? Hlo Ec|? ? ? ids p Hlo Ec Hch]; subst.
  - exists 1%nat, (leaf l). cbn [reify]. now rewrite Ec.
  - destruct (repr_reify_list h lo ts IH ids Hch) as (f & ns & E & D).
    exists (S f), (RawNode (Some ns) (Some p) (Some l)). split.
    + cbn [reify]. rewrite Ec. cbn [c_branchset c_parent c_text]. now rewrite E.
    + cbn [deleteParentAttr raw_of]. now rewrite D.
Qed.

Lemma translateNode_raw_of (t : tree) : translateNode (raw_of t) = object_of t.
Proof.
  induction t as [l|ts l IH] using tree_nested_ind; [reflexivity|].
  change (translateNode (raw_of (Group ts l)))
    with (translateText [("branchset", VArr (map translateNode (map raw_of ts)))] l).
  cbn [object_of]. do 4 f_equal. rewrite map_map.
  induction IH as [|a ts Ha _ IHl]; [reflexivity|].
  cbn [map]. now rewrite Ha, IHl.
Qed.

(** X15. The text of a well-formed tree, closed by the terminator, parses
    to the object of that tree: every group becomes a node whose
    branchset holds the objects of its entries in the order of the text,
    at any depth of nesting, and every label is translated on its own
    node. *)
Theorem parse_newick_tree (t : tree) :
  tree_ok t -> parse (newick t ++ ";") = OK (object_of t).
Proof.
  intros Hok.
  set (str := normalized t ++ ",").
  assert (En : appendBoundaries (newick t ++ ";") = str).
  { rewrite appendBoundaries_entry. now rewrite replace_all_newick. }
  destruct (tree_scanned t Hok str "" "" [mkCell (Some []) None None] root
              (mkCell (Some []) None None) [] None)
    as (h' & rs & pv' & L & R & C & _ & _).
  - unfold str. now rewrite append_nil_r.
  - change (JsString.len "" - 1) with (-1).
    rewrite substr_before_start, last_str_ends_with.
    unfold str. apply ends_with_append_char.
  - reflexivity.
  - reflexivity.
  - destruct (Forall2_single _ _ _ R) as (r & -> & Rr).
    cbn [app c_parent c_text] in C.
    change (JsString.len "") with 0 in L.
    assert (Sc : scan (appendBoundaries (newick t ++ ";"))
                 = OK (mkState h' (Some root) (0 + JsString.len str) false pv'))
      by (rewrite En; exact L).
    destruct (parse_first_entry _ _ root r [] Sc eq_refl) as (n & En' & Ep).
    + unfold branchset_of. cbn [store]. now rewrite C.
    + cbn [store] in En'. rewrite Ep.
      destruct (repr_reify h' _ t r Rr) as (f & n' & Ef & Dn).
      pose proof (reify_more_fuel h' f (Nat.max f (List.length h')) r n'
                    (Nat.le_max_l _ _) Ef) as M1.
      pose proof (reify_more_fuel h' (List.length h') (Nat.max f (List.length h')) r n
                    (Nat.le_max_r _ _) En') as M2.
      rewrite M1 in M2. inversion M2; subst n'.
      now rewrite Dn, translateNode_raw_of.
Qed.

Lemma parse_newick_tree_witness :
  parse (newick (Group [Group [Leaf "A:0.1"; Leaf "B"] "C"; Leaf "D[&&NHX:x=1]"] "E") ++ ";")
  = OK (object_of (Group [Group [Leaf "A:0.1"; Leaf "B"] "C"; Leaf "D[&&NHX:x=1]"] "E")).
Proof.
  apply (parse_newick_tree
           (Group [Group [Leaf "A:0.1"; Leaf "B"] "C"; Leaf "D[&&NHX:x=1]"] "E")).
  assert (L : forall l, (has_char "(" l || has_char ")" l || has_char "," l
                         || in_comment false l) = false -> label_ok l).
  { intros l H. apply orb_false_iff in H as [H H4].
    apply orb_false_iff in H as [H H3]. apply orb_false_iff in H as [H1 H2].
    now repeat split. }
  apply ok_group; [discriminate| |now apply L].
  constructor; [|constructor; [|constructor]].
  - apply ok_group; [discriminate| |now apply L].
    constructor; [|constructor; [|constructor]]; apply ok_leaf; now apply L.
  - apply ok_leaf. now apply L.
Defined.

End WellFormedTrees.
